(** * getmark: the watermark service of [app.py], embedded in Rocq

    The Flask application downloads an image, tiles a rotated,
    semi-transparent logo over it with Pillow and returns the encoded
    result.  This file embeds the functions of [app.py] and the Pillow,
    requests and Python primitives they call, and proves the properties
    the specification states about them.

    Conventions of the embedding:
    - Python [int] values are [Z].  A Python [float] is given by its
      value, a rational [Q], and every float operation of the source
      whose rounding can show in a result rounds that value to the
      format, to nearest with ties to even ([Float.fl64] for the binary64
      of Python, [Float.fl32] for the C [float] of libImaging's blend).
      The quotients and products of [resize_proportional] and the factor
      of [adjust_opacity] are of that kind.  The products with the
      literals [0.8] and [0.20] are kept as rational products: binary64
      gives the same truncated product for every size a Pillow image can
      have ([spacing_binary64], [watermark_size_binary64]).  Infinities,
      NaN and overflow are out of reach of the sizes of an image and
      have no counterpart here.
    - Image objects live in a heap and are handled through references,
      because [putalpha] and [paste] update an object in place.
    - A raised exception is a [Raise] result; the heap reached so far is
      kept, as in Python.
    - Pixel data produced by the resampling filters (Lanczos resize,
      bicubic rotation) is a parameter of the development, as are the
      logo file found on disk and the answers of the network. *)

From Stdlib Require Import ZArith QArith Qround Qminmax Qpower Lia Lqa String Ascii Bool.
From Stdlib Require SpecFloat.
From stdpp Require Import base list.

Open Scope Z_scope.

(** ** Exceptions and the state-and-exception monad *)

Inductive exn :=
| ValueError
| IndexError
| ZeroDivisionError
| OSError            (* FileNotFoundError, UnidentifiedImageError, ... *)
| RequestException.  (* ConnectionError, Timeout, HTTPError, ... *)

Inductive result (A : Type) :=
| Ok (a : A)
| Raise (e : exn).
Arguments Ok {A} a.
Arguments Raise {A} e.

Definition St (S A : Type) : Type := S -> result A * S.

#[global] Instance St_ret {S} : MRet (St S) := fun A a s => (Ok a, s).

#[global] Instance St_bind {S} : MBind (St S) := fun A B k m s =>
  match m s with
  | (Ok a, s') => k a s'
  | (Raise e, s') => (Raise e, s')
  end.

Definition raise {S A} (e : exn) : St S A := fun s => (Raise e, s).

Definition lift {S A} (r : result A) : St S A := fun s => (r, s).

Definition modify {S} (f : S -> S) : St S unit := fun s => (Ok (), f s).

(** [for x in xs: body] *)
Fixpoint for_each {S} (xs : list Z) (body : Z -> St S unit) : St S unit :=
  match xs with
  | [] => mret ()
  | x :: xs' => body x;; for_each xs' body
  end.

(** ** Floating-point numbers *)

Module Float.

(** The integer nearest to [q]; a tie goes to the even one. *)
Definition rne (q : Q) : Z :=
  let f := Qfloor q in
  match (q - inject_Z f ?= 1 # 2)%Q with
  | Lt => f
  | Gt => f + 1
  | Eq => if Z.even f then f else f + 1
  end.

(** The binade of a positive [q]: the [e] with [2 ^ e <= q < 2 ^ (e + 1)]. *)
Definition ilog2 (q : Q) : Z :=
  let e := Z.log2 (Qnum q) - Z.log2 (Z.pos (Qden q)) in
  if Qle_bool (2 ^ e) q then e else e - 1.

(** The exponent of the unit in the last place around a positive [x], in
    a format of precision [prec] whose least exponent is [emin]. *)
Definition ulp_exp (prec emin : Z) (x : Q) : Z :=
  Z.max (ilog2 x - prec + 1) emin.

(** The floating-point number nearest to [x], ties to even. *)
Definition round (prec emin : Z) (x : Q) : Q :=
  match (x ?= 0)%Q with
  | Eq => 0%Q
  | Gt => let k := ulp_exp prec emin x in
          Qred (inject_Z (rne (x / 2 ^ k)) * 2 ^ k)
  | Lt => let k := ulp_exp prec emin (- x) in
          Qred (- (inject_Z (rne (- x / 2 ^ k)) * 2 ^ k))
  end.

(** binary64, the [float] of Python and the [double] of C. *)
Definition fl64 : Q -> Q := round 53 (-1074).

(** binary32, the [float] of C. *)
Definition fl32 : Q -> Q := round 24 (-149).

(** The value of a finite number of the standard library's
    specification of IEEE 754, against which [round] is checked. *)
Definition SF2Q (f : SpecFloat.spec_float) : Q :=
  match f with
  | SpecFloat.S754_finite s m e =>
      Qred ((if s then -1 else 1) * inject_Z (Z.pos m) * 2 ^ e)
  | _ => 0%Q
  end.

(** An integer as a number of the specification, in binary64 and in
    binary32. *)
Definition of_Z64 (z : Z) : SpecFloat.spec_float :=
  SpecFloat.binary_normalize 53 1024 z 0 false.
Definition of_Z32 (z : Z) : SpecFloat.spec_float :=
  SpecFloat.binary_normalize 24 128 z 0 false.

(** A number of the specification narrowed to binary32, as the cast
    [(float)] of C does. *)
Definition narrow32 (f : SpecFloat.spec_float) : SpecFloat.spec_float :=
  match f with
  | SpecFloat.S754_finite s m e => SpecFloat.binary_normalize 24 128 (Z.pos m) e s
  | _ => f
  end.

End Float.

(** ** Python builtins used by [app.py] *)

Module Py.

(** [int(x)] on a float truncates toward zero. *)
Definition int (q : Q) : Z := Z.quot (Qnum q) (Z.pos (Qden q)).

(** [a / b] on ints is true division: the quotient correctly rounded to
    a float; it raises on a zero divisor. *)
Definition truediv (a b : Z) : result Q :=
  if b =? 0 then Raise ZeroDivisionError
  else Ok (Float.fl64 (inject_Z a / inject_Z b)).

(** [n * x] with an int [n] and a float [x]: the int becomes a float and
    the product is rounded. *)
Definition mul_int_float (n : Z) (x : Q) : Q :=
  Float.fl64 (Float.fl64 (inject_Z n) * x).

(** Number of elements of [range(lo, hi, step)] for a positive step. *)
Definition range_len (lo hi step : Z) : Z :=
  if lo <? hi then (hi - lo - 1) / step + 1 else 0.

(** [range(start, stop, step)]; a zero step is a [ValueError]. *)
Definition range (start stop step : Z) : result (list Z) :=
  if step =? 0 then Raise ValueError
  else
    let n := if 0 <? step then range_len start stop step
             else range_len stop start (- step) in
    Ok (map (fun i : nat => start + Z.of_nat i * step) (seq 0 (Z.to_nat n))).

Definition lower_char (c : ascii) : ascii :=
  let n := nat_of_ascii c in
  if ((65 <=? n) && (n <=? 90))%nat then ascii_of_nat (n + 32) else c.

(** [s.lower()], on the ASCII letters. *)
Fixpoint lower (s : string) : string :=
  match s with
  | EmptyString => EmptyString
  | String c s' => String (lower_char c) (lower s')
  end.

(** [s.endswith(suffix)] *)
Fixpoint endswith (s suffix : string) : bool :=
  if String.eqb s suffix then true
  else match s with
       | EmptyString => false
       | String _ s' => endswith s' suffix
       end.

(** [s.endswith((a, b, ...))] *)
Definition endswith_any (s : string) (suffixes : list string) : bool :=
  existsb (endswith s) suffixes.

End Py.

(** ** Image buffers *)

(** The two modes that [app.py] names: it converts the photo and the
    logo to ["RGBA"] before it does anything else with them and the
    result to ["RGB"] before a JPEG is written.  A file may decode to
    another mode of Pillow (["L"], ["P"], ["CMYK"], ...); such an image
    only ever meets the first [convert], and the statements below speak
    of buffers in these two modes. *)
Inductive mode_t := RGB | RGBA.

Definition mode_eqb (m1 m2 : mode_t) : bool :=
  match m1, m2 with
  | RGB, RGB | RGBA, RGBA => true
  | _, _ => false
  end.

(** One pixel: four 8-bit channels.  In an [RGB] image the fourth byte
    is padding. *)
Record pixel := Pixel { pr : Z; pg : Z; pb : Z; pa : Z }.

Record image := Image {
  mode : mode_t;
  width : Z;
  height : Z;
  getpixel : Z -> Z -> pixel
}.

(** A single-channel ("L") image, as returned by [split()]. *)
Record band := Band {
  band_width : Z;
  band_height : Z;
  band_at : Z -> Z -> Z
}.

Definition size (img : image) : Z * Z := (width img, height img).

Definition in_bounds (img : image) (x y : Z) : Prop :=
  0 <= x < width img /\ 0 <= y < height img.

Definition u8 (v : Z) : Prop := 0 <= v <= 255.

Definition u8_pixel (p : pixel) : Prop :=
  u8 (pr p) /\ u8 (pg p) /\ u8 (pb p) /\ u8 (pa p).

(** A buffer as Pillow holds it: no negative dimension, and every stored
    channel an 8-bit value. *)
Definition wf_image (img : image) : Prop :=
  0 <= width img /\ 0 <= height img /\
  forall x y, in_bounds img x y -> u8_pixel (getpixel img x y).

(** ** The heap of image objects *)

Abbreviation ref := nat (only parsing).
Abbreviation heap := (list image) (only parsing).

Definition alloc (img : image) : St heap ref :=
  fun h => (Ok (length h), h ++ [img]).

(** A reference of a running program always points into the heap; the
    error case only makes [deref] total. *)
Definition deref (r : ref) : St heap image :=
  fun h => match h !! r with
           | Some img => (Ok img, h)
           | None => (Raise ValueError, h)
           end.

Definition update (r : ref) (img : image) : St heap unit :=
  modify (fun h : heap => <[r := img]> h).

(** ** Pillow *)

(** The file formats that the application writes. *)
Inductive format := PNG | JPEG (quality : Z).

Module PIL.

(** libImaging's [SHIFTFORDIV255]: [a / 255] for [a] below 65536 * 255. *)
Definition shift_div255 (a : Z) : Z := Z.shiftr (Z.shiftr a 8 + a) 8.

(** libImaging's [DIV255], a rounded division by 255. *)
Definition div255 (a : Z) : Z := shift_div255 (a + 128).

(** libImaging's [BLEND(mask, in1, in2)]. *)
Definition BLEND (mask in1 in2 : Z) : Z :=
  div255 (in1 * (255 - mask) + in2 * mask).

Definition convert_pixel (src dst : mode_t) (p : pixel) : pixel :=
  match src, dst with
  | RGBA, RGBA => p
  | _, _ => Pixel (pr p) (pg p) (pb p) 255
  end.

Definition convert_image (img : image) (m : mode_t) : image :=
  {| mode := m; width := width img; height := height img;
     getpixel := fun x y => convert_pixel (mode img) m (getpixel img x y) |}.

(** [Image.new(mode, size, color)] *)
Definition new (m : mode_t) (sz : Z * Z) (color : pixel) : St heap ref :=
  if (fst sz <? 0) || (snd sz <? 0) then raise ValueError
  else alloc {| mode := m; width := fst sz; height := snd sz;
                getpixel := fun _ _ => color |}.

(** [im.convert(mode)]: a new image. *)
Definition convert (self : ref) (m : mode_t) : St heap ref :=
  img ← deref self;
  alloc (convert_image img m).

(** [im.split()[3]]: the alpha band; an RGB image has three bands only. *)
Definition split_3 (self : ref) : St heap band :=
  img ← deref self;
  match mode img with
  | RGBA => mret {| band_width := width img; band_height := height img;
                    band_at := fun x y => pa (getpixel img x y) |}
  | RGB => raise IndexError
  end.

(** libImaging's [ImagingBlend] on one sample.  Its factor is a C
    [float]: the Python float is narrowed to binary32 at the call, and
    the product and the sum are single-precision operations (the 8-bit
    samples and their difference are exact in binary32). *)
Definition blend_value (in1 in2 : Z) (alpha : Q) : Z :=
  let alpha := Float.fl32 alpha in
  if Qeq_bool alpha 0 then in1
  else if Qeq_bool alpha 1 then in2
  else
    let temp :=
      Float.fl32 (inject_Z in1 + Float.fl32 (alpha * inject_Z (in2 - in1))) in
    if Qle_bool 0 alpha && Qle_bool alpha 1 then Py.int temp
    else if Qle_bool temp 0 then 0
    else if Qle_bool 255 temp then 255
    else Py.int temp.

(** [ImageEnhance.Brightness(band).enhance(factor)]: the blend of an
    all-black image of the same size with the band. *)
Definition Brightness_enhance (b : band) (factor : Q) : band :=
  let degenerate := fun (_ _ : Z) => 0 in
  {| band_width := band_width b; band_height := band_height b;
     band_at := fun x y => blend_value (degenerate x y) (band_at b x y) factor |}.

Definition with_alpha (p : pixel) (a : Z) : pixel :=
  Pixel (pr p) (pg p) (pb p) a.

(** [im.putalpha(alpha)]: replaces the alpha band of [im] IN PLACE (an
    image without alpha is promoted to RGBA first). *)
Definition putalpha (self : ref) (alpha : band) : St heap unit :=
  img ← deref self;
  if negb ((band_width alpha =? width img) && (band_height alpha =? height img))
  then raise ValueError
  else update self
         {| mode := RGBA; width := width img; height := height img;
            getpixel := fun x y => with_alpha (getpixel img x y) (band_at alpha x y) |}.

Definition blend_pixel (mask : Z) (out inp : pixel) : pixel :=
  Pixel (BLEND mask (pr out) (pr inp)) (BLEND mask (pg out) (pg inp))
        (BLEND mask (pb out) (pb inp)) (BLEND mask (pa out) (pa inp)).

(** Pixels of [dst] after pasting [src] at [(x0, y0)] through the alpha
    band of [mask]; the region is clipped to the destination. *)
Definition paste_pixels (dst src mask : image) (x0 y0 : Z) : Z -> Z -> pixel :=
  fun x y =>
    let sx := x - x0 in
    let sy := y - y0 in
    if (0 <=? sx) && (sx <? width src) && (0 <=? sy) && (sy <? height src)
    then blend_pixel (pa (getpixel mask sx sy)) (getpixel dst x y) (getpixel src sx sy)
    else getpixel dst x y.

(** The extent, along one axis, of the part of a pasted box that lies
    on the image written to: libImaging's [ImagingPaste] clips the box
    that starts at [d0] and is [size] long to an image [out_size]
    long. *)
Definition clipped_size (d0 size out_size : Z) : Z :=
  let size' := if d0 <? 0 then size + d0 else size in
  let d0' := if d0 <? 0 then 0 else d0 in
  if out_size <? d0' + size' then out_size - d0' else size'.

(** [self.paste(im, (x, y), mask)]: updates [self] IN PLACE.  As in
    [ImagingPaste], the sizes are compared first, a box that has no part
    on the image ends the call, and the mode of the mask is looked at
    last. *)
Definition paste (self im : ref) (box : Z * Z) (mask : ref) : St heap unit :=
  dst ← deref self;
  src ← deref im;
  msk ← deref mask;
  let src' := if mode_eqb (mode dst) (mode src) then src
              else match mode dst with
                   | RGB => src
                   | RGBA => convert_image src RGBA
                   end in
  if negb ((width msk =? width src) && (height msk =? height src))
  then raise ValueError                 (* images do not match *)
  else if (clipped_size (fst box) (width src) (width dst) <=? 0) ||
          (clipped_size (snd box) (height src) (height dst) <=? 0)
  then mret ()
  else match mode msk with
       | RGB => raise ValueError        (* bad transparency mask *)
       | RGBA =>
           update self
             {| mode := mode dst; width := width dst; height := height dst;
                getpixel := paste_pixels dst src' msk (fst box) (snd box) |}
       end.

(** libImaging's [ImagingAlphaComposite] on one pixel: [src] over [dst]. *)
Definition composite_pixel (dst src : pixel) : pixel :=
  if pa src =? 0 then dst
  else
    let blend := pa dst * (255 - pa src) in
    let outa255 := pa src * 255 + blend in
    let coef1 := pa src * 255 * 255 * 128 / outa255 in
    let coef2 := 255 * 128 - coef1 in
    let tmpr := pr src * coef1 + pr dst * coef2 in
    let tmpg := pg src * coef1 + pg dst * coef2 in
    let tmpb := pb src * coef1 + pb dst * coef2 in
    Pixel (Z.shiftr (shift_div255 (tmpr + Z.shiftl 128 7)) 7)
          (Z.shiftr (shift_div255 (tmpg + Z.shiftl 128 7)) 7)
          (Z.shiftr (shift_div255 (tmpb + Z.shiftl 128 7)) 7)
          (shift_div255 (outa255 + 128)).

(** [Image.alpha_composite(im1, im2)]: a new image, [im2] over [im1]. *)
Definition alpha_composite (im1 im2 : ref) : St heap ref :=
  dst ← deref im1;
  src ← deref im2;
  match mode dst, mode src with
  | RGBA, RGBA =>
      if negb ((width dst =? width src) && (height dst =? height src))
      then raise ValueError
      else alloc {| mode := RGBA; width := width dst; height := height dst;
                    getpixel := fun x y =>
                      composite_pixel (getpixel dst x y) (getpixel src x y) |}
  | _, _ => raise ValueError
  end.

(** The largest width or height that libjpeg encodes. *)
Definition JPEG_MAX_DIMENSION : Z := 65500.

(** [im.save(fp, format)] into a [BytesIO]: what the buffer then holds
    is given by the image written and its format.  The JPEG encoder
    refuses an image with a side above [JPEG_MAX_DIMENSION], and Pillow
    raises [OSError]. *)
Definition save (self : ref) (fmt : format) : St heap image :=
  img ← deref self;
  match fmt with
  | PNG => mret img
  | JPEG _ =>
      if (JPEG_MAX_DIMENSION <? width img) || (JPEG_MAX_DIMENSION <? height img)
      then raise OSError              (* encoder error *)
      else mret img
  end.

End PIL.

(** ** Configuration constants of [app.py]

    The two float literals are written as the decimals of the source.
    The binary64 numbers that Python reads from them give the same
    result wherever they are used: the factor that the blend narrows to
    binary32 ([opacity_literal_binary32]) and the truncated product with
    a size ([watermark_size_binary64]). *)

Definition LOGO_FILENAME : string := "logo.png".
Definition WATERMARK_OPACITY : Q := 8 # 10.
Definition ROTATION_ANGLE : Z := 45.
Definition WATERMARK_SCALE : Q := 20 # 100.

(** ** The image functions of [app.py] *)

(** [adjust_opacity(image, opacity)] *)
Definition adjust_opacity (image : ref) (opacity : Q) : St heap ref :=
  if Qle_bool 1 opacity then mret image
  else
    alpha ← PIL.split_3 image;
    let alpha := PIL.Brightness_enhance alpha opacity in
    PIL.putalpha image alpha;;
    mret image.

(** The nested [for y ... for x ...] loop of [create_tiled_pattern], with
    the [paste] call it guards as a parameter.  The spacing
    [int(tile_width * 0.8)] is the truncated product with 8/10, which
    is what binary64 gives for every size below 2^31
    ([spacing_binary64]). *)
Definition tiling_loop {S} (base_width base_height tile_width tile_height : Z)
    (paste_at : Z -> Z -> St S unit) : St S unit :=
  let spacing_x := Py.int (inject_Z tile_width * (8 # 10)) in
  let spacing_y := Py.int (inject_Z tile_height * (8 # 10)) in
  let offset_x := (- tile_width) / 2 in
  let offset_y := (- tile_height) / 2 in
  ys ← lift (Py.range offset_y (base_height + tile_height) spacing_y);
  for_each ys (fun y =>
    xs ← lift (Py.range offset_x (base_width + tile_width) spacing_x);
    for_each xs (fun x =>
      let pos_x := x in
      let pos_y := y in
      if (pos_x <? base_width) && (pos_y <? base_height)
      then paste_at pos_x pos_y
      else mret ())).

(** [create_tiled_pattern(base_image, watermark_tile)] *)
Definition create_tiled_pattern (base_image watermark_tile : ref) : St heap ref :=
  base ← deref base_image;
  watermark_layer ← PIL.new RGBA (size base) (Pixel 0 0 0 0);
  tile ← deref watermark_tile;
  tiling_loop (width base) (height base) (width tile) (height tile)
    (fun pos_x pos_y =>
       PIL.paste watermark_layer watermark_tile (pos_x, pos_y) watermark_tile);;
  result ← PIL.alpha_composite base_image watermark_layer;
  mret result.

(** The origins at which the loop of [create_tiled_pattern] calls [paste],
    in call order: the loop run with an action that records its
    arguments. *)
Definition paste_origins (base_width base_height tile_width tile_height : Z)
    : result (list (Z * Z)) :=
  match tiling_loop base_width base_height tile_width tile_height
          (fun x y => modify (fun l : list (Z * Z) => l ++ [(x, y)])) [] with
  | (Ok _, l) => Ok l
  | (Raise e, _) => Raise e
  end.

(** ** The world outside the process *)

(** What [LOGO_FILENAME] holds on disk. *)
Inductive logo_state :=
| Missing                           (* os.path.exists is False *)
| Invalid                           (* Image.open or verify raises *)
| Verified (data : option image).   (* verify passes; None: loading raises *)

(** What the server answered, when it answered. *)
Inductive http_body :=
| NotAnImage                  (* Image.open raises UnidentifiedImageError *)
| Decodes (img : image).

Inductive http_result :=
| ConnectionFailed
| TimedOut
| Response (status_code : Z) (content : http_body).

(** ** HTTP responses of the application *)

Inductive payload :=
| Json_error (msg : string)
| Json_health (status : string) (logo_exists : bool)
| File (fmt : format) (img : image) (download_name : string).

Record response := Resp {
  status : Z;
  mimetype : string;
  body : payload
}.

Section App.

(** Pixels computed by [Image.resize(size, LANCZOS)]. *)
Variable lanczos : image -> Z * Z -> Z -> Z -> pixel.
(** Size and pixels computed by [Image.rotate(angle, expand=True,
    resample=BICUBIC)]. *)
Variable rotate_size : Z -> Z * Z -> Z * Z.
Variable bicubic : Z -> image -> Z -> Z -> pixel.
(** The logo file and the network. *)
Variable logo_file : logo_state.
Variable requests_get : string -> http_result.

(** [im.resize(size, Image.LANCZOS)] *)
Definition Image_resize (self : ref) (sz : Z * Z) : St heap ref :=
  img ← deref self;
  if (fst sz =? width img) && (snd sz =? height img)
  then alloc img                                   (* self.copy() *)
  else if (fst sz <? 1) || (snd sz <? 1)
  then raise ValueError               (* height and width must be > 0 *)
  else alloc {| mode := mode img; width := fst sz; height := snd sz;
                getpixel := lanczos img sz |}.

(** [im.rotate(angle, expand=True, resample=Image.BICUBIC)] *)
Definition Image_rotate (self : ref) (angle : Z) : St heap ref :=
  img ← deref self;
  alloc {| mode := mode img;
           width := fst (rotate_size angle (size img));
           height := snd (rotate_size angle (size img));
           getpixel := bicubic angle img |}.

(** [Image.open(LOGO_FILENAME)], loaded. *)
Definition Image_open_logo : St heap ref :=
  match logo_file with
  | Verified (Some img) => alloc img
  | _ => raise OSError
  end.

(** [resize_proportional(image, target_size)] *)
Definition resize_proportional (image : ref) (target_size : Z) : St heap ref :=
  img ← deref image;
  let original_width := width img in
  let original_height := height img in
  ratio_w ← lift (Py.truediv target_size original_width);
  ratio_h ← lift (Py.truediv target_size original_height);
  let ratio := Qmin ratio_w ratio_h in
  let new_width := Py.int (Py.mul_int_float original_width ratio) in
  let new_height := Py.int (Py.mul_int_float original_height ratio) in
  Image_resize image (new_width, new_height).

(** [apply_diagonal_watermark(image)]; its [except] clause logs and
    re-raises. *)
Definition apply_diagonal_watermark (image : ref) : St heap ref :=
  main_image ← PIL.convert image RGBA;
  logo ← Image_open_logo;
  watermark ← PIL.convert logo RGBA;
  watermark ← adjust_opacity watermark WATERMARK_OPACITY;
  main ← deref main_image;
  let base_size := Z.min (width main) (height main) in
  let watermark_size := Py.int (inject_Z base_size * WATERMARK_SCALE) in
  watermark ← resize_proportional watermark watermark_size;
  rotated_watermark ← Image_rotate watermark ROTATION_ANGLE;
  watermarked ← create_tiled_pattern main_image rotated_watermark;
  mret watermarked.

(** [check_logo()] *)
Definition check_logo : bool :=
  match logo_file with
  | Missing => false
  | Invalid => false
  | Verified _ => true
  end.

(** [response.raise_for_status()]: requests raises [HTTPError] for the
    client and server error classes. *)
Definition raise_for_status (status_code : Z) : St heap unit :=
  if (400 <=? status_code) && (status_code <? 600)
  then raise RequestException
  else mret ().

(** [download_image(image_url)]; its [except] clause logs and
    re-raises. *)
Definition download_image (image_url : string) : St heap ref :=
  match requests_get image_url with
  | ConnectionFailed => raise RequestException
  | TimedOut => raise RequestException
  | Response status_code content =>
      raise_for_status status_code;;
      match content with
      | NotAnImage => raise OSError
      | Decodes img => alloc img
      end
  end.

Definition json_error (msg : string) (code : Z) : response :=
  {| status := code; mimetype := "application/json"; body := Json_error msg |}.

(** [GET /watermark]; [url] is [request.args.get('url')].  The body of
    the [try] is one computation on a heap that is empty when the
    request arrives; the two [except] clauses turn what it raises into
    an answer. *)
Definition watermark_image (url : option string) : response :=
  match url with
  | None => json_error "Parâmetro 'url' é obrigatório" 400
  | Some EmptyString => json_error "Parâmetro 'url' é obrigatório" 400
  | Some image_url =>
      if negb check_logo
      then json_error "Logo 'logo.png' não encontrada" 500
      else
        let run : St heap response :=
          original_image ← download_image image_url;
          watermarked_image ← apply_diagonal_watermark original_image;
          if Py.endswith_any (Py.lower image_url)
               [".png"; ".gif"; ".bmp"; ".tiff"]%string
          then
            img_io ← PIL.save watermarked_image PNG;
            mret {| status := 200; mimetype := "image/png";
                    body := File PNG img_io "watermarked_image.png" |}
          else
            watermarked_image ← PIL.convert watermarked_image RGB;
            img_io ← PIL.save watermarked_image (JPEG 95);
            mret {| status := 200; mimetype := "image/jpeg";
                    body := File (JPEG 95) img_io "watermarked_image.jpg" |} in
        match run [] with
        | (Ok answer, _) => answer
        | (Raise RequestException, _) =>
            json_error "Não foi possível baixar a imagem" 400
        | (Raise _, _) =>
            json_error "Erro ao processar imagem" 500
        end
  end.

(** [GET /health] *)
Definition health_check : response :=
  {| status := 200; mimetype := "application/json";
     body := Json_health "healthy"
               (match logo_file with Missing => false | _ => true end) |}.

End App.

(** ** Auxiliary definitions used in the statements *)

(** [for (x, y) in l: act(x, y)] *)
Fixpoint for_each_pair {S} (l : list (Z * Z)) (act : Z -> Z -> St S unit)
    : St S unit :=
  match l with
  | [] => mret ()
  | (x, y) :: l' => act x y;; for_each_pair l' act
  end.

(** The elements of a [range], or nothing when the range is an error. *)
Definition range_list (start stop step : Z) : list Z :=
  match Py.range start stop step with
  | Ok l => l
  | Raise _ => []
  end.

(** The grid positions of the tiling loop that pass its guard, row by
    row. *)
Definition tile_origins (base_width base_height tile_width tile_height : Z)
    : list (Z * Z) :=
  let spacing_x := Py.int (inject_Z tile_width * (8 # 10)) in
  let spacing_y := Py.int (inject_Z tile_height * (8 # 10)) in
  let offset_x := (- tile_width) / 2 in
  let offset_y := (- tile_height) / 2 in
  flat_map (fun y =>
      map (fun x => (x, y))
        (List.filter (fun x => (x <? base_width) && (y <? base_height))
           (range_list offset_x (base_width + tile_width) spacing_x)))
    (range_list offset_y (base_height + tile_height) spacing_y).

(** The heap while [create_tiled_pattern] tiles: the base image and the
    tile are as they were, and the watermark layer is an RGBA buffer of
    the size of the base whose alpha values are 8-bit. *)
Definition layer_inv (b t l : ref) (base tile : image) (s : heap) : Prop :=
  s !! b = Some base /\ s !! t = Some tile /\
  exists layer,
    s !! l = Some layer /\ mode layer = RGBA /\ size layer = size base /\
    forall x y, u8 (pa (getpixel layer x y)).

(** [m] never raises a requests exception. *)
Definition no_request_exn {S A} (m : St S A) : Prop :=
  forall s e s', m s = (Raise e, s') -> e <> RequestException.

(** The request carries no usable [url]: absent, or empty. *)
Definition url_missing (url : option string) : Prop :=
  url = None \/ url = Some EmptyString.

(** The download raises a requests exception: no connection, a timeout,
    or a status that [raise_for_status] rejects. *)
Definition download_fails (res : http_result) : Prop :=
  match res with
  | ConnectionFailed => True
  | TimedOut => True
  | Response status_code _ => 400 <= status_code < 600
  end.

(** The URL, lowercased, ends with one of the extensions kept as PNG. *)
Definition png_url (u : string) : Prop :=
  exists ext prefix,
    In ext [".png"; ".gif"; ".bmp"; ".tiff"]%string /\
    Py.lower u = (prefix ++ ext)%string.

(** A processing step fails after a completed download: the body is no
    image, or the pipeline raises on the decoded image. *)
Definition processing_fails (pipeline : ref -> St heap ref) (res : http_result)
    : Prop :=
  match res with
  | Response _ NotAnImage => True
  | Response _ (Decodes img) => exists e h', pipeline 0%nat [img] = (Raise e, h')
  | _ => False
  end.

(** The encoder refuses the result: the download completes with an
    image, the pipeline returns, the URL asks for a JPEG and the result
    has a side above [JPEG_MAX_DIMENSION]. *)
Definition encoding_fails (pipeline : ref -> St heap ref) (u : string)
    (res : http_result) : Prop :=
  match res with
  | Response _ (Decodes img) =>
      exists r h' out,
        pipeline 0%nat [img] = (Ok r, h') /\ h' !! r = Some out /\
        Py.endswith_any (Py.lower u) [".png"; ".gif"; ".bmp"; ".tiff"]%string
          = false /\
        (PIL.JPEG_MAX_DIMENSION < width out \/
         PIL.JPEG_MAX_DIMENSION < height out)
  | _ => False
  end.

(** The response is a JSON error payload with the given status. *)
Definition error_response (resp : response) (code : Z) : Prop :=
  status resp = code /\ mimetype resp = "application/json"%string /\
  exists msg, body resp = Json_error msg.

(** [m] leaves the first [n] objects of the heap as they are, whether it
    returns or raises, and a value it returns satisfies [post]. *)
Definition frame {A} (n : nat) (m : St heap A) (post : A -> Prop) : Prop :=
  forall h res h', (n <= length h)%nat -> m h = (res, h') ->
    (n <= length h')%nat /\
    (forall r, (r < n)%nat -> h' !! r = h !! r) /\
    (forall a, res = Ok a -> post a).

(** The heap while [create_tiled_pattern] tiles, with a property [Q] of
    every pixel of the watermark layer. *)
Definition layer_holds (Q : pixel -> Prop) (b t l : ref) (base tile : image)
    (s : heap) : Prop :=
  s !! b = Some base /\ s !! t = Some tile /\
  exists layer,
    s !! l = Some layer /\ mode layer = RGBA /\ size layer = size base /\
    forall x y, Q (getpixel layer x y).

(** ** Sample inputs, on which the statements are exercised *)

(** An image filled with one colour. *)
Definition solid (m : mode_t) (w h : Z) (p : pixel) : image :=
  {| mode := m; width := w; height := h; getpixel := fun _ _ => p |}.

Definition sample_photo : image := solid RGB 20 20 (Pixel 200 150 100 255).
Definition sample_logo : image := solid RGBA 4 4 (Pixel 10 20 30 255).

(** Stand-ins for the resampling filters: every output pixel is the
    first pixel of the input, and a rotated image is as wide and as high
    as the sum of the sides of its input. *)
Definition sample_lanczos : image -> Z * Z -> Z -> Z -> pixel :=
  fun img _ _ _ => getpixel img 0 0.
Definition sample_rotate_size : Z -> Z * Z -> Z * Z :=
  fun _ sz => (fst sz + snd sz, fst sz + snd sz).
Definition sample_bicubic : Z -> image -> Z -> Z -> pixel :=
  fun _ img _ _ => getpixel img 0 0.

(** A server that answers every request with the sample photo. *)
Definition sample_server : string -> http_result :=
  fun _ => Response 200 (Decodes sample_photo).

(** * Properties *)

(** ** The monad *)

Lemma bind_run {S A B} (m : St S A) (k : A -> St S B) (s : S) :
  (m ≫= k) s = match m s with
               | (Ok a, s') => k a s'
               | (Raise e, s') => (Raise e, s')
               end.
Proof. reflexivity. Qed.

Lemma bind_ok {S A B} (m : St S A) (k : A -> St S B) (s s' : S) (a : A) :
  m s = (Ok a, s') -> (m ≫= k) s = k a s'.
Proof. intros E. rewrite bind_run, E. reflexivity. Qed.

Lemma bind_raise {S A B} (m : St S A) (k : A -> St S B) (s s' : S) (e : exn) :
  m s = (Raise e, s') -> (m ≫= k) s = (Raise e, s').
Proof. intros E. rewrite bind_run, E. reflexivity. Qed.

Lemma bind_inv_ok {S A B} (m : St S A) (k : A -> St S B) (s s' : S) (b : B) :
  (m ≫= k) s = (Ok b, s') ->
  exists a s1, m s = (Ok a, s1) /\ k a s1 = (Ok b, s').
Proof.
  rewrite bind_run. destruct (m s) as [[a | e] s1]; intros E.
  - exists a, s1. split; [reflexivity | exact E].
  - discriminate E.
Qed.

Lemma deref_some (h : heap) (r : ref) (img : image) :
  h !! r = Some img -> deref r h = (Ok img, h).
Proof. intros E. unfold deref. rewrite E. reflexivity. Qed.

Lemma deref_inv_ok (h h' : heap) (r : ref) (img : image) :
  deref r h = (Ok img, h') -> h' = h /\ h !! r = Some img.
Proof.
  unfold deref. destruct (h !! r) as [i |]; intros E; inversion E; auto.
Qed.

(** ** Rounding to nearest *)

Lemma Qfloor_bounds (q : Q) :
  (inject_Z (Qfloor q) <= q)%Q /\ (q < inject_Z (Qfloor q + 1))%Q.
Proof. split; [apply Qfloor_le | apply Qlt_floor]. Qed.

Lemma rne_cases (q : Q) :
  (Float.rne q = Qfloor q /\ (q - inject_Z (Qfloor q) <= 1 # 2)%Q) \/
  (Float.rne q = Qfloor q + 1 /\ (1 # 2 <= q - inject_Z (Qfloor q))%Q).
Proof.
  unfold Float.rne.
  destruct (Qcompare_spec (q - inject_Z (Qfloor q)) (1 # 2)) as [E | E | E].
  - destruct (Z.even (Qfloor q)); [left | right]; (split; [reflexivity |]);
      rewrite E; apply Qle_refl.
  - left. split; [reflexivity | apply Qlt_le_weak; exact E].
  - right. split; [reflexivity | apply Qlt_le_weak; exact E].
Qed.

Lemma rne_le_int (q : Q) (n : Z) : (q <= inject_Z n)%Q -> Float.rne q <= n.
Proof.
  intros H. destruct (Qfloor_bounds q) as [Hl Hu].
  assert (Hf : Qfloor q <= n).
  { rewrite <- (Qfloor_Z n). apply Qfloor_resp_le. exact H. }
  destruct (rne_cases q) as [[E _] | [E Hh]]; rewrite E; [exact Hf |].
  assert (Hlt : (inject_Z (Qfloor q) < inject_Z n)%Q).
  { apply Qlt_le_trans with q; [| exact H].
    apply Qlt_minus_iff. apply Qlt_le_trans with (1 # 2)%Q; [reflexivity | exact Hh]. }
  rewrite <- Zlt_Qlt in Hlt. lia.
Qed.

Lemma rne_ge_int (q : Q) (n : Z) : (inject_Z n <= q)%Q -> n <= Float.rne q.
Proof.
  intros H.
  assert (Hf : n <= Qfloor q).
  { rewrite <- (Qfloor_Z n). apply Qfloor_resp_le. exact H. }
  destruct (rne_cases q) as [[E _] | [E _]]; rewrite E; lia.
Qed.

Lemma rne_error (q : Q) :
  (q - (1 # 2) <= inject_Z (Float.rne q))%Q /\ (inject_Z (Float.rne q) <= q + (1 # 2))%Q.
Proof.
  destruct (Qfloor_bounds q) as [Hl Hu].
  destruct (rne_cases q) as [[E Hh] | [E Hh]]; rewrite E.
  - split; lra.
  - rewrite inject_Z_plus in *. change (inject_Z 1) with 1%Q in *. split; lra.
Qed.

(** ** Powers of two *)

Lemma two_neq0 : ~ (2 == 0)%Q.
Proof. unfold Qeq. simpl. lia. Qed.

Lemma pow2_pos (k : Z) : (0 < 2 ^ k)%Q.
Proof. apply Qpower_0_lt. reflexivity. Qed.

Lemma pow2_neq0 (k : Z) : ~ (2 ^ k == 0)%Q.
Proof. intros E. pose proof (pow2_pos k) as H. rewrite E in H. discriminate H. Qed.

Lemma pow2_inject (k : Z) : 0 <= k -> (2 ^ k == inject_Z (2 ^ k))%Q.
Proof. intros H. rewrite Zpower_Qpower by exact H. reflexivity. Qed.

Lemma pow2_le (a b : Z) : a <= b -> (2 ^ a <= 2 ^ b)%Q.
Proof. intros H. apply Qpower_le_compat_l; [exact H | discriminate]. Qed.

Lemma pow2_lt_inv (a b : Z) : (2 ^ a < 2 ^ b)%Q -> a < b.
Proof. intros H. apply (Qpower_lt_compat_l_inv 2); [exact H | reflexivity]. Qed.

Lemma Qdiv_Z_lt (a b c d : Z) :
  0 < b -> 0 < d -> a * d < c * b ->
  (inject_Z a / inject_Z b < inject_Z c / inject_Z d)%Q.
Proof.
  intros Hb Hd H. destruct b as [| b | b]; try lia. destruct d as [| d | d]; try lia.
  rewrite <- !Qmake_Qdiv. unfold Qlt. simpl. exact H.
Qed.

Lemma Qdiv_Z_le (a b c d : Z) :
  0 < b -> 0 < d -> a * d <= c * b ->
  (inject_Z a / inject_Z b <= inject_Z c / inject_Z d)%Q.
Proof.
  intros Hb Hd H. destruct b as [| b | b]; try lia. destruct d as [| d | d]; try lia.
  rewrite <- !Qmake_Qdiv. unfold Qle. simpl. exact H.
Qed.

(** ** The binade of a positive rational *)

Lemma ilog2_spec (x : Q) :
  (0 < x)%Q -> (2 ^ Float.ilog2 x <= x)%Q /\ (x < 2 ^ (Float.ilog2 x + 1))%Q.
Proof.
  intros Hx. destruct x as [n d]. unfold Float.ilog2. cbn [Qnum Qden].
  assert (Hn : 0 < n) by (unfold Qlt in Hx; simpl in Hx; lia).
  destruct (Z.log2_spec n Hn) as [A1 A2].
  destruct (Z.log2_spec (Z.pos d) ltac:(lia)) as [B1 B2].
  pose proof (Z.log2_nonneg n) as HA. pose proof (Z.log2_nonneg (Z.pos d)) as HB.
  set (A := Z.log2 n) in *. set (B := Z.log2 (Z.pos d)) in *.
  assert (PA : 0 < 2 ^ A) by (apply Z.pow_pos_nonneg; lia).
  assert (PB : 0 < 2 ^ B) by (apply Z.pow_pos_nonneg; lia).
  assert (PA' : 0 < 2 ^ Z.succ A) by (apply Z.pow_pos_nonneg; lia).
  assert (PB' : 0 < 2 ^ Z.succ B) by (apply Z.pow_pos_nonneg; lia).
  assert (U : (n # d < 2 ^ (A - B + 1))%Q).
  { replace (A - B + 1) with (Z.succ A - B) by lia.
    rewrite Qpower_minus by exact two_neq0.
    rewrite (pow2_inject (Z.succ A)), (pow2_inject B) by lia.
    rewrite (Qmake_Qdiv n d). apply Qdiv_Z_lt; nia. }
  assert (L : (2 ^ (A - B - 1) <= n # d)%Q).
  { replace (A - B - 1) with (A - Z.succ B) by lia.
    rewrite Qpower_minus by exact two_neq0.
    rewrite (pow2_inject A), (pow2_inject (Z.succ B)) by lia.
    rewrite (Qmake_Qdiv n d). apply Qdiv_Z_le; nia. }
  destruct (Qle_bool (2 ^ (A - B)) (n # d)) eqn:E.
  - apply Qle_bool_iff in E. split; [exact E | exact U].
  - split; [exact L |].
    replace (A - B - 1 + 1) with (A - B) by lia.
    apply Qnot_le_lt. intros C. apply Qle_bool_iff in C. congruence.
Qed.

Lemma ilog2_lt (x : Q) (m : Z) : (0 < x)%Q -> (x < 2 ^ m)%Q -> Float.ilog2 x < m.
Proof.
  intros Hx H. apply pow2_lt_inv.
  apply Qle_lt_trans with x; [apply ilog2_spec; exact Hx | exact H].
Qed.

Lemma ilog2_ge (x : Q) (m : Z) : (0 < x)%Q -> (2 ^ m <= x)%Q -> m <= Float.ilog2 x.
Proof.
  intros Hx H.
  assert (m < Float.ilog2 x + 1); [| lia].
  apply pow2_lt_inv.
  apply Qle_lt_trans with x; [exact H | apply ilog2_spec; exact Hx].
Qed.

(** ** Rounding to a floating-point format *)

Lemma round_zero (p em : Z) (x : Q) : (x == 0)%Q -> Float.round p em x = 0%Q.
Proof.
  intros E. unfold Float.round. rewrite (proj1 (Qeq_alt x 0) E). reflexivity.
Qed.

Lemma round_pos (p em : Z) (x : Q) :
  (0 < x)%Q ->
  (Float.round p em x ==
   inject_Z (Float.rne (x / 2 ^ Float.ulp_exp p em x)) * 2 ^ Float.ulp_exp p em x)%Q.
Proof.
  intros H. unfold Float.round. rewrite (proj1 (Qgt_alt x 0) H).
  cbv zeta. apply Qred_correct.
Qed.

Lemma round_neg (p em : Z) (x : Q) :
  (x < 0)%Q -> (Float.round p em x == - Float.round p em (- x))%Q.
Proof.
  intros H. assert (H' : (0 < - x)%Q) by lra.
  rewrite (round_pos p em _ H').
  unfold Float.round. rewrite (proj1 (Qlt_alt x 0) H).
  cbv zeta. apply Qred_correct.
Qed.

(** A value on a grid at least as coarse as that of [x] bounds the
    rounding of [x] as it bounds [x]. *)
Lemma round_le_dyadic (p em : Z) (x : Q) (n j : Z) :
  (0 < x)%Q -> (x <= inject_Z n * 2 ^ j)%Q -> Float.ulp_exp p em x <= j ->
  (Float.round p em x <= inject_Z n * 2 ^ j)%Q.
Proof.
  intros Hx Hle Hk. rewrite (round_pos _ _ _ Hx).
  set (k := Float.ulp_exp p em x) in *.
  assert (E : (inject_Z n * 2 ^ j == inject_Z (n * 2 ^ (j - k)) * 2 ^ k)%Q).
  { rewrite inject_Z_mult, <- (pow2_inject (j - k)) by lia.
    rewrite <- Qmult_assoc, <- Qpower_plus by exact two_neq0.
    replace (j - k + k) with j by lia. reflexivity. }
  rewrite E in *.
  apply Qmult_le_compat_r; [| apply Qlt_le_weak, pow2_pos].
  rewrite <- Zle_Qle. apply rne_le_int.
  apply Qle_shift_div_r; [apply pow2_pos | exact Hle].
Qed.

Lemma round_ge_dyadic (p em : Z) (x : Q) (n j : Z) :
  (0 < x)%Q -> (inject_Z n * 2 ^ j <= x)%Q -> Float.ulp_exp p em x <= j ->
  (inject_Z n * 2 ^ j <= Float.round p em x)%Q.
Proof.
  intros Hx Hle Hk. rewrite (round_pos _ _ _ Hx).
  set (k := Float.ulp_exp p em x) in *.
  assert (E : (inject_Z n * 2 ^ j == inject_Z (n * 2 ^ (j - k)) * 2 ^ k)%Q).
  { rewrite inject_Z_mult, <- (pow2_inject (j - k)) by lia.
    rewrite <- Qmult_assoc, <- Qpower_plus by exact two_neq0.
    replace (j - k + k) with j by lia. reflexivity. }
  rewrite E in *.
  apply Qmult_le_compat_r; [| apply Qlt_le_weak, pow2_pos].
  rewrite <- Zle_Qle. apply rne_ge_int.
  apply Qle_shift_div_l; [apply pow2_pos | exact Hle].
Qed.

Lemma round_nonneg (p em : Z) (x : Q) : (0 <= x)%Q -> (0 <= Float.round p em x)%Q.
Proof.
  intros H. destruct (Qcompare_spec x 0) as [E | E | E].
  - rewrite (round_zero _ _ _ E). apply Qle_refl.
  - lra.
  - rewrite (round_pos _ _ _ E).
    apply Qmult_le_0_compat; [| apply Qlt_le_weak, pow2_pos].
    change 0%Q with (inject_Z 0). rewrite <- Zle_Qle. apply rne_ge_int.
    apply Qle_shift_div_l; [apply pow2_pos |]. change (inject_Z 0) with 0%Q. lra.
Qed.

(** Rounding moves a value by at most half a unit in the last place. *)
Lemma round_error (p em : Z) (x : Q) :
  (0 < x)%Q ->
  (x - 2 ^ Float.ulp_exp p em x * (1 # 2) <= Float.round p em x)%Q /\
  (Float.round p em x <= x + 2 ^ Float.ulp_exp p em x * (1 # 2))%Q.
Proof.
  intros Hx. rewrite (round_pos _ _ _ Hx).
  set (k := Float.ulp_exp p em x).
  pose proof (pow2_pos k) as HP. pose proof (pow2_neq0 k) as HN.
  destruct (rne_error (x / 2 ^ k)) as [Hl Hu].
  set (r := inject_Z (Float.rne (x / 2 ^ k))) in *.
  split.
  - setoid_replace (x - 2 ^ k * (1 # 2))%Q with ((x / 2 ^ k - (1 # 2)) * 2 ^ k)%Q
      using relation Qeq by (field; exact HN).
    apply Qmult_le_compat_r; [exact Hl | lra].
  - setoid_replace (x + 2 ^ k * (1 # 2))%Q with ((x / 2 ^ k + (1 # 2)) * 2 ^ k)%Q
      using relation Qeq by (field; exact HN).
    apply Qmult_le_compat_r; [exact Hu | lra].
Qed.

(** In the normal range the relative error is at most [2 ^ - p]. *)
Lemma round_relative (p em : Z) (x : Q) :
  (0 < x)%Q -> em <= Float.ilog2 x - p + 1 ->
  (x * (1 - 2 ^ (- p)) <= Float.round p em x)%Q /\
  (Float.round p em x <= x * (1 + 2 ^ (- p)))%Q.
Proof.
  intros Hx Hn. destruct (round_error p em x Hx) as [Hl Hu].
  unfold Float.ulp_exp in Hl, Hu. rewrite Z.max_l in Hl, Hu by exact Hn.
  assert (E : (2 ^ (Float.ilog2 x - p + 1) * (1 # 2) == 2 ^ Float.ilog2 x * 2 ^ (- p))%Q).
  { replace (Float.ilog2 x - p + 1) with (Float.ilog2 x + (- p) + 1) by lia.
    rewrite !Qpower_plus by exact two_neq0. change (2 ^ 1)%Q with 2%Q. ring. }
  rewrite E in Hl, Hu.
  assert (B : (2 ^ Float.ilog2 x * 2 ^ (- p) <= x * 2 ^ (- p))%Q).
  { apply Qmult_le_compat_r; [apply ilog2_spec; exact Hx | apply Qlt_le_weak, pow2_pos]. }
  split; lra.
Qed.

(** Integers below [2 ^ p] are floating-point numbers. *)
Lemma round_int (p em : Z) (n : Z) :
  0 <= n < 2 ^ p -> em <= 0 -> 0 <= p ->
  (Float.round p em (inject_Z n) == inject_Z n)%Q.
Proof.
  intros [H0 Hn] Hem Hp.
  destruct (Z.eq_dec n 0) as [-> | Hnz]; [rewrite round_zero; reflexivity |].
  assert (Hx : (0 < inject_Z n)%Q) by (change 0%Q with (inject_Z 0); rewrite <- Zlt_Qlt; lia).
  assert (Hk : Float.ulp_exp p em (inject_Z n) <= 0).
  { unfold Float.ulp_exp.
    assert (Float.ilog2 (inject_Z n) < p); [| lia].
    apply ilog2_lt; [exact Hx |]. rewrite pow2_inject by exact Hp.
    rewrite <- Zlt_Qlt. exact Hn. }
  assert (E : (inject_Z n == inject_Z n * 2 ^ 0)%Q) by (change (2 ^ 0)%Q with 1%Q; ring).
  apply Qle_antisym.
  - rewrite E at 2. apply round_le_dyadic; [exact Hx | rewrite <- E; apply Qle_refl | exact Hk].
  - rewrite E at 1. apply round_ge_dyadic; [exact Hx | rewrite <- E; apply Qle_refl | exact Hk].
Qed.

(** Rounding a floating-point number gives it back. *)
Lemma round_round (p em : Z) (x : Q) :
  1 <= p -> (0 <= x)%Q ->
  (Float.round p em (Float.round p em x) == Float.round p em x)%Q.
Proof.
  intros Hp H0. destruct (Qcompare_spec x 0) as [E | E | Hx]; [| lra |].
  { rewrite (round_zero _ _ _ E). rewrite round_zero; reflexivity. }
  set (k := Float.ulp_exp p em x).
  set (m := Float.rne (x / 2 ^ k)).
  assert (Ey : (Float.round p em x == inject_Z m * 2 ^ k)%Q) by apply (round_pos _ _ _ Hx).
  assert (Hkp : Float.ilog2 x + 1 <= k + p) by (unfold k, Float.ulp_exp; lia).
  assert (Hem : em <= k) by (unfold k, Float.ulp_exp; lia).
  assert (Hm : m <= 2 ^ (k + p - k)).
  { apply rne_le_int. apply Qle_shift_div_r; [apply pow2_pos |].
    replace (k + p - k) with p by lia. rewrite <- pow2_inject by lia.
    rewrite <- Qpower_plus by exact two_neq0.
    apply Qle_trans with (2 ^ (Float.ilog2 x + 1))%Q.
    - apply Qlt_le_weak. apply ilog2_spec. exact Hx.
    - apply pow2_le. lia. }
  replace (k + p - k) with p in Hm by lia.
  destruct (Qcompare_spec (Float.round p em x) 0) as [E | E | Hy].
  - rewrite (round_zero _ _ _ E). symmetry. exact E.
  - pose proof (round_nonneg p em x H0). lra.
  - destruct (Z.eq_dec m (2 ^ p)) as [Em | Nm].
    + assert (Ey' : (Float.round p em x == inject_Z 1 * 2 ^ (p + k))%Q).
      { rewrite Ey, Em, <- pow2_inject by lia.
        rewrite Qpower_plus by exact two_neq0. change (inject_Z 1) with 1%Q. ring. }
      assert (Hk' : Float.ulp_exp p em (Float.round p em x) <= p + k).
      { unfold Float.ulp_exp.
        assert (Float.ilog2 (Float.round p em x) < p + k + 1); [| lia].
        apply ilog2_lt; [exact Hy |]. rewrite Ey'.
        change (inject_Z 1) with 1%Q. rewrite Qmult_1_l.
        apply Qpower_lt_compat_l; [lia | reflexivity]. }
      apply Qle_antisym.
      * rewrite Ey' at 2. apply round_le_dyadic; [exact Hy | rewrite <- Ey'; apply Qle_refl | exact Hk'].
      * rewrite Ey' at 1. apply round_ge_dyadic; [exact Hy | rewrite <- Ey'; apply Qle_refl | exact Hk'].
    + assert (Hk' : Float.ulp_exp p em (Float.round p em x) <= k).
      { unfold Float.ulp_exp.
        assert (Float.ilog2 (Float.round p em x) < k + p); [| lia].
        apply ilog2_lt; [exact Hy |]. rewrite Ey.
        rewrite Qpower_plus by exact two_neq0. rewrite (Qmult_comm (2 ^ k)).
        apply Qmult_lt_compat_r; [apply pow2_pos |].
        rewrite pow2_inject by lia. rewrite <- Zlt_Qlt. lia. }
      apply Qle_antisym.
      * rewrite Ey at 2. apply round_le_dyadic; [exact Hy | rewrite <- Ey; apply Qle_refl | exact Hk'].
      * rewrite Ey at 1. apply round_ge_dyadic; [exact Hy | rewrite <- Ey; apply Qle_refl | exact Hk'].
Qed.

(** Rounding does not depend on the fraction that represents a value. *)

Lemma rne_comp (q q' : Q) : (q == q')%Q -> Float.rne q = Float.rne q'.
Proof.
  intros E. unfold Float.rne. rewrite (Qfloor_comp _ _ E).
  assert (E' : (q - inject_Z (Qfloor q') == q' - inject_Z (Qfloor q'))%Q) by (rewrite E; reflexivity).
  rewrite E'. reflexivity.
Qed.

Lemma ilog2_comp (x y : Q) : (0 < x)%Q -> (x == y)%Q -> Float.ilog2 x = Float.ilog2 y.
Proof.
  intros Hx E. assert (Hy : (0 < y)%Q) by (rewrite <- E; exact Hx).
  destruct (ilog2_spec x Hx) as [X1 X2]. destruct (ilog2_spec y Hy) as [Y1 Y2].
  assert (Float.ilog2 x < Float.ilog2 y + 1).
  { apply pow2_lt_inv. apply Qle_lt_trans with y; [| exact Y2].
    rewrite <- E. exact X1. }
  assert (Float.ilog2 y < Float.ilog2 x + 1).
  { apply pow2_lt_inv. apply Qle_lt_trans with y; [exact Y1 |].
    rewrite <- E. exact X2. }
  lia.
Qed.

Lemma round_comp (p em : Z) (x y : Q) :
  (x == y)%Q -> Float.round p em x = Float.round p em y.
Proof.
  intros E.
  assert (Ec : (y ?= 0)%Q = (x ?= 0)%Q) by (rewrite E; reflexivity).
  unfold Float.round. rewrite Ec.
  destruct (Qcompare_spec x 0) as [H | H | H]; [reflexivity | |]; cbv zeta.
  - assert (H' : (0 < - x)%Q) by lra.
    assert (E' : (- x == - y)%Q) by (rewrite E; reflexivity).
    unfold Float.ulp_exp. rewrite <- (ilog2_comp _ _ H' E').
    generalize (Z.max (Float.ilog2 (- x) - p + 1) em). intros k.
    apply Qred_complete.
    rewrite (rne_comp (- x / 2 ^ k) (- y / 2 ^ k)) by (rewrite E; reflexivity).
    reflexivity.
  - unfold Float.ulp_exp. rewrite <- (ilog2_comp _ _ H E).
    generalize (Z.max (Float.ilog2 x - p + 1) em). intros k.
    apply Qred_complete.
    rewrite (rne_comp (x / 2 ^ k) (y / 2 ^ k)) by (rewrite E; reflexivity).
    reflexivity.
Qed.

#[global] Instance round_proper (p em : Z) : Proper (Qeq ==> Qeq) (Float.round p em).
Proof. intros x y E. rewrite (round_comp p em x y E). reflexivity. Qed.

#[global] Instance fl64_proper : Proper (Qeq ==> Qeq) Float.fl64.
Proof. apply round_proper. Qed.

#[global] Instance fl32_proper : Proper (Qeq ==> Qeq) Float.fl32.
Proof. apply round_proper. Qed.

(** *** [round] against the standard library's specification of IEEE 754

    On the operations behind the examples of this file, [round] gives
    the number that the bit-level operations of [SpecFloat] give. *)

Lemma fl64_agrees_on_quotient :
  Float.SF2Q (SpecFloat.SFdiv 53 1024 (Float.of_Z64 1) (Float.of_Z64 49)) =
  Float.fl64 (inject_Z 1 / inject_Z 49).
Proof. vm_compute. reflexivity. Qed.

Lemma fl64_agrees_on_product :
  Float.SF2Q (SpecFloat.SFmul 53 1024 (Float.of_Z64 49)
                (SpecFloat.SFdiv 53 1024 (Float.of_Z64 1) (Float.of_Z64 49))) =
  Float.fl64 (Float.fl64 (inject_Z 49) * Float.fl64 (inject_Z 1 / inject_Z 49)).
Proof. vm_compute. reflexivity. Qed.

Lemma fl64_agrees_on_literal :
  Float.SF2Q (SpecFloat.SFdiv 53 1024 (Float.of_Z64 8) (Float.of_Z64 10)) =
  Float.fl64 (8 # 10).
Proof. vm_compute. reflexivity. Qed.

Lemma fl32_agrees_on_narrowing :
  Float.SF2Q (Float.narrow32
                (SpecFloat.SFdiv 53 1024 (Float.of_Z64 53) (Float.of_Z64 100))) =
  Float.fl32 (Float.fl64 (53 # 100)).
Proof. vm_compute. reflexivity. Qed.

Lemma fl32_agrees_on_product :
  Float.SF2Q (SpecFloat.SFmul 24 128
                (Float.narrow32
                   (SpecFloat.SFdiv 53 1024 (Float.of_Z64 53) (Float.of_Z64 100)))
                (Float.of_Z32 100)) =
  Float.fl32 (Float.fl32 (Float.fl64 (53 # 100)) * inject_Z 100).
Proof. vm_compute. reflexivity. Qed.

(** For every 8-bit alpha value, the blend at the factor 0.8. *)
Lemma fl32_agrees_on_alpha_scaling :
  forallb (fun n : nat =>
             Qeq_bool
               (Float.SF2Q (SpecFloat.SFmul 24 128
                  (Float.narrow32
                     (SpecFloat.SFdiv 53 1024 (Float.of_Z64 8) (Float.of_Z64 10)))
                  (Float.of_Z32 (Z.of_nat n))))
               (Float.fl32 (Float.fl32 (Float.fl64 (8 # 10)) * inject_Z (Z.of_nat n))))
          (seq 0 256) = true.
Proof. vm_compute. reflexivity. Qed.

(** ** Truncation to an integer *)

Lemma int_nonneg (q : Q) : (0 <= q)%Q -> Py.int q = Qfloor q.
Proof.
  destruct q as [n d]. unfold Qle, Py.int, Qfloor. simpl. intros H.
  apply Z.quot_div_nonneg; lia.
Qed.

(** [int] of a value between an integer and its successor. *)
Lemma int_between (q : Q) (m : Z) :
  0 <= m -> (inject_Z m <= q)%Q -> (q < inject_Z m + 1)%Q -> Py.int q = m.
Proof.
  intros Hm Hl Hu.
  assert (H0 : (0 <= q)%Q).
  { apply Qle_trans with (inject_Z m); [| exact Hl].
    change 0%Q with (inject_Z 0). rewrite <- Zle_Qle. exact Hm. }
  rewrite (int_nonneg _ H0).
  assert (A : m <= Qfloor q).
  { rewrite <- (Qfloor_Z m). apply Qfloor_resp_le. exact Hl. }
  assert (B : Qfloor q < m + 1).
  { rewrite Zlt_Qlt. apply Qle_lt_trans with q; [apply Qfloor_le |].
    rewrite inject_Z_plus. exact Hu. }
  lia.
Qed.

Lemma int_comp (q q' : Q) : (0 <= q)%Q -> (q == q')%Q -> Py.int q = Py.int q'.
Proof.
  intros H E. rewrite !int_nonneg by (try rewrite <- E; exact H).
  apply Qfloor_comp. exact E.
Qed.

Lemma inject_Z_nonneg (a : Z) : 0 <= a -> (0 <= inject_Z a)%Q.
Proof. intros H. unfold Qle. simpl. lia. Qed.

Lemma inject_Z_pos (a : Z) : 0 < a -> (0 < inject_Z a)%Q.
Proof. intros H. unfold Qlt. simpl. lia. Qed.

(** *** binary32: the factor of [ImagingBlend] *)

Lemma ulp_exp_le (p em : Z) (x : Q) (m j : Z) :
  (0 < x)%Q -> (x < 2 ^ m)%Q -> m - p <= j -> em <= j -> Float.ulp_exp p em x <= j.
Proof.
  intros Hx Hm Hj He. unfold Float.ulp_exp.
  pose proof (ilog2_lt x m Hx Hm). lia.
Qed.

(** Rounding to binary32 does not cross an integer below [2 ^ 24]. *)
Lemma fl32_le_int (x : Q) (n : Z) :
  (0 <= x)%Q -> (x <= inject_Z n)%Q -> n < 2 ^ 24 -> (Float.fl32 x <= inject_Z n)%Q.
Proof.
  intros H0 Hle Hn. unfold Float.fl32.
  destruct (Qcompare_spec x 0) as [E | E | Hx]; [| lra |].
  { rewrite (round_zero _ _ _ E). lra. }
  assert (E : (inject_Z n == inject_Z n * 2 ^ 0)%Q) by (change (2 ^ 0)%Q with 1%Q; ring).
  rewrite E. apply round_le_dyadic; [exact Hx | rewrite <- E; exact Hle |].
  apply (ulp_exp_le _ _ _ 24); [exact Hx | | lia | lia].
  apply Qle_lt_trans with (inject_Z n); [exact Hle |].
  rewrite (pow2_inject 24) by lia. rewrite <- Zlt_Qlt. exact Hn.
Qed.

(** The alpha value that the blend with black leaves: never above the
    value it had. *)
Lemma scaled_alpha_le (a : Z) (f : Q) :
  0 <= a <= 255 -> (0 <= f)%Q -> (f <= 1)%Q ->
  0 <= Py.int (Float.fl32 (Float.fl32 f * inject_Z a)) <= a.
Proof.
  intros [Ha0 Ha1] H0 H1.
  pose proof (round_nonneg 24 (-149) f H0) as F0. fold Float.fl32 in F0.
  pose proof (fl32_le_int f 1 H0 H1 ltac:(reflexivity)) as F1.
  change (inject_Z 1) with 1%Q in F1.
  pose proof (inject_Z_nonneg a Ha0) as Qa.
  assert (P0 : (0 <= Float.fl32 f * inject_Z a)%Q) by (apply Qmult_le_0_compat; assumption).
  assert (P1 : (Float.fl32 f * inject_Z a <= inject_Z a)%Q).
  { rewrite <- (Qmult_1_l (inject_Z a)) at 2. apply Qmult_le_compat_r; assumption. }
  pose proof (round_nonneg 24 (-149) _ P0) as R0. fold Float.fl32 in R0.
  pose proof (fl32_le_int _ a P0 P1 ltac:(lia)) as R1.
  rewrite (int_nonneg _ R0). split.
  - rewrite <- (Qfloor_Z 0). apply Qfloor_resp_le. exact R0.
  - rewrite <- (Qfloor_Z a) at 2. apply Qfloor_resp_le. exact R1.
Qed.

(** *** binary64: the products of [resize_proportional] *)

Lemma fl64_int (n : Z) : 0 <= n < 2 ^ 53 -> (Float.fl64 (inject_Z n) == inject_Z n)%Q.
Proof. intros H. apply round_int; [exact H | lia | lia]. Qed.

Lemma half_dyadic (t : Z) : (inject_Z t + (1 # 2) == inject_Z (2 * t + 1) * 2 ^ (-1))%Q.
Proof. unfold Qeq, Qplus, Qmult, inject_Z. simpl. lia. Qed.

Lemma half_dyadic' (t : Z) : (inject_Z t - (1 # 2) == inject_Z (2 * t - 1) * 2 ^ (-1))%Q.
Proof. unfold Qeq, Qminus, Qplus, Qmult, inject_Z. simpl. lia. Qed.

(** The quotient of two sizes, rounded, is within [2 ^ -53] of the
    quotient. *)
Lemma fl64_quotient (t w : Z) :
  0 < t < 2 ^ 31 -> 0 < w < 2 ^ 31 ->
  let q := (inject_Z t / inject_Z w)%Q in
  (q * (1 - 2 ^ (-53)) <= Float.fl64 q)%Q /\ (Float.fl64 q <= q * (1 + 2 ^ (-53)))%Q.
Proof.
  intros Ht Hw q.
  assert (Hq : (0 < q)%Q).
  { unfold q. apply Qlt_shift_div_l; [apply inject_Z_pos; lia |].
    rewrite Qmult_0_l. apply inject_Z_pos. lia. }
  apply (round_relative 53 (-1074) q Hq).
  assert (-31 <= Float.ilog2 q); [| lia].
  apply ilog2_ge; [exact Hq |].
  unfold q. apply Qle_shift_div_l; [apply inject_Z_pos; lia |].
  apply Qle_trans with 1%Q.
  - change (2 ^ (-31))%Q with (1 # 2147483648)%Q.
    unfold Qle, Qmult, inject_Z. simpl. lia.
  - change 1%Q with (inject_Z 1). rewrite <- Zle_Qle. lia.
Qed.

Lemma int_range (q : Q) (t : Z) :
  (0 <= q)%Q -> (q < inject_Z t + 1)%Q -> 0 <= Py.int q <= t.
Proof.
  intros H0 Hu. rewrite (int_nonneg _ H0). split.
  - rewrite <- (Qfloor_Z 0). apply Qfloor_resp_le. exact H0.
  - assert (Qfloor q < t + 1); [| lia].
    rewrite Zlt_Qlt. apply Qle_lt_trans with q; [apply Qfloor_le |].
    rewrite inject_Z_plus. exact Hu.
Qed.

Lemma size_lt_pow2 (n : Z) : n < 2 ^ 31 -> (inject_Z n < 2 ^ 31)%Q.
Proof. intros H. rewrite (pow2_inject 31) by lia. rewrite <- Zlt_Qlt. exact H. Qed.

Lemma eps53 : (2 ^ (-53) == 1 # 9007199254740992)%Q.
Proof. reflexivity. Qed.

(** A side of the resized image never exceeds the target size. *)
Lemma scaled_dim_le (t w : Z) (ratio : Q) :
  0 <= t < 2 ^ 31 -> 0 < w < 2 ^ 31 ->
  (0 <= ratio)%Q -> (ratio <= Float.fl64 (inject_Z t / inject_Z w))%Q ->
  0 <= Py.int (Float.fl64 (Float.fl64 (inject_Z w) * ratio)) <= t.
Proof.
  intros Ht Hw R0 R1.
  pose proof (inject_Z_pos w ltac:(lia)) as Qw.
  pose proof (size_lt_pow2 w ltac:(lia)) as Qw'.
  pose proof (size_lt_pow2 t ltac:(lia)) as Qt'.
  pose proof (inject_Z_nonneg t ltac:(lia)) as Qt.
  change (2 ^ 31)%Q with 2147483648%Q in Qw', Qt'.
  assert (Ew : (Float.fl64 (inject_Z w) == inject_Z w)%Q) by (apply fl64_int; lia).
  rewrite (round_comp 53 (-1074) _ (inject_Z w * ratio)) by (rewrite Ew; reflexivity).
  fold Float.fl64.
  assert (X0 : (0 <= inject_Z w * ratio)%Q) by (apply Qmult_le_0_compat; lra).
  assert (X1 : (inject_Z w * ratio <= inject_Z t + (1 # 2))%Q).
  { destruct (Z.eq_dec t 0) as [-> | Hnz].
    - assert (E : (inject_Z 0 / inject_Z w == 0)%Q) by (unfold Qdiv; ring).
      unfold Float.fl64 in R1. rewrite (round_zero _ _ _ E) in R1.
      assert (E0 : (ratio == 0)%Q) by lra. rewrite E0. change (inject_Z 0) with 0%Q. lra.
    - destruct (fl64_quotient t w ltac:(lia) ltac:(lia)) as [_ Hq].
      cbv zeta in Hq. rewrite eps53 in Hq.
      set (q := (inject_Z t / inject_Z w)%Q) in *.
      assert (Eq : (inject_Z w * q == inject_Z t)%Q).
      { unfold q. apply Qmult_div_r. lra. }
      apply Qle_trans with (inject_Z w * (q * (1 + (1 # 9007199254740992))))%Q.
      + apply Qmult_le_l; [exact Qw | lra].
      + rewrite Qmult_assoc, Eq. lra. }
  apply int_range; [apply round_nonneg; exact X0 |].
  destruct (Qcompare_spec (inject_Z w * ratio) 0) as [E | E | Hx]; [| lra |].
  { unfold Float.fl64. rewrite (round_zero _ _ _ E). lra. }
  apply Qle_lt_trans with (inject_Z t + (1 # 2))%Q; [| lra].
  rewrite half_dyadic in *. unfold Float.fl64.
  apply round_le_dyadic; [exact Hx | exact X1 |].
  apply (ulp_exp_le _ _ _ 32); [exact Hx | | lia | lia].
  rewrite <- half_dyadic in X1. change (2 ^ 32)%Q with 4294967296%Q. lra.
Qed.

(** The side that decides the ratio comes out as the target size or one
    pixel below it. *)
Lemma scaled_dim_ge (t w : Z) :
  0 < t < 2 ^ 31 -> 0 < w < 2 ^ 31 ->
  t - 1 <= Py.int (Float.fl64 (Float.fl64 (inject_Z w) *
                               Float.fl64 (inject_Z t / inject_Z w))).
Proof.
  intros Ht Hw.
  pose proof (inject_Z_pos w ltac:(lia)) as Qw.
  pose proof (size_lt_pow2 t ltac:(lia)) as Qt'.
  pose proof (inject_Z_pos t ltac:(lia)) as Qt.
  change (2 ^ 31)%Q with 2147483648%Q in Qt'.
  assert (Ew : (Float.fl64 (inject_Z w) == inject_Z w)%Q) by (apply fl64_int; lia).
  set (q := (inject_Z t / inject_Z w)%Q).
  rewrite (round_comp 53 (-1074) _ (inject_Z w * Float.fl64 q)) by (rewrite Ew; reflexivity).
  fold Float.fl64.
  destruct (fl64_quotient t w ltac:(lia) ltac:(lia)) as [Hl Hu].
  cbv zeta in Hl, Hu. fold q in Hl, Hu. rewrite eps53 in Hl, Hu.
  assert (Eq : (inject_Z w * q == inject_Z t)%Q).
  { unfold q. apply Qmult_div_r. lra. }
  assert (X1 : (inject_Z t - (1 # 2) <= inject_Z w * Float.fl64 q)%Q).
  { apply Qle_trans with (inject_Z w * (q * (1 - (1 # 9007199254740992))))%Q.
    - rewrite Qmult_assoc, Eq. lra.
    - apply Qmult_le_l; [exact Qw | exact Hl]. }
  assert (X2 : (inject_Z w * Float.fl64 q <= inject_Z t + (1 # 2))%Q).
  { apply Qle_trans with (inject_Z w * (q * (1 + (1 # 9007199254740992))))%Q.
    - apply Qmult_le_l; [exact Qw | exact Hu].
    - rewrite Qmult_assoc, Eq. lra. }
  assert (Hx : (0 < inject_Z w * Float.fl64 q)%Q).
  { assert (inject_Z 1 <= inject_Z t)%Q by (rewrite <- Zle_Qle; lia).
    change (inject_Z 1) with 1%Q in *. lra. }
  assert (V : (inject_Z t - (1 # 2) <= Float.fl64 (inject_Z w * Float.fl64 q))%Q).
  { rewrite half_dyadic' in *. unfold Float.fl64 at 1.
    apply round_ge_dyadic; [exact Hx | exact X1 |].
    apply (ulp_exp_le _ _ _ 32); [exact Hx | | lia | lia].
    change (2 ^ 32)%Q with 4294967296%Q. lra. }
  rewrite int_nonneg.
  - rewrite <- (Qfloor_Z (t - 1)). apply Qfloor_resp_le.
    assert (E1 : (inject_Z (t - 1) == inject_Z t - 1)%Q)
      by (unfold Qeq, Qminus, Qplus, Qopp, inject_Z; simpl; lia).
    rewrite E1.
    apply Qle_trans with (inject_Z t - (1 # 2))%Q; [lra | exact V].
  - apply round_nonneg. lra.
Qed.

(** *** binary64: the products with the literals [0.8] and [0.20] *)

(** The truncated product of a size and a literal below 1 is the same in
    binary64 as over the rationals, when the literal's rounding error is
    small against the distance of the product from the next integer. *)
Lemma scaled_by_literal (n m : Z) (c : Q) :
  0 < n < 2 ^ 31 -> 0 <= m -> (0 < c)%Q -> (c <= 1)%Q ->
  (inject_Z m <= inject_Z n * c)%Q ->
  (inject_Z n * c <= inject_Z (16 * m + 15) * 2 ^ (-4))%Q ->
  Py.int (Float.fl64 (Float.fl64 (inject_Z n) * c)) = m.
Proof.
  intros Hn Hm C0 C1 Hl Hu.
  pose proof (inject_Z_pos n ltac:(lia)) as Qn.
  pose proof (size_lt_pow2 n ltac:(lia)) as Qn'.
  change (2 ^ 31)%Q with 2147483648%Q in Qn'.
  assert (En : (Float.fl64 (inject_Z n) == inject_Z n)%Q) by (apply fl64_int; lia).
  rewrite (round_comp 53 (-1074) _ (inject_Z n * c)) by (rewrite En; reflexivity).
  assert (Hx : (0 < inject_Z n * c)%Q).
  { apply Qmult_lt_0_compat; assumption. }
  assert (Hx' : (inject_Z n * c < 2 ^ 32)%Q).
  { change (2 ^ 32)%Q with 4294967296%Q.
    apply Qle_lt_trans with (inject_Z n * 1)%Q; [| lra].
    apply Qmult_le_l; [exact Qn | exact C1]. }
  apply int_between; [exact Hm | |].
  - assert (E : (inject_Z m == inject_Z m * 2 ^ 0)%Q) by (change (2 ^ 0)%Q with 1%Q; ring).
    rewrite E in *. apply round_ge_dyadic; [exact Hx | exact Hl |].
    apply (ulp_exp_le _ _ _ 32); [exact Hx | exact Hx' | lia | lia].
  - apply Qle_lt_trans with (inject_Z (16 * m + 15) * 2 ^ (-4))%Q.
    + apply round_le_dyadic; [exact Hx | exact Hu |].
      apply (ulp_exp_le _ _ _ 32); [exact Hx | exact Hx' | lia | lia].
    + rewrite inject_Z_plus, inject_Z_mult. change (2 ^ (-4))%Q with (1 # 16)%Q.
      change (inject_Z 16) with 16%Q. change (inject_Z 15) with 15%Q. lra.
Qed.

(** [int(tile_width * 0.8)] in binary64 is the truncated rational
    product, for every size that a Pillow image can have. *)
Lemma spacing_binary64 (n : Z) :
  0 <= n < 2 ^ 31 ->
  Py.int (Float.fl64 (Float.fl64 (inject_Z n) * Float.fl64 (8 # 10))) =
  Py.int (inject_Z n * (8 # 10)).
Proof.
  intros Hn.
  assert (R : Py.int (inject_Z n * (8 # 10)) = n * 8 / 10).
  { unfold Py.int, Qmult, inject_Z, Qnum, Qden. rewrite Pos.mul_1_l.
    apply Z.quot_div_nonneg; lia. }
  rewrite R.
  destruct (Z.eq_dec n 0) as [-> | Hnz]; [vm_compute; reflexivity |].
  assert (Ec : Float.fl64 (8 # 10) = (3602879701896397 # 4503599627370496)%Q)
    by (vm_compute; reflexivity).
  rewrite Ec.
  apply scaled_by_literal; [lia | | reflexivity | discriminate | |].
  - apply Z.div_pos; lia.
  - unfold Qle, Qmult, inject_Z, Qnum, Qden. rewrite !Pos.mul_1_l, Z.mul_1_r.
    Z.div_mod_to_equations. lia.
  - change (2 ^ (-4))%Q with (1 # 16)%Q.
    unfold Qle, Qmult, inject_Z, Qnum, Qden. rewrite !Pos.mul_1_l.
    Z.div_mod_to_equations. lia.
Qed.

(** [int(base_size * 0.20)] likewise. *)
Lemma watermark_size_binary64 (n : Z) :
  0 <= n < 2 ^ 31 ->
  Py.int (Float.fl64 (Float.fl64 (inject_Z n) * Float.fl64 (20 # 100))) =
  Py.int (inject_Z n * (20 # 100)).
Proof.
  intros Hn.
  assert (R : Py.int (inject_Z n * (20 # 100)) = n * 20 / 100).
  { unfold Py.int, Qmult, inject_Z, Qnum, Qden. rewrite Pos.mul_1_l.
    apply Z.quot_div_nonneg; lia. }
  rewrite R.
  destruct (Z.eq_dec n 0) as [-> | Hnz]; [vm_compute; reflexivity |].
  assert (Ec : Float.fl64 (20 # 100) = (3602879701896397 # 18014398509481984)%Q)
    by (vm_compute; reflexivity).
  rewrite Ec.
  apply scaled_by_literal; [lia | | reflexivity | discriminate | |].
  - apply Z.div_pos; lia.
  - unfold Qle, Qmult, inject_Z, Qnum, Qden. rewrite !Pos.mul_1_l, Z.mul_1_r.
    Z.div_mod_to_equations. lia.
  - change (2 ^ (-4))%Q with (1 # 16)%Q.
    unfold Qle, Qmult, inject_Z, Qnum, Qden. rewrite !Pos.mul_1_l.
    Z.div_mod_to_equations. lia.
Qed.

(** ** Arithmetic of the Python and Pillow primitives *)

Lemma int_scaled (n a : Z) (b : positive) :
  0 <= n -> 0 <= a ->
  Py.int (inject_Z n * (a # b)) = n * a / Z.pos b.
Proof.
  intros Hn Ha. unfold Py.int, Qmult, inject_Z, Qnum, Qden.
  rewrite Pos.mul_1_l.
  apply Z.quot_div_nonneg; lia.
Qed.

Lemma shift_div255_eq (a : Z) : PIL.shift_div255 a = (a / 256 + a) / 256.
Proof.
  unfold PIL.shift_div255. rewrite !Z.shiftr_div_pow2 by lia. reflexivity.
Qed.

Lemma shift_div255_bounds (a : Z) :
  0 <= a <= 255 * 255 + 128 -> u8 (PIL.shift_div255 a).
Proof.
  intros H. rewrite shift_div255_eq. unfold u8.
  Z.div_mod_to_equations. lia.
Qed.

Lemma shift_div255_lower (a d : Z) :
  0 <= d <= 255 -> 255 * d + 128 <= a -> d <= PIL.shift_div255 a.
Proof.
  intros Hd Ha. rewrite shift_div255_eq.
  Z.div_mod_to_equations. lia.
Qed.

Lemma BLEND_u8 (m o i : Z) : u8 m -> u8 o -> u8 i -> u8 (PIL.BLEND m o i).
Proof.
  unfold u8, PIL.BLEND, PIL.div255. intros Hm Ho Hi.
  apply shift_div255_bounds. nia.
Qed.

(** ** Opacity Adjuster *)

Lemma fl32_comp (x y : Q) : (x == y)%Q -> Float.fl32 x = Float.fl32 y.
Proof. apply round_comp. Qed.

Lemma fl64_comp (x y : Q) : (x == y)%Q -> Float.fl64 x = Float.fl64 y.
Proof. apply round_comp. Qed.

Lemma int_inject (a : Z) : Py.int (inject_Z a) = a.
Proof. unfold Py.int. simpl. apply Z.quot_1_r. Qed.

Lemma fl32_unit (f : Q) :
  (0 <= f)%Q -> (f <= 1)%Q -> (0 <= Float.fl32 f)%Q /\ (Float.fl32 f <= 1)%Q.
Proof.
  intros H0 H1. split.
  - apply round_nonneg. exact H0.
  - apply (fl32_le_int f 1 H0 H1). reflexivity.
Qed.

(** The literal [0.8] reaches the blend as the same binary32 number
    whether it is narrowed from 8/10 or from the binary64 number next
    to 8/10. *)
Lemma opacity_literal_binary32 :
  Float.fl32 (Float.fl64 WATERMARK_OPACITY) = Float.fl32 WATERMARK_OPACITY.
Proof. vm_compute. reflexivity. Qed.

(** The blend of black with an alpha value: the single-precision
    product of the factor and the value, truncated. *)
Lemma blend_black (a : Z) (f : Q) :
  0 <= a <= 255 -> (0 <= f)%Q -> (f <= 1)%Q ->
  PIL.blend_value 0 a f = Py.int (Float.fl32 (Float.fl32 f * inject_Z a)).
Proof.
  intros Ha H0 H1. destruct (fl32_unit f H0 H1) as [F0 F1].
  pose proof (inject_Z_nonneg a (proj1 Ha)) as Qa.
  unfold PIL.blend_value. cbv zeta.
  destruct (Qeq_bool (Float.fl32 f) 0) eqn:E0.
  - apply Qeq_bool_eq in E0.
    rewrite (fl32_comp (Float.fl32 f * inject_Z a) 0) by (rewrite E0; ring).
    reflexivity.
  - destruct (Qeq_bool (Float.fl32 f) 1) eqn:E1.
    + apply Qeq_bool_eq in E1.
      rewrite (fl32_comp (Float.fl32 f * inject_Z a) (inject_Z a)) by (rewrite E1; ring).
      rewrite (int_comp _ (inject_Z a)).
      * symmetry. apply int_inject.
      * apply round_nonneg. exact Qa.
      * apply round_int; lia.
    + apply Qle_bool_iff in F0 as B0. apply Qle_bool_iff in F1 as B1.
      rewrite B0, B1. simpl andb. cbv iota. rewrite Z.sub_0_r.
      assert (P0 : (0 <= Float.fl32 f * inject_Z a)%Q)
        by (apply Qmult_le_0_compat; assumption).
      rewrite (fl32_comp (inject_Z 0 + Float.fl32 (Float.fl32 f * inject_Z a))
                 (Float.fl32 (Float.fl32 f * inject_Z a)))
        by (change (inject_Z 0) with 0%Q; ring).
      apply int_comp.
      * apply round_nonneg. apply round_nonneg. exact P0.
      * apply round_round; [lia | exact P0].
Qed.

(** The single-precision product stays within [2 ^ -15] of the product
    of the factor and the alpha value. *)
Lemma scaled_alpha_near (a : Z) (f : Q) :
  0 <= a <= 255 -> (0 <= f)%Q -> (f <= 1)%Q ->
  (f * inject_Z a - (1 # 32768) <= Float.fl32 (Float.fl32 f * inject_Z a))%Q /\
  (Float.fl32 (Float.fl32 f * inject_Z a) <= f * inject_Z a + (1 # 32768))%Q.
Proof.
  intros [Ha0 Ha1] H0 H1.
  pose proof (inject_Z_nonneg a Ha0) as Qa.
  assert (Qa' : (inject_Z a <= 255)%Q).
  { change 255%Q with (inject_Z 255). rewrite <- Zle_Qle. exact Ha1. }
  destruct (fl32_unit f H0 H1) as [F0 F1].
  (* the factor, narrowed *)
  assert (S1 : (f - (1 # 16777216) <= Float.fl32 f)%Q /\
               (Float.fl32 f <= f + (1 # 16777216))%Q).
  { destruct (Qcompare_spec f 0) as [E | E | Hf]; [| lra |].
    { rewrite (fl32_comp f 0 E). change (Float.fl32 0) with 0%Q. lra. }
    destruct (round_error 24 (-149) f Hf) as [Hl Hu]. fold Float.fl32 in Hl, Hu.
    assert (Hk : Float.ulp_exp 24 (-149) f <= -23).
    { apply (ulp_exp_le _ _ _ 1); [exact Hf | | lia | lia].
      change (2 ^ 1)%Q with 2%Q. lra. }
    pose proof (pow2_le _ _ Hk) as Hp. change (2 ^ (-23))%Q with (1 # 8388608)%Q in Hp.
    split; lra. }
  set (g := Float.fl32 f) in *.
  assert (P0 : (0 <= g * inject_Z a)%Q) by (apply Qmult_le_0_compat; assumption).
  assert (P1 : (g * inject_Z a <= 255)%Q).
  { apply Qle_trans with (1 * inject_Z a)%Q; [| lra].
    apply Qmult_le_compat_r; assumption. }
  assert (S2 : (f * inject_Z a - (255 # 16777216) <= g * inject_Z a)%Q /\
               (g * inject_Z a <= f * inject_Z a + (255 # 16777216))%Q).
  { destruct S1 as [Sl Su].
    pose proof (Qmult_le_compat_r _ _ (inject_Z a) Sl Qa) as Ml.
    pose proof (Qmult_le_compat_r _ _ (inject_Z a) Su Qa) as Mu.
    split; lra. }
  (* the product, rounded *)
  assert (S3 : (g * inject_Z a - (1 # 131072) <= Float.fl32 (g * inject_Z a))%Q /\
               (Float.fl32 (g * inject_Z a) <= g * inject_Z a + (1 # 131072))%Q).
  { destruct (Qcompare_spec (g * inject_Z a) 0) as [E | E | Hx]; [| lra |].
    { rewrite (fl32_comp _ 0 E). change (Float.fl32 0) with 0%Q. lra. }
    destruct (round_error 24 (-149) _ Hx) as [Hl Hu]. fold Float.fl32 in Hl, Hu.
    assert (Hk : Float.ulp_exp 24 (-149) (g * inject_Z a) <= -16).
    { apply (ulp_exp_le _ _ _ 8); [exact Hx | | lia | lia].
      change (2 ^ 8)%Q with 256%Q. lra. }
    pose proof (pow2_le _ _ Hk) as Hp. change (2 ^ (-16))%Q with (1 # 65536)%Q in Hp.
    split; lra. }
  split; lra.
Qed.

(** What [adjust_opacity] does below full opacity: the object the caller
    passed is overwritten and handed back. *)
Lemma adjust_opacity_run (h : heap) (r : ref) (img : image) (opacity : Q) :
  h !! r = Some img -> mode img = RGBA -> Qle_bool 1 opacity = false ->
  adjust_opacity r opacity h =
    (Ok r,
     <[r := {| mode := RGBA; width := width img; height := height img;
               getpixel := fun x y =>
                 PIL.with_alpha (getpixel img x y)
                   (PIL.blend_value 0 (pa (getpixel img x y)) opacity) |}]> h).
Proof.
  intros Hr Hm Hlt. unfold adjust_opacity. rewrite Hlt.
  unfold PIL.split_3, PIL.putalpha, update, modify.
  rewrite !bind_run, (deref_some _ _ _ Hr), Hm. simpl.
  rewrite !bind_run, (deref_some _ _ _ Hr). simpl.
  rewrite !Z.eqb_refl. simpl. reflexivity.
Qed.

(** C4: for an RGBA buffer with 8-bit channels and a factor in [0,1],
    [adjust_opacity] keeps the colour channels, the size and the mode;
    every alpha value becomes the integer part of the single-precision
    product of the factor, narrowed to single precision, and the alpha
    value.  That number is never above the alpha value it replaces, and
    it is the integer part of the exact product unless the exact product
    lies within [2 ^ -15] of an integer, when it can be the integer
    next to it.  A factor of at least 1 returns the input unchanged; a
    factor equal to 0 gives an alpha channel that is zero everywhere. *)
Theorem adjust_opacity_scales_alpha (h : heap) (r : ref) (img : image) (opacity : Q) :
  h !! r = Some img -> mode img = RGBA -> wf_image img -> (0 <= opacity)%Q ->
  exists h' out,
    adjust_opacity r opacity h = (Ok r, h') /\
    h' !! r = Some out /\
    mode out = RGBA /\ size out = size img /\
    (forall x y,
       pr (getpixel out x y) = pr (getpixel img x y) /\
       pg (getpixel out x y) = pg (getpixel img x y) /\
       pb (getpixel out x y) = pb (getpixel img x y)) /\
    ((opacity <= 1)%Q ->
     forall x y, in_bounds img x y ->
       let a := pa (getpixel img x y) in
       pa (getpixel out x y) =
         Py.int (Float.fl32 (Float.fl32 opacity * inject_Z a)) /\
       0 <= pa (getpixel out x y) <= a /\
       Qfloor (opacity * inject_Z a - (1 # 32768)) <= pa (getpixel out x y) /\
       pa (getpixel out x y) <= Qfloor (opacity * inject_Z a + (1 # 32768))) /\
    ((1 <= opacity)%Q -> h' = h /\ out = img) /\
    ((opacity == 0)%Q -> forall x y, in_bounds img x y -> pa (getpixel out x y) = 0).
Proof.
  intros Hr Hm (Hw & Hh & Hpx) H0.
  assert (Hval : (opacity <= 1)%Q -> forall a, 0 <= a <= 255 ->
            let v := Py.int (Float.fl32 (Float.fl32 opacity * inject_Z a)) in
            0 <= v <= a /\
            Qfloor (opacity * inject_Z a - (1 # 32768)) <= v /\
            v <= Qfloor (opacity * inject_Z a + (1 # 32768))).
  { intros H1 a Ha v. split; [apply scaled_alpha_le; assumption |].
    destruct (scaled_alpha_near a opacity Ha H0 H1) as [Nl Nu].
    unfold v. rewrite int_nonneg.
    - split; apply Qfloor_resp_le; assumption.
    - apply round_nonneg. apply Qmult_le_0_compat.
      + apply fl32_unit; assumption.
      + apply inject_Z_nonneg. apply Ha. }
  destruct (Qle_bool 1 opacity) eqn:E1.
  - (* the fast path *)
    apply Qle_bool_iff in E1.
    exists h, img. unfold adjust_opacity.
    rewrite (proj2 (Qle_bool_iff 1 opacity) E1).
    split; [reflexivity |]. split; [exact Hr |]. split; [exact Hm |].
    split; [reflexivity |]. split; [auto |].
    split; [| split; [auto |]].
    + intros H1 x y Hb. cbv zeta. set (a := pa (getpixel img x y)).
      assert (Ha : 0 <= a <= 255) by apply (Hpx x y Hb).
      assert (Hone : (opacity == 1)%Q) by (apply Qle_antisym; assumption).
      assert (Ev : Py.int (Float.fl32 (Float.fl32 opacity * inject_Z a)) = a).
      { rewrite (fl32_comp opacity 1 Hone). change (Float.fl32 1) with 1%Q.
        rewrite (fl32_comp (1 * inject_Z a) (inject_Z a)) by ring.
        rewrite (int_comp _ (inject_Z a)).
        - apply int_inject.
        - apply round_nonneg. apply inject_Z_nonneg. apply Ha.
        - apply round_int; lia. }
      pose proof (Hval H1 a Ha) as Hv. cbv zeta in Hv. rewrite Ev in Hv.
      split; [symmetry; exact Ev | exact Hv].
    + intros E. rewrite E in E1. unfold Qle in E1. simpl in E1. lia.
  - (* the alpha band is replaced *)
    assert (Hlt : ~ (1 <= opacity)%Q).
    { intros C. apply Qle_bool_iff in C. congruence. }
    eexists. eexists.
    split; [apply adjust_opacity_run; eassumption |].
    split; [apply list_lookup_insert_eq; eapply lookup_lt_Some; eassumption |].
    simpl.
    split; [reflexivity |]. split; [reflexivity |]. split; [auto |].
    split; [| split; [contradiction |]].
    + intros H1 x y Hb.
      assert (Ha : 0 <= pa (getpixel img x y) <= 255) by apply (Hpx x y Hb).
      rewrite (blend_black _ opacity Ha H0 H1).
      split; [reflexivity | apply (Hval H1 _ Ha)].
    + intros E x y Hb. unfold PIL.blend_value.
      rewrite (fl32_comp opacity 0 E). reflexivity.
Qed.

(** ** Loops *)

Lemma for_each_inv {S} (P : S -> Prop) (body : Z -> St S unit) (xs : list Z) :
  (forall x s res s', P s -> body x s = (res, s') -> P s') ->
  forall s res s', P s -> for_each xs body s = (res, s') -> P s'.
Proof.
  intros Hbody. induction xs as [| x xs IH]; intros s res s' Hs E.
  - inversion E; subst. exact Hs.
  - simpl in E. rewrite bind_run in E.
    destruct (body x s) as [[[] | e] s1] eqn:Eb.
    + eapply IH; [| exact E]. eapply Hbody; eassumption.
    + inversion E; subst. eapply Hbody; eassumption.
Qed.

Lemma for_each_total {S} (P : S -> Prop) (body : Z -> St S unit) (xs : list Z) :
  (forall x s, P s -> exists s', body x s = (Ok (), s') /\ P s') ->
  forall s, P s -> exists s', for_each xs body s = (Ok (), s') /\ P s'.
Proof.
  intros Hbody. induction xs as [| x xs IH]; intros s Hs.
  - exists s. split; [reflexivity | exact Hs].
  - destruct (Hbody x s Hs) as (s1 & E1 & H1).
    destruct (IH s1 H1) as (s2 & E2 & H2).
    exists s2. split; [| exact H2].
    simpl. rewrite (bind_ok _ _ _ _ _ E1). exact E2.
Qed.

Lemma lift_run {S A} (r : result A) (s : S) : lift r s = (r, s).
Proof. reflexivity. Qed.

(** The loop of [create_tiled_pattern] keeps every invariant that its
    [paste] call keeps, however the loop ends. *)
Lemma tiling_loop_inv {S} (P : S -> Prop) (W H tw th : Z)
    (act : Z -> Z -> St S unit) :
  (forall x y s res s', P s -> act x y s = (res, s') -> P s') ->
  forall s res s', P s -> tiling_loop W H tw th act s = (res, s') -> P s'.
Proof.
  intros Hact s res s' Hs. unfold tiling_loop.
  rewrite bind_run, lift_run.
  destruct (Py.range _ _ _) as [ys | e]; [| intros E; inversion E; subst; exact Hs].
  apply for_each_inv; [| exact Hs].
  clear s res s' Hs. intros y s res s' Hs.
  rewrite bind_run, lift_run.
  destruct (Py.range _ _ _) as [xs | e]; [| intros E; inversion E; subst; exact Hs].
  apply for_each_inv; [| exact Hs].
  clear s res s' Hs. intros x s res s' Hs.
  destruct ((x <? W) && (y <? H)).
  - apply Hact. exact Hs.
  - intros E. inversion E; subst. exact Hs.
Qed.

Lemma range_ok (start stop step : Z) :
  step <> 0 -> exists l, Py.range start stop step = Ok l.
Proof.
  intros Hs. unfold Py.range.
  destruct (step =? 0) eqn:E; [apply Z.eqb_eq in E; contradiction |].
  eexists. reflexivity.
Qed.

(** With non-zero spacings the loop runs to its end when each [paste]
    call returns. *)
Lemma tiling_loop_total {S} (P : S -> Prop) (W H tw th : Z)
    (act : Z -> Z -> St S unit) :
  Py.int (inject_Z tw * (8 # 10)) <> 0 ->
  Py.int (inject_Z th * (8 # 10)) <> 0 ->
  (forall x y s, P s -> exists s', act x y s = (Ok (), s') /\ P s') ->
  forall s, P s -> exists s', tiling_loop W H tw th act s = (Ok (), s') /\ P s'.
Proof.
  intros Hx Hy Hact s Hs. unfold tiling_loop.
  destruct (range_ok ((- th) / 2) (H + th) _ Hy) as [ys Eys].
  destruct (range_ok ((- tw) / 2) (W + tw) _ Hx) as [xs Exs].
  rewrite bind_run, lift_run, Eys.
  apply (for_each_total P); [| exact Hs].
  clear s Hs. intros y s Hs.
  rewrite bind_run, lift_run, Exs.
  apply (for_each_total P); [| exact Hs].
  clear s Hs. intros x s Hs.
  destruct ((x <? W) && (y <? H)).
  - apply Hact. exact Hs.
  - exists s. split; [reflexivity | exact Hs].
Qed.

Lemma spacing_value (n : Z) :
  0 <= n -> Py.int (inject_Z n * (8 # 10)) = n * 8 / 10.
Proof. intros H. apply int_scaled; lia. Qed.

Lemma spacing_zero (n : Z) :
  0 <= n <= 1 -> Py.int (inject_Z n * (8 # 10)) = 0.
Proof.
  intros H. rewrite spacing_value by lia.
  Z.div_mod_to_equations. lia.
Qed.

Lemma spacing_pos (n : Z) :
  2 <= n -> 0 < Py.int (inject_Z n * (8 # 10)).
Proof.
  intros H. rewrite spacing_value by lia.
  Z.div_mod_to_equations. lia.
Qed.

Lemma range_first (start stop step : Z) :
  0 < step -> start < stop ->
  exists l, Py.range start stop step = Ok (start :: l).
Proof.
  intros Hs Hlt. unfold Py.range, Py.range_len.
  destruct (step =? 0) eqn:E0; [apply Z.eqb_eq in E0; lia |].
  destruct (0 <? step) eqn:E1; [| apply Z.ltb_ge in E1; lia].
  destruct (start <? stop) eqn:E2; [| apply Z.ltb_ge in E2; lia].
  assert (Hq : 0 <= (stop - start - 1) / step) by (apply Z.div_pos; lia).
  destruct (Z.to_nat ((stop - start - 1) / step + 1)) as [| n] eqn:En; [lia |].
  simpl. rewrite Z.add_0_r. eexists. reflexivity.
Qed.

(** A tile one pixel wide or high (or empty) has a zero spacing, and the
    loop fails on the [range] with that step before any [paste]. *)
Lemma tiling_loop_fails {S} (W H tw th : Z) (act : Z -> Z -> St S unit) (s : S) :
  0 <= H -> 0 <= tw -> 0 <= th -> tw <= 1 \/ th <= 1 ->
  tiling_loop W H tw th act s = (Raise ValueError, s).
Proof.
  intros HH Htw Hth Hsmall. unfold tiling_loop.
  destruct (Z_le_gt_dec th 1) as [Hy | Hy].
  - rewrite (spacing_zero th) by lia. reflexivity.
  - assert (Hx : tw <= 1) by lia.
    destruct (range_first ((- th) / 2) (H + th) _ (spacing_pos th ltac:(lia)))
      as [ys Eys].
    { Z.div_mod_to_equations. lia. }
    rewrite bind_run, lift_run, Eys. simpl.
    rewrite (spacing_zero tw) by lia. reflexivity.
Qed.

(** ** Heap effects of the Pillow calls *)

Ltac inv_bind E :=
  let a := fresh "a" in
  let s := fresh "h" in
  let E1 := fresh "E" in
  apply bind_inv_ok in E as (a & s & E1 & E).

Tactic Notation "step_ok" hyp(E) "as" ident(a) ident(s) ident(E1) :=
  apply bind_inv_ok in E as (a & s & E1 & E).

Lemma alloc_lookup (h : heap) (img : image) : (h ++ [img]) !! length h = Some img.
Proof. apply list_lookup_middle. reflexivity. Qed.

Lemma alloc_keeps_lookup (h : heap) (img x : image) (r : ref) :
  h !! r = Some x -> (h ++ [img]) !! r = Some x.
Proof. intros E. apply lookup_app_l_Some. exact E. Qed.

Lemma insert_last (h : heap) (x y : image) :
  <[length h := y]> (h ++ [x]) = h ++ [y].
Proof.
  rewrite insert_app_r_alt by lia. rewrite Nat.sub_diag. reflexivity.
Qed.

Lemma new_run (h : heap) (m : mode_t) (w ht : Z) (color : pixel) :
  0 <= w -> 0 <= ht ->
  PIL.new m (w, ht) color h =
    (Ok (length h),
     h ++ [{| mode := m; width := w; height := ht; getpixel := fun _ _ => color |}]).
Proof.
  intros Hw Hh. unfold PIL.new. simpl.
  destruct (w <? 0) eqn:E1; [apply Z.ltb_lt in E1; lia |].
  destruct (ht <? 0) eqn:E2; [apply Z.ltb_lt in E2; lia |].
  reflexivity.
Qed.

(** [paste] writes to its target only. *)
Lemma paste_other (h h' : heap) (self im mask r : ref) (box : Z * Z)
    (res : result unit) :
  r <> self -> PIL.paste self im box mask h = (res, h') -> h' !! r = h !! r.
Proof.
  intros Hne. unfold PIL.paste, update, modify, deref.
  rewrite !bind_run.
  destruct (h !! self) as [dst |]; [| intros E; inversion E; reflexivity].
  rewrite !bind_run.
  destruct (h !! im) as [src |]; [| intros E; inversion E; reflexivity].
  rewrite !bind_run.
  destruct (h !! mask) as [msk |]; [| intros E; inversion E; reflexivity].
  destruct (negb _); [intros E; inversion E; reflexivity |].
  destruct (_ || _); [intros E; inversion E; reflexivity |].
  destruct (mode msk); intros E; inversion E; [reflexivity |].
  apply list_lookup_insert_ne. congruence.
Qed.

(** Pasting a tile through its own alpha band. *)
Lemma paste_tile_run (h : heap) (self t : ref) (x y : Z) (layer tile : image) :
  h !! self = Some layer -> h !! t = Some tile ->
  mode layer = RGBA -> mode tile = RGBA ->
  PIL.paste self t (x, y) t h =
    (Ok (),
     if (PIL.clipped_size x (width tile) (width layer) <=? 0) ||
        (PIL.clipped_size y (height tile) (height layer) <=? 0)
     then h
     else
       <[self := {| mode := RGBA; width := width layer; height := height layer;
                    getpixel := PIL.paste_pixels layer tile tile x y |}]> h).
Proof.
  intros Hs Ht Hml Hmt. unfold PIL.paste, update, modify.
  rewrite bind_run, (deref_some _ _ _ Hs).
  rewrite bind_run, (deref_some _ _ _ Ht).
  rewrite bind_run, (deref_some _ _ _ Ht).
  rewrite Hml, Hmt, !Z.eqb_refl. cbn [fst snd andb negb mode_eqb].
  destruct (_ || _); reflexivity.
Qed.

(** An RGB tile is no mask: [paste] leaves the heap as it is, and
    raises unless the box has no part on the image. *)
Lemma paste_rgb_tile_run (h : heap) (self t : ref) (x y : Z) (layer tile : image) :
  h !! self = Some layer -> h !! t = Some tile -> mode tile = RGB ->
  PIL.paste self t (x, y) t h =
    (if (PIL.clipped_size x (width tile) (width layer) <=? 0) ||
        (PIL.clipped_size y (height tile) (height layer) <=? 0)
     then Ok () else Raise ValueError, h).
Proof.
  intros Hs Ht Hmt. unfold PIL.paste.
  rewrite bind_run, (deref_some _ _ _ Hs).
  rewrite bind_run, (deref_some _ _ _ Ht).
  rewrite bind_run, (deref_some _ _ _ Ht).
  rewrite Hmt, !Z.eqb_refl. cbn [fst snd andb negb].
  destruct (_ || _); reflexivity.
Qed.

Lemma paste_pixels_alpha_u8 (layer tile : image) (x0 y0 : Z) :
  wf_image tile ->
  (forall x y, u8 (pa (getpixel layer x y))) ->
  forall x y, u8 (pa (PIL.paste_pixels layer tile tile x0 y0 x y)).
Proof.
  intros (_ & _ & Hpx) Hl x y. unfold PIL.paste_pixels.
  destruct ((0 <=? x - x0) && (x - x0 <? width tile) &&
            (0 <=? y - y0) && (y - y0 <? height tile)) eqn:E; [| apply Hl].
  assert (Hb : in_bounds tile (x - x0) (y - y0)) by (unfold in_bounds; lia).
  destruct (Hpx _ _ Hb) as (_ & _ & _ & Ha).
  simpl. apply BLEND_u8; auto.
Qed.

Lemma alpha_composite_inv (h h' : heap) (im1 im2 r : ref) :
  PIL.alpha_composite im1 im2 h = (Ok r, h') ->
  exists dst src,
    h !! im1 = Some dst /\ h !! im2 = Some src /\
    mode dst = RGBA /\ mode src = RGBA /\
    r = length h /\
    h' = h ++ [{| mode := RGBA; width := width dst; height := height dst;
                  getpixel := fun x y =>
                    PIL.composite_pixel (getpixel dst x y) (getpixel src x y) |}].
Proof.
  intros E. unfold PIL.alpha_composite in E.
  inv_bind E. apply deref_inv_ok in E0 as [-> Hd].
  inv_bind E. apply deref_inv_ok in E0 as [-> Hs].
  destruct (mode a) eqn:Ma; [discriminate E |].
  destruct (mode a0) eqn:Mb; [discriminate E |].
  destruct (negb _); [discriminate E |].
  inversion E; subst. exists a, a0. repeat split; auto.
Qed.

Lemma alpha_composite_run (h : heap) (im1 im2 : ref) (dst src : image) :
  h !! im1 = Some dst -> h !! im2 = Some src ->
  mode dst = RGBA -> mode src = RGBA -> size src = size dst ->
  PIL.alpha_composite im1 im2 h =
    (Ok (length h),
     h ++ [{| mode := RGBA; width := width dst; height := height dst;
              getpixel := fun x y =>
                PIL.composite_pixel (getpixel dst x y) (getpixel src x y) |}]).
Proof.
  intros H1 H2 M1 M2 Hsz. unfold PIL.alpha_composite.
  rewrite bind_run, (deref_some _ _ _ H1).
  rewrite bind_run, (deref_some _ _ _ H2).
  rewrite M1, M2. unfold size in Hsz. inversion Hsz as [[Hw Hh]].
  rewrite !Z.eqb_refl. reflexivity.
Qed.

(** The alpha of [src] over [dst] is never below the alpha of [dst], and
    is 255 where [dst] is opaque. *)
Lemma composite_alpha (dst src : pixel) :
  u8 (pa dst) -> u8 (pa src) ->
  pa dst <= pa (PIL.composite_pixel dst src) <= 255.
Proof.
  unfold u8. intros Hd Hs. unfold PIL.composite_pixel.
  destruct (pa src =? 0) eqn:E; [lia |]. simpl.
  split.
  - apply shift_div255_lower; [lia | nia].
  - apply shift_div255_bounds. nia.
Qed.

(** ** Tile Compositor *)

Section TileCompositor.

Variables (h : heap) (b t : ref) (base tile : image).
Hypothesis Hb : h !! b = Some base.
Hypothesis Ht : h !! t = Some tile.
Hypothesis Hw : 0 <= width base.
Hypothesis Hh : 0 <= height base.

(** The function in terms of its three stages. *)
Lemma create_tiled_pattern_stages :
  create_tiled_pattern b t h =
    (tiling_loop (width base) (height base) (width tile) (height tile)
       (fun x y => PIL.paste (length h) t (x, y) t);;
     result ← PIL.alpha_composite b (length h);
     mret result)
      (h ++ [{| mode := RGBA; width := width base; height := height base;
                getpixel := fun _ _ => Pixel 0 0 0 0 |}]).
Proof.
  unfold create_tiled_pattern.
  rewrite bind_run, (deref_some _ _ _ Hb).
  rewrite bind_run. unfold size. rewrite new_run by assumption.
  rewrite bind_run, (deref_some _ _ _ (alloc_keeps_lookup _ _ _ _ Ht)).
  reflexivity.
Qed.

Lemma layer_inv_init :
  layer_inv b t (length h) base tile
    (h ++ [{| mode := RGBA; width := width base; height := height base;
              getpixel := fun _ _ => Pixel 0 0 0 0 |}]).
Proof.
  split; [apply alloc_keeps_lookup; exact Hb |].
  split; [apply alloc_keeps_lookup; exact Ht |].
  eexists. split; [apply alloc_lookup |].
  simpl. repeat split; unfold u8; lia.
Qed.

Lemma fresh_ne_base : b <> length h.
Proof. apply lookup_lt_Some in Hb. lia. Qed.

Lemma fresh_ne_tile : t <> length h.
Proof. apply lookup_lt_Some in Ht. lia. Qed.

Lemma paste_keeps_base (x y : Z) (s s' : heap) (res : result unit) :
  s !! b = Some base ->
  PIL.paste (length h) t (x, y) t s = (res, s') ->
  s' !! b = Some base.
Proof.
  intros Hs E. rewrite (paste_other _ _ _ _ _ _ _ _ fresh_ne_base E). exact Hs.
Qed.

Lemma paste_keeps_inv (x y : Z) (s s' : heap) (res : result unit) :
  wf_image tile ->
  layer_inv b t (length h) base tile s ->
  PIL.paste (length h) t (x, y) t s = (res, s') ->
  layer_inv b t (length h) base tile s'.
Proof.
  intros Hwf (Hsb & Hst & layer & Hl & Hm & Hsz & Hu) E.
  split; [rewrite (paste_other _ _ _ _ _ _ _ _ fresh_ne_base E); exact Hsb |].
  split; [rewrite (paste_other _ _ _ _ _ _ _ _ fresh_ne_tile E); exact Hst |].
  destruct (mode tile) eqn:Mt.
  - (* an RGB tile is no mask: the heap is as it was *)
    rewrite (paste_rgb_tile_run _ _ _ _ _ _ _ Hl Hst Mt) in E.
    inversion E; subst. exists layer. auto.
  - rewrite (paste_tile_run _ _ _ _ _ _ _ Hl Hst Hm Mt) in E.
    destruct (_ || _); inversion E; subst; [exists layer; auto |].
    eexists.
    split; [apply list_lookup_insert_eq; eapply lookup_lt_Some; exact Hl |].
    simpl. split; [reflexivity |]. split; [exact Hsz |].
    apply paste_pixels_alpha_u8; assumption.
Qed.

Lemma paste_total_inv (x y : Z) (s : heap) :
  wf_image tile -> mode tile = RGBA ->
  layer_inv b t (length h) base tile s ->
  exists s', PIL.paste (length h) t (x, y) t s = (Ok (), s') /\
             layer_inv b t (length h) base tile s'.
Proof.
  intros Hwf Mt Hinv.
  pose proof Hinv as (Hsb & Hst & layer & Hl & Hm & Hsz & Hu).
  eexists. split; [apply (paste_tile_run _ _ _ _ _ _ _ Hl Hst Hm Mt) |].
  eapply paste_keeps_inv; [exact Hwf | exact Hinv |].
  apply (paste_tile_run _ _ _ _ _ _ _ Hl Hst Hm Mt).
Qed.

(** The result is a new buffer of the size of the base image. *)
Lemma create_tiled_pattern_size (r : ref) (h' : heap) :
  create_tiled_pattern b t h = (Ok r, h') ->
  exists out, h' !! r = Some out /\ size out = size base.
Proof.
  rewrite create_tiled_pattern_stages. intros E.
  inv_bind E. inv_bind E. inversion E; subst; clear E.
  assert (Hkeep : h0 !! b = Some base).
  { eapply (tiling_loop_inv (fun s => s !! b = Some base)); [| | exact E0].
    - intros x y s res s'. apply paste_keeps_base.
    - apply alloc_keeps_lookup. exact Hb. }
  apply alpha_composite_inv in E1 as (dst & src & Hd & Hs & _ & _ & -> & ->).
  rewrite Hkeep in Hd. inversion Hd; subst dst.
  eexists. split; [apply alloc_lookup | reflexivity].
Qed.

(** A successful run composites a layer with 8-bit alpha over the base
    image as it was passed. *)
Lemma create_tiled_pattern_result (r : ref) (h' : heap) :
  wf_image tile ->
  create_tiled_pattern b t h = (Ok r, h') ->
  exists layer,
    (forall x y, u8 (pa (getpixel layer x y))) /\
    h' !! r = Some {| mode := RGBA; width := width base; height := height base;
                      getpixel := fun x y =>
                        PIL.composite_pixel (getpixel base x y)
                                            (getpixel layer x y) |}.
Proof.
  intros Hwf. rewrite create_tiled_pattern_stages. intros E.
  inv_bind E. inv_bind E. inversion E; subst; clear E.
  assert (Hinv : layer_inv b t (length h) base tile h0).
  { eapply (tiling_loop_inv (layer_inv b t (length h) base tile));
      [| apply layer_inv_init | exact E0].
    intros x y s res s'. apply paste_keeps_inv. exact Hwf. }
  destruct Hinv as (Hsb & _ & layer & Hl & _ & _ & Hu).
  apply alpha_composite_inv in E1 as (dst & src & Hd & Hs & _ & _ & -> & ->).
  rewrite Hsb in Hd. inversion Hd; subst dst.
  rewrite Hl in Hs. inversion Hs; subst src.
  exists layer. split; [exact Hu | apply alloc_lookup].
Qed.

(** With both tile dimensions at least 2 the function returns. *)
Lemma create_tiled_pattern_returns :
  wf_image tile -> mode base = RGBA -> mode tile = RGBA ->
  2 <= width tile -> 2 <= height tile ->
  exists r h', create_tiled_pattern b t h = (Ok r, h').
Proof.
  intros Hwf Mb Mt Htw Hth. rewrite create_tiled_pattern_stages.
  destruct (tiling_loop_total (layer_inv b t (length h) base tile)
              (width base) (height base) (width tile) (height tile)
              (fun x y => PIL.paste (length h) t (x, y) t))
    with (s := h ++ [{| mode := RGBA; width := width base; height := height base;
                        getpixel := fun _ _ => Pixel 0 0 0 0 |}])
    as (s' & Eloop & Hinv).
  - pose proof (spacing_pos _ Htw). lia.
  - pose proof (spacing_pos _ Hth). lia.
  - intros x y s. apply paste_total_inv; assumption.
  - apply layer_inv_init.
  - destruct Hinv as (Hsb & _ & layer & Hl & Hm & Hsz & _).
    rewrite (bind_ok _ _ _ _ _ Eloop).
    rewrite (bind_ok _ _ _ _ _
               (alpha_composite_run _ _ _ _ _ Hsb Hl Mb Hm Hsz)).
    eexists. eexists. reflexivity.
Qed.

(** With a tile dimension below 2 the function raises [ValueError]. *)
Lemma create_tiled_pattern_raises :
  0 <= width tile -> 0 <= height tile ->
  width tile <= 1 \/ height tile <= 1 ->
  exists h', create_tiled_pattern b t h = (Raise ValueError, h').
Proof.
  intros Htw Hth Hsmall. rewrite create_tiled_pattern_stages.
  eexists. apply bind_raise. apply tiling_loop_fails; assumption.
Qed.

End TileCompositor.

(** ** Where the tiling loop pastes *)

Lemma for_each_pair_app {S} (l1 l2 : list (Z * Z)) (act : Z -> Z -> St S unit) (s : S) :
  for_each_pair (l1 ++ l2) act s =
    match for_each_pair l1 act s with
    | (Ok _, s1) => for_each_pair l2 act s1
    | (Raise e, s1) => (Raise e, s1)
    end.
Proof.
  revert s. induction l1 as [| [x y] l1 IH]; intros s; [reflexivity |].
  simpl. rewrite !bind_run.
  destruct (act x y s) as [[[] | e] s1]; [apply IH | reflexivity].
Qed.

Lemma for_each_guarded {S} (xs : list Z) (guard : Z -> bool) (y : Z)
    (act : Z -> Z -> St S unit) (s : S) :
  for_each xs (fun x => if guard x then act x y else mret ()) s =
    for_each_pair (map (fun x => (x, y)) (List.filter guard xs)) act s.
Proof.
  revert s. induction xs as [| x xs IH]; intros s; [reflexivity |].
  simpl. rewrite bind_run. destruct (guard x).
  - simpl. rewrite bind_run.
    destruct (act x y s) as [[[] | e] s1]; [apply IH | reflexivity].
  - apply IH.
Qed.

(** With non-zero spacings, the loop is the sequence of its [paste] calls
    at [tile_origins], whatever the call does. *)
Lemma tiling_loop_pairs {S} (W H tw th : Z) (act : Z -> Z -> St S unit) (s : S) :
  Py.int (inject_Z tw * (8 # 10)) <> 0 ->
  Py.int (inject_Z th * (8 # 10)) <> 0 ->
  tiling_loop W H tw th act s = for_each_pair (tile_origins W H tw th) act s.
Proof.
  intros Hx Hy. unfold tiling_loop, tile_origins, range_list.
  destruct (range_ok ((- th) / 2) (H + th) _ Hy) as [ys Eys].
  destruct (range_ok ((- tw) / 2) (W + tw) _ Hx) as [xs Exs].
  rewrite bind_run, lift_run, Eys, Exs. clear Eys.
  revert s. induction ys as [| y ys IH]; intros s; [reflexivity |].
  simpl. rewrite for_each_pair_app, !bind_run, lift_run.
  rewrite (for_each_guarded xs (fun x => (x <? W) && (y <? H)) y act s).
  destruct (for_each_pair _ act s) as [[[] | e] s1]; [apply IH | reflexivity].
Qed.

Lemma record_pairs (l acc : list (Z * Z)) :
  for_each_pair l (fun x y => modify (fun l0 : list (Z * Z) => l0 ++ [(x, y)])) acc
  = (Ok (), acc ++ l).
Proof.
  revert acc. induction l as [| [x y] l IH]; intros acc.
  - simpl. rewrite app_nil_r. reflexivity.
  - simpl. rewrite bind_run. unfold modify at 1.
    rewrite IH, <- app_assoc. reflexivity.
Qed.

Lemma range_list_spec (start stop step x : Z) :
  0 < step ->
  In x (range_list start stop step) <->
  exists i, 0 <= i /\ x = start + i * step /\ x < stop.
Proof.
  intros Hs. unfold range_list, Py.range, Py.range_len.
  destruct (step =? 0) eqn:E0; [apply Z.eqb_eq in E0; lia |].
  destruct (0 <? step) eqn:E1; [| apply Z.ltb_ge in E1; lia].
  rewrite in_map_iff. split.
  - intros (i & <- & Hi). apply in_seq in Hi.
    exists (Z.of_nat i). split; [lia |]. split; [reflexivity |].
    destruct (start <? stop) eqn:E2; [| simpl in Hi; lia].
    apply Z.ltb_lt in E2.
    assert (Hq : 0 <= (stop - start - 1) / step) by (apply Z.div_pos; lia).
    assert (Hle : Z.of_nat i <= (stop - start - 1) / step) by lia.
    pose proof (Z.mul_div_le (stop - start - 1) step Hs). nia.
  - intros (i & Hi & -> & Hlt).
    exists (Z.to_nat i). split; [rewrite Z2Nat.id by lia; reflexivity |].
    apply in_seq.
    assert (E2 : start < stop) by nia.
    rewrite (proj2 (Z.ltb_lt start stop) E2).
    assert (Hle : i <= (stop - start - 1) / step)
      by (apply Z.div_le_lower_bound; nia).
    lia.
Qed.

Lemma tile_origins_spec (W H tw th x y : Z) :
  2 <= tw -> 2 <= th ->
  In (x, y) (tile_origins W H tw th) <->
  (exists i, 0 <= i /\ x = (- tw) / 2 + i * Py.int (inject_Z tw * (8 # 10))) /\
  (exists j, 0 <= j /\ y = (- th) / 2 + j * Py.int (inject_Z th * (8 # 10))) /\
  x < W /\ y < H.
Proof.
  intros Htw Hth. unfold tile_origins.
  pose proof (spacing_pos _ Htw) as Hsx. pose proof (spacing_pos _ Hth) as Hsy.
  rewrite in_flat_map. split.
  - intros (y' & Hy' & Hin). apply in_map_iff in Hin as (x' & Heq & Hx').
    inversion Heq; subst x' y'.
    apply filter_In in Hx' as [Hx' Hg].
    apply range_list_spec in Hx' as (i & Hi & Hxi & _); [| exact Hsx].
    apply range_list_spec in Hy' as (j & Hj & Hyj & _); [| exact Hsy].
    apply andb_true_iff in Hg as [Hgx Hgy].
    apply Z.ltb_lt in Hgx. apply Z.ltb_lt in Hgy.
    split; [exists i; auto |]. split; [exists j; auto |]. auto.
  - intros ((i & Hi & Hxi) & (j & Hj & Hyj) & HxW & HyH).
    exists y. split.
    + apply range_list_spec; [exact Hsy |]. exists j. repeat split; auto. lia.
    + apply in_map_iff. exists x. split; [reflexivity |].
      apply filter_In. split.
      * apply range_list_spec; [exact Hsx |]. exists i. repeat split; auto. lia.
      * apply andb_true_iff. split; apply Z.ltb_lt; assumption.
Qed.

(** ** Exceptions raised by the image functions *)

Lemma nre_ret {S A} (a : A) : no_request_exn (mret a : St S A).
Proof. intros s e s' E. discriminate E. Qed.

Lemma nre_raise {S A} (e : exn) :
  e <> RequestException -> no_request_exn (raise e : St S A).
Proof. intros H s e' s' E. inversion E; subst. exact H. Qed.

Lemma nre_bind {S A B} (m : St S A) (k : A -> St S B) :
  no_request_exn m -> (forall a, no_request_exn (k a)) -> no_request_exn (m ≫= k).
Proof.
  intros Hm Hk s e s'. rewrite bind_run.
  destruct (m s) as [[a | e0] s1] eqn:Em.
  - apply Hk.
  - intros E. inversion E; subst. eapply Hm. exact Em.
Qed.

Lemma nre_lift {S A} (r : result A) :
  (forall e, r = Raise e -> e <> RequestException) ->
  no_request_exn (lift r : St S A).
Proof. intros H s e s' E. inversion E; subst. apply H. reflexivity. Qed.

Lemma nre_modify {S} (f : S -> S) : no_request_exn (modify f).
Proof. intros s e s' E. discriminate E. Qed.

Lemma nre_alloc (img : image) : no_request_exn (alloc img).
Proof. intros s e s' E. discriminate E. Qed.

Lemma nre_deref (r : ref) : no_request_exn (deref r).
Proof.
  intros s e s'. unfold deref. destruct (s !! r); intros E; inversion E.
  discriminate.
Qed.

Lemma nre_for_each {S} (xs : list Z) (body : Z -> St S unit) :
  (forall x, no_request_exn (body x)) -> no_request_exn (for_each xs body).
Proof.
  intros Hb. induction xs as [| x xs IH]; simpl.
  - apply nre_ret.
  - apply nre_bind; [apply Hb | intros _; exact IH].
Qed.

Lemma nre_range {S} (a b c : Z) : no_request_exn (lift (Py.range a b c) : St S _).
Proof.
  apply nre_lift. unfold Py.range. intros e.
  destruct (c =? 0); intros E; inversion E. discriminate.
Qed.

Lemma nre_truediv {S} (a b : Z) : no_request_exn (lift (Py.truediv a b) : St S _).
Proof.
  apply nre_lift. unfold Py.truediv. intros e.
  destruct (b =? 0); intros E; inversion E. discriminate.
Qed.

Ltac nre_step :=
  first
    [ apply nre_ret
    | apply nre_alloc
    | apply nre_deref
    | apply nre_modify
    | apply nre_range
    | apply nre_truediv
    | apply nre_raise; discriminate
    | apply nre_bind; [| intros ?]
    | apply nre_for_each; intros ?
    | match goal with
      | |- no_request_exn (if ?c then _ else _) => destruct c
      | |- no_request_exn (match ?x with _ => _ end) => destruct x
      end ].

Ltac nre := repeat nre_step.

Lemma nre_paste (self im mask : ref) (box : Z * Z) :
  no_request_exn (PIL.paste self im box mask).
Proof. unfold PIL.paste, update. cbv zeta. nre. Qed.

Lemma nre_create_tiled_pattern (b t : ref) : no_request_exn (create_tiled_pattern b t).
Proof.
  unfold create_tiled_pattern, tiling_loop, PIL.new, PIL.alpha_composite.
  repeat first [apply nre_paste | nre_step].
Qed.

Lemma nre_adjust_opacity (r : ref) (opacity : Q) :
  no_request_exn (adjust_opacity r opacity).
Proof. unfold adjust_opacity, PIL.split_3, PIL.putalpha, update. nre. Qed.

Lemma create_tiled_pattern_negative (h : heap) (b t : ref) (base : image) :
  h !! b = Some base -> width base < 0 \/ height base < 0 ->
  create_tiled_pattern b t h = (Raise ValueError, h).
Proof.
  intros Hb Hneg. unfold create_tiled_pattern.
  rewrite bind_run, (deref_some _ _ _ Hb), bind_run.
  unfold PIL.new, size. simpl.
  destruct (width base <? 0) eqn:E1; [reflexivity |].
  destruct (height base <? 0) eqn:E2; [reflexivity |].
  apply Z.ltb_ge in E1. apply Z.ltb_ge in E2. lia.
Qed.

(** ** Watermark Pipeline *)

Lemma convert_inv (h h' : heap) (r r' : ref) (m : mode_t) :
  PIL.convert r m h = (Ok r', h') ->
  exists img, h !! r = Some img /\ r' = length h /\
              h' = h ++ [PIL.convert_image img m].
Proof.
  intros E. unfold PIL.convert in E. inv_bind E.
  apply deref_inv_ok in E0 as [-> Hr].
  inversion E; subst. exists a. auto.
Qed.

Lemma adjust_opacity_inv (h h' : heap) (r r' : ref) (opacity : Q) :
  adjust_opacity r opacity h = (Ok r', h') ->
  r' = r /\ length h' = length h /\ forall q, q <> r -> h' !! q = h !! q.
Proof.
  unfold adjust_opacity. destruct (Qle_bool 1 opacity).
  - intros E. inversion E; subst. auto.
  - intros E. inv_bind E. unfold PIL.split_3 in E0. inv_bind E0.
    apply deref_inv_ok in E1 as [-> Hr].
    destruct (mode a0); [discriminate E0 |]. inversion E0; subst; clear E0.
    inv_bind E. inversion E; subst; clear E.
    unfold PIL.putalpha in E0. inv_bind E0.
    apply deref_inv_ok in E as [-> _].
    destruct (negb _); [discriminate E0 |].
    inversion E0; subst; clear E0.
    split; [reflexivity |]. split; [apply length_insert |].
    intros q Hq. apply list_lookup_insert_ne. congruence.
Qed.

Section Pipeline.

Variable lanczos : image -> Z * Z -> Z -> Z -> pixel.
Variable rotate_size : Z -> Z * Z -> Z * Z.
Variable bicubic : Z -> image -> Z -> Z -> pixel.
Variable logo_file : logo_state.

Lemma Image_resize_inv (h h' : heap) (r r' : ref) (sz : Z * Z) :
  Image_resize lanczos r sz h = (Ok r', h') ->
  exists out, r' = length h /\ h' = h ++ [out] /\
              (width out, height out) = sz.
Proof.
  intros E. unfold Image_resize in E. inv_bind E.
  apply deref_inv_ok in E0 as [-> Hr].
  destruct ((sz.1 =? width a) && (sz.2 =? height a)) eqn:Esame.
  - inversion E; subst. exists a. repeat split.
    apply andb_true_iff in Esame as [Ew Eh].
    apply Z.eqb_eq in Ew. apply Z.eqb_eq in Eh.
    destruct sz; simpl in *. congruence.
  - destruct ((sz.1 <? 1) || (sz.2 <? 1)); [discriminate E |].
    inversion E; subst. eexists. repeat split. simpl. destruct sz; reflexivity.
Qed.

Lemma resize_proportional_inv (h h' : heap) (r r' : ref) (target_size : Z) :
  resize_proportional lanczos r target_size h = (Ok r', h') ->
  exists out, r' = length h /\ h' = h ++ [out].
Proof.
  intros E. unfold resize_proportional in E. inv_bind E.
  apply deref_inv_ok in E0 as [-> Hr].
  inv_bind E. inversion E0; subst; clear E0.
  inv_bind E. inversion E0; subst; clear E0.
  apply Image_resize_inv in E as (out & -> & -> & _).
  exists out. auto.
Qed.

Lemma Image_rotate_inv (h h' : heap) (r r' : ref) (angle : Z) :
  Image_rotate rotate_size bicubic r angle h = (Ok r', h') ->
  exists out, r' = length h /\ h' = h ++ [out].
Proof.
  intros E. unfold Image_rotate in E. inv_bind E.
  apply deref_inv_ok in E0 as [-> Hr].
  inversion E; subst. eexists. auto.
Qed.

Lemma Image_open_logo_inv (h h' : heap) (r' : ref) :
  Image_open_logo logo_file h = (Ok r', h') ->
  exists img, logo_file = Verified (Some img) /\ r' = length h /\ h' = h ++ [img].
Proof.
  unfold Image_open_logo. destruct logo_file as [| | [img |]]; intros E;
    try discriminate E.
  inversion E; subst. exists img. auto.
Qed.

Lemma nre_resize_proportional (r : ref) (target_size : Z) :
  no_request_exn (resize_proportional lanczos r target_size).
Proof. unfold resize_proportional, Image_resize. nre. Qed.

Lemma nre_apply_diagonal_watermark (r : ref) :
  no_request_exn (apply_diagonal_watermark lanczos rotate_size bicubic logo_file r).
Proof.
  unfold apply_diagonal_watermark, PIL.convert, Image_open_logo, Image_rotate.
  repeat first [ apply nre_adjust_opacity
               | apply nre_resize_proportional
               | apply nre_create_tiled_pattern
               | nre_step ].
Qed.

(** The pipeline returns a live buffer of the size of its argument. *)
Lemma pipeline_result (h h' : heap) (r res : ref) (src : image) :
  h !! r = Some src ->
  apply_diagonal_watermark lanczos rotate_size bicubic logo_file r h = (Ok res, h') ->
  exists out,
    h' !! res = Some out /\
    width out = width src /\ height out = height src.
Proof.
  intros Hr E. unfold apply_diagonal_watermark in E.
  step_ok E as main_image h1 E1.
  apply convert_inv in E1 as (src' & Hr' & -> & ->).
  rewrite Hr in Hr'. inversion Hr'; subst src'; clear Hr'.
  step_ok E as logo_ref h2 E2.
  apply Image_open_logo_inv in E2 as (logo & _ & -> & ->).
  step_ok E as watermark h3 E3.
  apply convert_inv in E3 as (logo' & _ & -> & ->).
  step_ok E as watermark' h4 E4.
  apply adjust_opacity_inv in E4 as (-> & Hlen & Hframe).
  set (main := PIL.convert_image src RGBA) in *.
  assert (Hmain : h4 !! length h = Some main).
  { rewrite Hframe by (rewrite !length_app; simpl; lia).
    apply alloc_keeps_lookup, alloc_keeps_lookup, alloc_lookup. }
  step_ok E as main' h5 E5. apply deref_inv_ok in E5 as [Heq Hd].
  subst h5. rewrite Hmain in Hd. inversion Hd; subst main'; clear Hd.
  step_ok E as resized_ref h6 E6.
  apply resize_proportional_inv in E6 as (resized & -> & ->).
  step_ok E as rotated h7 E7.
  apply Image_rotate_inv in E7 as (tile & -> & ->).
  step_ok E as watermarked h8 E8. inversion E; subst; clear E.
  assert (Hbase : ((h4 ++ [resized]) ++ [tile]) !! length h = Some main)
    by (apply alloc_keeps_lookup, alloc_keeps_lookup; exact Hmain).
  assert (Htile : ((h4 ++ [resized]) ++ [tile]) !! length (h4 ++ [resized])
                  = Some tile) by apply alloc_lookup.
  destruct (Z_lt_le_dec (width main) 0) as [Hw | Hw].
  { rewrite (create_tiled_pattern_negative _ _ _ _ Hbase (or_introl Hw)) in E8.
    discriminate E8. }
  destruct (Z_lt_le_dec (height main) 0) as [Hh | Hh].
  { rewrite (create_tiled_pattern_negative _ _ _ _ Hbase (or_intror Hh)) in E8.
    discriminate E8. }
  destruct (create_tiled_pattern_size _ _ _ _ _ Hbase Htile Hw Hh _ _ E8)
    as (out & Hout & Hsz).
  exists out. split; [exact Hout |].
  unfold size in Hsz. simpl in Hsz. inversion Hsz. auto.
Qed.

(** C1: when the pipeline accepts a source image and returns, the
    buffer it returns has exactly the width and the height of the
    source image. *)
Theorem apply_diagonal_watermark_size (h h' : heap) (r res : ref) (src : image) :
  h !! r = Some src ->
  apply_diagonal_watermark lanczos rotate_size bicubic logo_file r h = (Ok res, h') ->
  exists out,
    h' !! res = Some out /\
    width out = width src /\ height out = height src.
Proof. apply pipeline_result. Qed.

End Pipeline.

(** ** The claims on the Tile Compositor *)

(** C6: whenever [create_tiled_pattern] returns, the alpha of every
    pixel of its result is at least the alpha of the base image at that
    pixel, and the result is fully opaque wherever the base is. *)
Theorem create_tiled_pattern_alpha_ge_base
    (h h' : heap) (b t r : ref) (base tile : image) :
  h !! b = Some base -> h !! t = Some tile ->
  wf_image base -> wf_image tile ->
  create_tiled_pattern b t h = (Ok r, h') ->
  exists out,
    h' !! r = Some out /\ size out = size base /\
    forall x y, in_bounds base x y ->
      pa (getpixel base x y) <= pa (getpixel out x y) /\
      (pa (getpixel base x y) = 255 -> pa (getpixel out x y) = 255).
Proof.
  intros Hb Ht (Hw & Hh & Hpx) Hwt E.
  destruct (create_tiled_pattern_result _ _ _ _ _ Hb Ht Hw Hh _ _ Hwt E)
    as (layer & Hu & Hout).
  eexists. split; [exact Hout |]. split; [reflexivity |].
  intros x y Hxy. simpl.
  destruct (Hpx x y Hxy) as (_ & _ & _ & Ha).
  pose proof (composite_alpha (getpixel base x y) (getpixel layer x y) Ha (Hu x y)).
  lia.
Qed.

(** C9: a tile whose width or height is 1 pixel (or 0) gives a zero
    spacing, and [create_tiled_pattern] raises [ValueError] on the
    [range] with step 0 instead of returning a canvas; it returns exactly
    when both tile dimensions are at least 2 pixels. *)
Theorem create_tiled_pattern_total_iff
    (h : heap) (b t : ref) (base tile : image) :
  h !! b = Some base -> h !! t = Some tile ->
  wf_image base -> wf_image tile ->
  mode base = RGBA -> mode tile = RGBA ->
  (width tile <= 1 \/ height tile <= 1 ->
   Py.int (inject_Z (width tile) * (8 # 10)) = 0 \/
   Py.int (inject_Z (height tile) * (8 # 10)) = 0) /\
  (width tile <= 1 \/ height tile <= 1 ->
   exists h', create_tiled_pattern b t h = (Raise ValueError, h')) /\
  ((exists r h', create_tiled_pattern b t h = (Ok r, h')) <->
   2 <= width tile /\ 2 <= height tile).
Proof.
  intros Hb Ht (Hw & Hh & _) Hwt Mb Mt.
  pose proof Hwt as (Htw & Hth & _).
  split; [| split; [| split]].
  - intros [Hs | Hs]; [left | right]; apply spacing_zero; lia.
  - intros Hs. apply (create_tiled_pattern_raises _ _ _ _ _ Hb Ht Hw Hh Htw Hth Hs).
  - intros (r & h' & E).
    destruct (Z_le_gt_dec (width tile) 1) as [Hs | Hs].
    { destruct (create_tiled_pattern_raises _ _ _ _ _ Hb Ht Hw Hh Htw Hth
                  (or_introl Hs)) as (h'' & E').
      rewrite E in E'. discriminate E'. }
    destruct (Z_le_gt_dec (height tile) 1) as [Hs' | Hs'].
    { destruct (create_tiled_pattern_raises _ _ _ _ _ Hb Ht Hw Hh Htw Hth
                  (or_intror Hs')) as (h'' & E').
      rewrite E in E'. discriminate E'. }
    lia.
  - intros [H2w H2h].
    apply (create_tiled_pattern_returns _ _ _ _ _ Hb Ht Hw Hh Hwt Mb Mt H2w H2h).
Qed.

(** C2, as the code has it: for a tile of at least 2 by 2 pixels the
    loop calls [paste] exactly at the grid positions (x, y) with x < W
    and y < H.  The guard bounds the origin on the right and at the
    bottom only: the first row and the first column of the grid have
    negative origins and are pasted. *)
Theorem paste_origins_spec (W H tw th : Z) :
  2 <= tw -> 2 <= th ->
  exists l,
    paste_origins W H tw th = Ok l /\
    (forall (S : Type) (act : Z -> Z -> St S unit) (s : S),
       tiling_loop W H tw th act s = for_each_pair l act s) /\
    (forall x y,
       In (x, y) l <->
       (exists i, 0 <= i /\ x = (- tw) / 2 + i * Py.int (inject_Z tw * (8 # 10))) /\
       (exists j, 0 <= j /\ y = (- th) / 2 + j * Py.int (inject_Z th * (8 # 10))) /\
       x < W /\ y < H) /\
    (0 < W -> 0 < H ->
     In ((- tw) / 2, (- th) / 2) l /\ (- tw) / 2 < 0 /\ (- th) / 2 < 0).
Proof.
  intros Htw Hth.
  assert (Hsx : Py.int (inject_Z tw * (8 # 10)) <> 0)
    by (pose proof (spacing_pos _ Htw); lia).
  assert (Hsy : Py.int (inject_Z th * (8 # 10)) <> 0)
    by (pose proof (spacing_pos _ Hth); lia).
  exists (tile_origins W H tw th).
  split; [| split; [| split]].
  - unfold paste_origins. rewrite tiling_loop_pairs by assumption.
    rewrite record_pairs. reflexivity.
  - intros S act s. apply tiling_loop_pairs; assumption.
  - intros x y. apply tile_origins_spec; assumption.
  - intros HW HH.
    assert (Hox : (- tw) / 2 < 0) by (Z.div_mod_to_equations; lia).
    assert (Hoy : (- th) / 2 < 0) by (Z.div_mod_to_equations; lia).
    split; [| split; assumption].
    apply tile_origins_spec; [assumption | assumption |].
    split; [exists 0; lia |]. split; [exists 0; lia |]. lia.
Qed.

(** ** Proportional Resizer *)

Lemma inject_Z_nonzero (a : Z) : 0 < a -> ~ (inject_Z a == 0)%Q.
Proof. intros H E. unfold Qeq in E. simpl in E. lia. Qed.

(** The ratio: the smaller of the two rounded quotients. *)
Lemma min_ratio_bounds (t a b : Z) :
  0 <= t -> 0 < a -> 0 < b ->
  let ratio_w := Float.fl64 (inject_Z t / inject_Z a) in
  let ratio_h := Float.fl64 (inject_Z t / inject_Z b) in
  (0 <= Qmin ratio_w ratio_h)%Q /\
  (Qmin ratio_w ratio_h <= ratio_w)%Q /\ (Qmin ratio_w ratio_h <= ratio_h)%Q /\
  ((Qmin ratio_w ratio_h == ratio_w)%Q \/ (Qmin ratio_w ratio_h == ratio_h)%Q).
Proof.
  intros Ht Ha Hb ratio_w ratio_h.
  pose proof (inject_Z_pos _ Ha) as Qa. pose proof (inject_Z_pos _ Hb) as Qb.
  pose proof (inject_Z_nonneg _ Ht) as Qt.
  split; [| split; [apply Q.le_min_l | split; [apply Q.le_min_r |]]].
  - apply Q.min_glb; apply round_nonneg; apply Qle_shift_div_l; auto;
      rewrite Qmult_0_l; exact Qt.
  - destruct (Q.min_spec ratio_w ratio_h) as [[_ E] | [_ E]]; auto.
Qed.

Lemma min_ratio_zero (a b : Z) :
  (Qmin (Float.fl64 (inject_Z 0 / inject_Z a)) (Float.fl64 (inject_Z 0 / inject_Z b)) == 0)%Q.
Proof.
  rewrite (fl64_comp (inject_Z 0 / inject_Z a) 0)
    by (change (inject_Z 0) with 0%Q; unfold Qdiv; ring).
  rewrite (fl64_comp (inject_Z 0 / inject_Z b) 0)
    by (change (inject_Z 0) with 0%Q; unfold Qdiv; ring).
  reflexivity.
Qed.

Lemma scaled_dim_zero (w : Z) (ratio : Q) :
  (ratio == 0)%Q -> Py.int (Py.mul_int_float w ratio) = 0.
Proof.
  intros E. unfold Py.mul_int_float.
  rewrite (fl64_comp _ 0) by (rewrite E; ring). reflexivity.
Qed.

Section Resizer.

Variable lanczos : image -> Z * Z -> Z -> Z -> pixel.

(** With non-zero dimensions the function is the [resize] call on the
    two truncated products. *)
Lemma resize_proportional_run (h : heap) (r : ref) (img : image) (target_size : Z) :
  h !! r = Some img -> width img <> 0 -> height img <> 0 ->
  resize_proportional lanczos r target_size h =
    let ratio := Qmin (Float.fl64 (inject_Z target_size / inject_Z (width img)))
                      (Float.fl64 (inject_Z target_size / inject_Z (height img))) in
    Image_resize lanczos r
      (Py.int (Py.mul_int_float (width img) ratio),
       Py.int (Py.mul_int_float (height img) ratio)) h.
Proof.
  intros Hr Hw Hh. unfold resize_proportional, Py.truediv.
  rewrite bind_run, (deref_some _ _ _ Hr).
  rewrite (proj2 (Z.eqb_neq _ _) Hw), (proj2 (Z.eqb_neq _ _) Hh).
  reflexivity.
Qed.

Lemma Image_resize_returns (h : heap) (r : ref) (img : image) (nw nh : Z) :
  h !! r = Some img -> 1 <= nw -> 1 <= nh ->
  exists out,
    Image_resize lanczos r (nw, nh) h = (Ok (length h), h ++ [out]) /\
    mode out = mode img /\ width out = nw /\ height out = nh.
Proof.
  intros Hr Hw Hh. unfold Image_resize.
  rewrite bind_run, (deref_some _ _ _ Hr). simpl.
  destruct ((nw =? width img) && (nh =? height img)) eqn:Esame.
  - apply andb_true_iff in Esame as [Ew Eh].
    apply Z.eqb_eq in Ew. apply Z.eqb_eq in Eh.
    exists img. auto.
  - destruct (nw <? 1) eqn:E1; [apply Z.ltb_lt in E1; lia |].
    destruct (nh <? 1) eqn:E2; [apply Z.ltb_lt in E2; lia |].
    simpl. eexists. split; [reflexivity |]. auto.
Qed.

Lemma Image_resize_raises (h : heap) (r : ref) (img : image) (nw nh : Z) :
  h !! r = Some img -> 0 < width img -> 0 < height img ->
  nw < 1 \/ nh < 1 ->
  Image_resize lanczos r (nw, nh) h = (Raise ValueError, h).
Proof.
  intros Hr Hw Hh Hsmall. unfold Image_resize.
  rewrite bind_run, (deref_some _ _ _ Hr). simpl.
  destruct ((nw =? width img) && (nh =? height img)) eqn:Esame.
  - apply andb_true_iff in Esame as [Ew Eh].
    apply Z.eqb_eq in Ew. apply Z.eqb_eq in Eh. lia.
  - destruct Hsmall as [Hs | Hs].
    + rewrite (proj2 (Z.ltb_lt _ _) Hs). reflexivity.
    + rewrite (proj2 (Z.ltb_lt _ _) Hs), orb_true_r. reflexivity.
Qed.

(** C5, as the code has it: for an image with positive width and
    height, the requested dimensions are int(width * ratio) and
    int(height * ratio), with ratio the smaller of the quotients
    target_size / width and target_size / height, every quotient and
    product rounded to binary64.  For sizes below 2^31 neither dimension
    exceeds target_size, and the side that decides the ratio comes out
    as target_size or as target_size - 1.  Nothing clamps the dimensions
    to 1: when both are at least 1 the function returns a new image of
    exactly these dimensions, and when one is 0 (or negative) the resize
    raises [ValueError]. *)
Theorem resize_proportional_dims (h : heap) (r : ref) (img : image) (target_size : Z) :
  h !! r = Some img -> 0 < width img -> 0 < height img ->
  let ratio := Qmin (Float.fl64 (inject_Z target_size / inject_Z (width img)))
                    (Float.fl64 (inject_Z target_size / inject_Z (height img))) in
  let new_width := Py.int (Py.mul_int_float (width img) ratio) in
  let new_height := Py.int (Py.mul_int_float (height img) ratio) in
  (0 <= target_size < 2 ^ 31 -> width img < 2 ^ 31 -> height img < 2 ^ 31 ->
   0 <= new_width <= target_size /\ 0 <= new_height <= target_size /\
   (target_size - 1 <= new_width \/ target_size - 1 <= new_height)) /\
  (1 <= new_width -> 1 <= new_height ->
   exists out,
     resize_proportional lanczos r target_size h = (Ok (length h), h ++ [out]) /\
     mode out = mode img /\ width out = new_width /\ height out = new_height) /\
  (new_width < 1 \/ new_height < 1 ->
   resize_proportional lanczos r target_size h = (Raise ValueError, h)).
Proof.
  intros Hr Hw Hh ratio new_width new_height.
  split; [| split].
  - intros Ht Hw' Hh'.
    destruct (min_ratio_bounds target_size _ _ (proj1 Ht) Hw Hh)
      as (R0 & Rw & Rh & Rmin).
    cbv zeta in R0, Rw, Rh, Rmin. fold ratio in R0, Rw, Rh, Rmin.
    assert (Bw : 0 <= new_width <= target_size).
    { apply scaled_dim_le; [exact Ht | lia | exact R0 | exact Rw]. }
    assert (Bh : 0 <= new_height <= target_size).
    { apply scaled_dim_le; [exact Ht | lia | exact R0 | exact Rh]. }
    split; [exact Bw |]. split; [exact Bh |].
    destruct (Z.eq_dec target_size 0) as [E0 | Hnz]; [lia |].
    destruct Rmin as [E | E]; [left | right]; unfold new_width, new_height,
      Py.mul_int_float; rewrite (fl64_comp _ _ (Qmult_comp _ _ (Qeq_refl _) _ _ E));
      apply scaled_dim_ge; lia.
  - intros H1w H1h.
    rewrite (resize_proportional_run _ _ _ _ Hr) by lia.
    apply Image_resize_returns; assumption.
  - intros Hsmall.
    rewrite (resize_proportional_run _ _ _ _ Hr) by lia.
    apply (Image_resize_raises _ _ img); assumption.
Qed.

End Resizer.

(** ** HTTP Handler *)

Lemma endswith_spec (s suffix : string) :
  Py.endswith s suffix = true <-> exists prefix, s = (prefix ++ suffix)%string.
Proof.
  split.
  - induction s as [| c s IH]; intros H; cbn [Py.endswith] in H.
    + destruct (String.eqb EmptyString suffix) eqn:E; [| discriminate H].
      apply String.eqb_eq in E. exists EmptyString. exact E.
    + destruct (String.eqb (String c s) suffix) eqn:E.
      * apply String.eqb_eq in E. exists EmptyString. exact E.
      * destruct (IH H) as [p ->]. exists (String c p). reflexivity.
  - intros [p ->]. induction p as [| c p IH].
    + change (EmptyString ++ suffix)%string with suffix.
      destruct suffix as [| c s]; cbn [Py.endswith];
        rewrite String.eqb_refl; reflexivity.
    + change (String c p ++ suffix)%string with (String c (p ++ suffix)%string).
      cbn [Py.endswith].
      destruct (String.eqb (String c (p ++ suffix)) suffix); [reflexivity | exact IH].
Qed.

Lemma endswith_any_spec (u : string) :
  Py.endswith_any (Py.lower u) [".png"; ".gif"; ".bmp"; ".tiff"]%string = true
  <-> png_url u.
Proof.
  unfold Py.endswith_any, png_url. rewrite existsb_exists. split.
  - intros (ext & Hin & He). apply endswith_spec in He as [p Hp].
    exists ext, p. auto.
  - intros (ext & p & Hin & Hp). exists ext. split; [exact Hin |].
    apply endswith_spec. exists p. exact Hp.
Qed.

Section Request.

Variable requests_get : string -> http_result.

Lemma download_image_fails (u : string) :
  download_fails (requests_get u) ->
  download_image requests_get u [] = (Raise RequestException, []).
Proof.
  intros Hf. unfold download_image, raise_for_status.
  destruct (requests_get u) as [| | code content]; try reflexivity.
  simpl in Hf. rewrite bind_run.
  rewrite (proj2 (Z.leb_le _ _) (proj1 Hf)), (proj2 (Z.ltb_lt _ _) (proj2 Hf)).
  reflexivity.
Qed.

Lemma download_image_not_an_image (u : string) (code : Z) :
  requests_get u = Response code NotAnImage -> ~ 400 <= code < 600 ->
  download_image requests_get u [] = (Raise OSError, []).
Proof.
  intros Hg Hc. unfold download_image, raise_for_status.
  rewrite Hg, bind_run.
  destruct ((400 <=? code) && (code <? 600)) eqn:E; [| reflexivity].
  apply andb_true_iff in E as [E1 E2].
  apply Z.leb_le in E1. apply Z.ltb_lt in E2. lia.
Qed.

Lemma download_image_decodes (u : string) (code : Z) (img : image) :
  requests_get u = Response code (Decodes img) -> ~ 400 <= code < 600 ->
  download_image requests_get u [] = (Ok 0%nat, [img]).
Proof.
  intros Hg Hc. unfold download_image, raise_for_status.
  rewrite Hg, bind_run.
  destruct ((400 <=? code) && (code <? 600)) eqn:E; [| reflexivity].
  apply andb_true_iff in E as [E1 E2].
  apply Z.leb_le in E1. apply Z.ltb_lt in E2. lia.
Qed.

End Request.

Lemma save_png_run (h : heap) (r : ref) (out : image) :
  h !! r = Some out -> PIL.save r PNG h = (Ok out, h).
Proof.
  intros Hr. unfold PIL.save. rewrite bind_run, (deref_some _ _ _ Hr). reflexivity.
Qed.

Lemma save_jpeg_run (h : heap) (r : ref) (out : image) (q : Z) :
  h !! r = Some out ->
  PIL.save r (JPEG q) h =
    if (PIL.JPEG_MAX_DIMENSION <? width out) || (PIL.JPEG_MAX_DIMENSION <? height out)
    then (Raise OSError, h) else (Ok out, h).
Proof.
  intros Hr. unfold PIL.save. rewrite bind_run, (deref_some _ _ _ Hr).
  destruct ((PIL.JPEG_MAX_DIMENSION <? width out) || (PIL.JPEG_MAX_DIMENSION <? height out));
    reflexivity.
Qed.

Lemma convert_run (h : heap) (r : ref) (out : image) (m : mode_t) :
  h !! r = Some out ->
  PIL.convert r m h = (Ok (length h), h ++ [PIL.convert_image out m]).
Proof.
  intros Hr. unfold PIL.convert. rewrite bind_run, (deref_some _ _ _ Hr). reflexivity.
Qed.

Section Handler.

Variable lanczos : image -> Z * Z -> Z -> Z -> pixel.
Variable rotate_size : Z -> Z * Z -> Z * Z.
Variable bicubic : Z -> image -> Z -> Z -> pixel.
Variable logo_file : logo_state.
Variable requests_get : string -> http_result.

Local Abbreviation pipeline :=
  (apply_diagonal_watermark lanczos rotate_size bicubic logo_file).
Local Abbreviation handler :=
  (watermark_image lanczos rotate_size bicubic logo_file requests_get).

(** How the handler answers a non-empty [url], case by case. *)
Lemma handler_cases (c : ascii) (u' : string) :
  let resp := handler (Some (String c u')) in
  match logo_file with
  | Missing | Invalid => error_response resp 500
  | Verified _ =>
      match requests_get (String c u') with
      | ConnectionFailed | TimedOut => error_response resp 400
      | Response code content =>
          if (400 <=? code) && (code <? 600) then error_response resp 400
          else
            match content with
            | NotAnImage => error_response resp 500
            | Decodes img =>
                match pipeline 0%nat [img] with
                | (Ok r, h') =>
                    exists out, h' !! r = Some out /\ size out = size img /\
                      if Py.endswith_any (Py.lower (String c u'))
                           [".png"; ".gif"; ".bmp"; ".tiff"]%string
                      then resp = {| status := 200; mimetype := "image/png";
                                     body := File PNG out "watermarked_image.png" |}
                      else if (PIL.JPEG_MAX_DIMENSION <? width out) ||
                              (PIL.JPEG_MAX_DIMENSION <? height out)
                      then error_response resp 500
                      else resp = {| status := 200; mimetype := "image/jpeg";
                                     body := File (JPEG 95) (PIL.convert_image out RGB)
                                               "watermarked_image.jpg" |}
                | (Raise _, _) => error_response resp 500
                end
            end
      end
  end.
Proof.
  intros resp. subst resp. unfold watermark_image, check_logo.
  destruct logo_file as [| | data];
    try (split; [reflexivity | split; [reflexivity | eexists; reflexivity]]).
  cbn [negb].
  destruct (requests_get (String c u')) as [| | code content] eqn:Hg.
  - rewrite (bind_raise _ _ _ _ _ (download_image_fails requests_get (String c u')
               ltac:(rewrite Hg; exact I))).
    split; [reflexivity | split; [reflexivity | eexists; reflexivity]].
  - rewrite (bind_raise _ _ _ _ _ (download_image_fails requests_get (String c u')
               ltac:(rewrite Hg; exact I))).
    split; [reflexivity | split; [reflexivity | eexists; reflexivity]].
  - destruct ((400 <=? code) && (code <? 600)) eqn:Ec.
    + apply andb_true_iff in Ec as [E1 E2].
      apply Z.leb_le in E1. apply Z.ltb_lt in E2.
      rewrite (bind_raise _ _ _ _ _ (download_image_fails requests_get (String c u')
                 ltac:(rewrite Hg; simpl; lia))).
      split; [reflexivity | split; [reflexivity | eexists; reflexivity]].
    + assert (Hc : ~ 400 <= code < 600).
      { intros [H1 H2]. apply Z.leb_le in H1. apply Z.ltb_lt in H2.
        rewrite H1, H2 in Ec. discriminate Ec. }
      destruct content as [| img].
      * rewrite (bind_raise _ _ _ _ _ (download_image_not_an_image _ _ _ Hg Hc)).
        split; [reflexivity | split; [reflexivity | eexists; reflexivity]].
      * rewrite (bind_ok _ _ _ _ _ (download_image_decodes _ _ _ _ Hg Hc)).
        rewrite bind_run.
        destruct (apply_diagonal_watermark lanczos rotate_size bicubic
                    (Verified data) 0%nat [img]) as [[r | e] h'] eqn:Ep.
        -- destruct (pipeline_result _ _ _ _ [img] _ 0%nat _ img eq_refl Ep)
             as (out & Hout & Hsize).
           exists out. split; [exact Hout |].
           split; [unfold size; destruct Hsize as [-> ->]; reflexivity |].
           destruct (Py.endswith_any (Py.lower (String c u')) _).
           ++ rewrite bind_run, (save_png_run _ _ _ Hout). reflexivity.
           ++ rewrite bind_run, (convert_run _ _ _ RGB Hout).
              rewrite bind_run, (save_jpeg_run _ _ _ 95 (alloc_lookup _ _)).
              cbn [PIL.convert_image width height].
              destruct ((PIL.JPEG_MAX_DIMENSION <? width out) ||
                        (PIL.JPEG_MAX_DIMENSION <? height out)).
              ** split; [reflexivity | split; [reflexivity | eexists; reflexivity]].
              ** reflexivity.
        -- pose proof (nre_apply_diagonal_watermark _ _ _ _ _ _ _ _ Ep) as Hne.
           destruct e; try contradiction;
             (split; [reflexivity | split; [reflexivity | eexists; reflexivity]]).
Qed.

(** C7, as the code has it: the checks run in a fixed order (url,
    logo, download, processing, encoding), so an earlier failure hides
    a later one.  The status is 400 exactly when the url is missing or
    empty, or the logo passes its check and the download raises a
    requests exception (no connection, timeout, HTTP status 4xx or
    5xx); it is 500 exactly when a url is given and either the logo is
    absent or undecodable, or the download completes and a processing
    step fails, or the pipeline returns and the encoder refuses its
    result.  Both come with a JSON error payload. *)
Theorem watermark_image_status (url : option string) :
  let resp := handler url in
  let logo_unavailable := logo_file = Missing \/ logo_file = Invalid in
  (status resp = 400 <->
     url_missing url \/
     exists u, url = Some u /\ ~ logo_unavailable /\
               download_fails (requests_get u)) /\
  (status resp = 500 <->
     exists u, url = Some u /\ u <> EmptyString /\
       (logo_unavailable \/
        (~ download_fails (requests_get u) /\
         (processing_fails pipeline (requests_get u) \/
          encoding_fails pipeline u (requests_get u))))) /\
  (status resp = 400 \/ status resp = 500 -> error_response resp (status resp)).
Proof.
  unfold url_missing. destruct url as [[| c u'] |]; cbv zeta.
  - (* url is the empty string *)
    split; [| split].
    + split; [intros _; left; right; reflexivity | reflexivity].
    + split; [discriminate |]. intros (u & Hu & Hne & _). congruence.
    + intros _. split; [reflexivity | split; [reflexivity | eexists; reflexivity]].
  - (* a url is given *)
    generalize (handler_cases c u'). cbv zeta.
    set (resp := handler (Some (String c u'))). clearbody resp.
    set (u := String c u').
    assert (Hu : forall v, Some u = Some v -> v = u) by (intros v E; congruence).
    assert (Hne : u <> EmptyString) by discriminate.
    clearbody u.
    destruct logo_file as [| | data] eqn:Hlogo.
    + intros (Hs & Hm & Hb). rewrite Hs.
      split; [| split].
      * split; [discriminate |].
        intros [[E | E] | (v & _ & Hl & _)]; [discriminate E | congruence |].
        exfalso. apply Hl. left. reflexivity.
      * split; [| reflexivity]. intros _. exists u. auto.
      * intros _. split; [exact Hs | split; assumption].
    + intros (Hs & Hm & Hb). rewrite Hs.
      split; [| split].
      * split; [discriminate |].
        intros [[E | E] | (v & _ & Hl & _)]; [discriminate E | congruence |].
        exfalso. apply Hl. right. reflexivity.
      * split; [| reflexivity]. intros _. exists u. auto.
      * intros _. split; [exact Hs | split; assumption].
    + assert (Hok : ~ (Verified data = Missing \/ Verified data = Invalid))
        by (intros [E | E]; discriminate E).
      destruct (requests_get u) as [| | code content] eqn:Hg.
      * intros (Hs & Hm & Hb). rewrite Hs.
        split; [| split].
        -- split; [| reflexivity]. intros _. right. exists u.
           rewrite Hg. simpl. auto.
        -- split; [discriminate |].
           intros (v & E & _ & [Hl | [Hd _]]); [contradiction |].
           apply Hu in E. subst v. rewrite Hg in Hd. simpl in Hd. tauto.
        -- intros _. split; [exact Hs | split; assumption].
      * intros (Hs & Hm & Hb). rewrite Hs.
        split; [| split].
        -- split; [| reflexivity]. intros _. right. exists u.
           rewrite Hg. simpl. auto.
        -- split; [discriminate |].
           intros (v & E & _ & [Hl | [Hd _]]); [contradiction |].
           apply Hu in E. subst v. rewrite Hg in Hd. simpl in Hd. tauto.
        -- intros _. split; [exact Hs | split; assumption].
      * destruct ((400 <=? code) && (code <? 600)) eqn:Ec.
        -- apply andb_true_iff in Ec as [E1 E2].
           apply Z.leb_le in E1. apply Z.ltb_lt in E2.
           intros (Hs & Hm & Hb). rewrite Hs.
           split; [| split].
           ++ split; [| reflexivity]. intros _. right. exists u.
              rewrite Hg. simpl. auto.
           ++ split; [discriminate |].
              intros (v & E & _ & [Hl | [Hd _]]); [contradiction |].
              apply Hu in E. subst v. rewrite Hg in Hd. simpl in Hd. tauto.
           ++ intros _. split; [exact Hs | split; assumption].
        -- assert (Hc : ~ 400 <= code < 600).
           { intros [H1 H2]. apply Z.leb_le in H1. apply Z.ltb_lt in H2.
             rewrite H1, H2 in Ec. discriminate Ec. }
           assert (Hno400 :
             ~ ((Some u = None \/ Some u = Some EmptyString) \/
                exists v, Some u = Some v /\
                  ~ (Verified data = Missing \/ Verified data = Invalid) /\
                  download_fails (requests_get v))).
           { intros [[E | E] | (v & E & _ & Hd)]; [discriminate E | congruence |].
             apply Hu in E. subst v. rewrite Hg in Hd. simpl in Hd. tauto. }
           destruct content as [| img].
           ++ intros (Hs & Hm & Hb). rewrite Hs.
              split; [| split].
              ** split; [discriminate | intros C; contradiction].
              ** split; [| reflexivity]. intros _. exists u.
                 split; [reflexivity |]. split; [exact Hne |]. right.
                 rewrite Hg. simpl. auto.
              ** intros _. split; [exact Hs | split; assumption].
           ++ destruct (apply_diagonal_watermark lanczos rotate_size bicubic
                          (Verified data) 0%nat [img]) as [[r | e] h'] eqn:Ep.
              ** intros (out & Hout & _ & Hresp).
                 assert (Hsame : forall r0 h0 out0,
                           (Ok r, h') = (Ok r0, h0) -> h0 !! r0 = Some out0 ->
                           out0 = out).
                 { intros r0 h0 out0 E H0. inversion E; subst r0 h0. congruence. }
                 destruct (Py.endswith_any (Py.lower u) _) eqn:Epng.
                 { (* sent as PNG *)
                   subst resp. cbn [status].
                   split; [| split].
                   - split; [discriminate | intros C; contradiction].
                   - split; [discriminate |].
                     intros (v & E & _ & [Hl | [_ [Hp | Hp]]]); [contradiction | |];
                       apply Hu in E; subst v; rewrite Hg in Hp;
                       cbv beta iota delta [processing_fails encoding_fails] in Hp.
                     + destruct Hp as (e & h'' & Hp). rewrite Ep in Hp. discriminate Hp.
                     + destruct Hp as (r0 & h0 & out0 & _ & _ & Hf & _). congruence.
                   - intros [C | C]; discriminate C. }
                 destruct ((PIL.JPEG_MAX_DIMENSION <? width out) ||
                           (PIL.JPEG_MAX_DIMENSION <? height out)) eqn:Ebig.
                 { (* the encoder refuses the image *)
                   destruct Hresp as (Hs & Hm & Hb). rewrite Hs.
                   split; [| split].
                   - split; [discriminate | intros C; contradiction].
                   - split; [| reflexivity]. intros _. exists u.
                     split; [reflexivity |]. split; [exact Hne |]. right.
                     rewrite Hg. split; [exact Hc |]. right.
                     exists r, h', out.
                     split; [exact Ep |]. split; [exact Hout |].
                     split; [exact Epng |].
                     apply orb_true_iff in Ebig as [B | B];
                       apply Z.ltb_lt in B; auto.
                   - intros _. split; [exact Hs | split; assumption]. }
                 { (* sent as JPEG *)
                   subst resp. cbn [status].
                   split; [| split].
                   - split; [discriminate | intros C; contradiction].
                   - split; [discriminate |].
                     intros (v & E & _ & [Hl | [_ [Hp | Hp]]]); [contradiction | |];
                       apply Hu in E; subst v; rewrite Hg in Hp;
                       cbv beta iota delta [processing_fails encoding_fails] in Hp.
                     + destruct Hp as (e & h'' & Hp). rewrite Ep in Hp. discriminate Hp.
                     + destruct Hp as (r0 & h0 & out0 & E0 & H0 & _ & Hf).
                       rewrite Ep in E0. rewrite (Hsame _ _ _ E0 H0) in Hf.
                       apply orb_false_iff in Ebig as [B1 B2].
                       apply Z.ltb_ge in B1. apply Z.ltb_ge in B2. lia.
                   - intros [C | C]; discriminate C. }
              ** intros (Hs & Hm & Hb). rewrite Hs.
                 split; [| split].
                 --- split; [discriminate | intros C; contradiction].
                 --- split; [| reflexivity]. intros _. exists u.
                     split; [reflexivity |]. split; [exact Hne |]. right.
                     rewrite Hg. simpl. split; [exact Hc |]. left.
                     exists e, h'. exact Ep.
                 --- intros _. split; [exact Hs | split; assumption].
  - (* no url parameter *)
    split; [| split].
    + split; [intros _; left; left; reflexivity | reflexivity].
    + split; [discriminate |]. intros (u & Hu & _). discriminate Hu.
    + intros _. split; [reflexivity | split; [reflexivity | eexists; reflexivity]].
Qed.


(** C10: when the logo file exists but does not decode, [/health]
    still reports [logo_exists] as true (it tests existence only),
    while [/watermark] answers 500 to every url whose download
    completes: [logo_exists: true] does not imply that a watermark
    request can succeed. *)
Theorem undecodable_logo_health_true_watermark_500 :
  logo_file = Invalid \/ logo_file = Verified None ->
  body (health_check logo_file) = Json_health "healthy" true /\
  forall u, u <> EmptyString -> ~ download_fails (requests_get u) ->
    error_response (handler (Some u)) 500.
Proof.
  intros Hlogo. split.
  - unfold health_check. destruct Hlogo as [-> | ->]; reflexivity.
  - intros [| c u'] Hne Hd; [contradiction |].
    generalize (handler_cases c u'). cbv zeta.
    set (resp := handler (Some (String c u'))). clearbody resp.
    destruct Hlogo as [-> | ->]; [auto |].
    destruct (requests_get (String c u')) as [| | code content];
      [simpl in Hd; tauto | simpl in Hd; tauto |].
    simpl in Hd.
    destruct ((400 <=? code) && (code <? 600)) eqn:Ec.
    { apply andb_true_iff in Ec as [E1 E2].
      apply Z.leb_le in E1. apply Z.ltb_lt in E2. lia. }
    destruct content as [| img]; [auto |].
    assert (Ep : apply_diagonal_watermark lanczos rotate_size bicubic
                   (Verified None) 0%nat [img]
                 = (Raise OSError, [img; PIL.convert_image img RGBA]))
      by reflexivity.
    rewrite Ep. auto.
Qed.

End Handler.

(** * The statements on concrete inputs *)

Lemma pair_of_fst {A B} (p : A * B) (a : A) : fst p = a -> p = (a, snd p).
Proof. intros <-. destruct p; reflexivity. Qed.

Lemma solid_wf (m : mode_t) (w h : Z) (p : pixel) :
  0 <= w -> 0 <= h -> u8_pixel p -> wf_image (solid m w h p).
Proof. intros Hw Hh Hp. split; [exact Hw |]. split; [exact Hh |]. intros x y _. exact Hp. Qed.

Lemma sample_pixel_u8 : u8_pixel (Pixel 10 20 30 255).
Proof. unfold u8_pixel, u8. simpl. lia. Qed.

(** C3: the code overwrites the buffer it is given.  Called with the
    opacity of the application on a one-pixel opaque logo, it returns the
    reference it received, allocates no new buffer, and the caller's
    buffer now has alpha 204 where it had 255; the comment in the code
    announces a new image. *)
Theorem adjust_opacity_overwrites_argument :
  let logo := solid RGBA 1 1 (Pixel 10 20 30 255) in
  exists h' out,
    adjust_opacity 0%nat WATERMARK_OPACITY [logo] = (Ok 0%nat, h') /\
    length h' = 1%nat /\
    h' !! 0%nat = Some out /\
    pa (getpixel logo 0 0) = 255 /\
    pa (getpixel out 0 0) = 204.
Proof.
  cbv zeta.
  pose proof (adjust_opacity_run [solid RGBA 1 1 (Pixel 10 20 30 255)] 0%nat _
                WATERMARK_OPACITY eq_refl eq_refl eq_refl) as E.
  eexists. eexists.
  split; [exact E |].
  split; [reflexivity |].
  split; [reflexivity |].
  split; reflexivity.
Qed.

Lemma apply_diagonal_watermark_size_witness :
  exists out,
    snd (apply_diagonal_watermark sample_lanczos sample_rotate_size sample_bicubic
           (Verified (Some sample_logo)) 0%nat [sample_photo]) !! 7%nat = Some out /\
    width out = width sample_photo /\ height out = height sample_photo.
Proof.
  apply (apply_diagonal_watermark_size sample_lanczos sample_rotate_size
           sample_bicubic (Verified (Some sample_logo)) [sample_photo] _ 0%nat 7%nat
           sample_photo).
  - reflexivity.
  - apply pair_of_fst. vm_compute. reflexivity.
Defined.

(** The claim C2 fails on this input: a 4 by 4 tile on a 10 by 10 canvas
    is pasted at (-2, -2), an origin outside the canvas. *)
Lemma paste_at_negative_origin :
  paste_origins 10 10 4 4 =
    Ok [(-2, -2); (1, -2); (4, -2); (7, -2);
        (-2, 1); (1, 1); (4, 1); (7, 1);
        (-2, 4); (1, 4); (4, 4); (7, 4);
        (-2, 7); (1, 7); (4, 7); (7, 7)] /\
  ~ (0 <= -2 < 10 /\ 0 <= -2 < 10).
Proof. split; [vm_compute; reflexivity | lia]. Qed.

Lemma paste_origins_spec_witness :
  exists l,
    paste_origins 10 10 4 4 = Ok l /\
    (forall (S : Type) (act : Z -> Z -> St S unit) (s : S),
       tiling_loop 10 10 4 4 act s = for_each_pair l act s) /\
    (forall x y,
       In (x, y) l <->
       (exists i, 0 <= i /\ x = (- 4) / 2 + i * Py.int (inject_Z 4 * (8 # 10))) /\
       (exists j, 0 <= j /\ y = (- 4) / 2 + j * Py.int (inject_Z 4 * (8 # 10))) /\
       x < 10 /\ y < 10) /\
    (0 < 10 -> 0 < 10 ->
     In ((- 4) / 2, (- 4) / 2) l /\ (- 4) / 2 < 0 /\ (- 4) / 2 < 0).
Proof. apply (paste_origins_spec 10 10 4 4); lia. Defined.

Lemma adjust_opacity_scales_alpha_witness :
  exists h' out,
    adjust_opacity 0%nat (8 # 10) [sample_logo] = (Ok 0%nat, h') /\
    h' !! 0%nat = Some out /\
    mode out = RGBA /\ size out = size sample_logo /\
    (forall x y,
       pr (getpixel out x y) = pr (getpixel sample_logo x y) /\
       pg (getpixel out x y) = pg (getpixel sample_logo x y) /\
       pb (getpixel out x y) = pb (getpixel sample_logo x y)) /\
    ((8 # 10 <= 1)%Q ->
     forall x y, in_bounds sample_logo x y ->
       let a := pa (getpixel sample_logo x y) in
       pa (getpixel out x y) =
         Py.int (Float.fl32 (Float.fl32 (8 # 10) * inject_Z a)) /\
       0 <= pa (getpixel out x y) <= a /\
       Qfloor ((8 # 10) * inject_Z a - (1 # 32768)) <= pa (getpixel out x y) /\
       pa (getpixel out x y) <= Qfloor ((8 # 10) * inject_Z a + (1 # 32768))) /\
    ((1 <= 8 # 10)%Q -> h' = [sample_logo] /\ out = sample_logo) /\
    ((8 # 10 == 0)%Q ->
     forall x y, in_bounds sample_logo x y -> pa (getpixel out x y) = 0).
Proof.
  apply (adjust_opacity_scales_alpha [sample_logo] 0%nat sample_logo (8 # 10)).
  - reflexivity.
  - reflexivity.
  - apply solid_wf; [lia | lia | exact sample_pixel_u8].
  - unfold Qle. simpl. lia.
Defined.

(** The claim C4 fails on this input: with the factor 0.53 an alpha
    value of 100 becomes 52.  The factor, a binary64 number just above
    53/100, times 100 is just above 53, and 53 is what the claim gives
    whether the product is truncated or rounded; the blend narrows the
    factor to binary32, just below 53/100, and truncates a
    single-precision product below 53. *)
Lemma opacity_053_of_100_is_52 :
  let img := solid RGBA 1 1 (Pixel 10 20 30 100) in
  let opacity := Float.fl64 (53 # 100) in
  (0 <= opacity)%Q /\ (opacity <= 1)%Q /\
  Qfloor (opacity * inject_Z 100) = 53 /\
  Float.rne (opacity * inject_Z 100) = 53 /\
  exists h' out,
    adjust_opacity 0%nat opacity [img] = (Ok 0%nat, h') /\
    h' !! 0%nat = Some out /\
    pa (getpixel img 0 0) = 100 /\
    pa (getpixel out 0 0) = 52.
Proof.
  cbv zeta.
  split; [vm_compute; discriminate |]. split; [vm_compute; discriminate |].
  split; [vm_compute; reflexivity |]. split; [vm_compute; reflexivity |].
  pose proof (adjust_opacity_run [solid RGBA 1 1 (Pixel 10 20 30 100)] 0%nat _
                (Float.fl64 (53 # 100)) eq_refl eq_refl ltac:(vm_compute; reflexivity))
    as E.
  eexists. eexists.
  split; [exact E |].
  split; [reflexivity |].
  split; [reflexivity |].
  vm_compute. reflexivity.
Qed.

(** A factor just below 1 is 1 in single precision, and the blend
    copies the alpha band: 255 stays 255, where the product with
    0.99999999 is below 255. *)
Lemma opacity_near_one_keeps_alpha :
  let opacity := Float.fl64 (99999999 # 100000000) in
  Qle_bool 1 opacity = false /\
  Float.fl32 opacity = 1%Q /\
  Qfloor (opacity * inject_Z 255) = 254 /\
  PIL.blend_value 0 255 opacity = 255.
Proof. cbv zeta. repeat split; vm_compute; reflexivity. Qed.

(** The claim C5 fails on this input: a 200 by 1 image resized with
    target 50 gets the height int(1 * 0.25) = 0, nothing raises it to
    1, and the resize raises instead of returning an image. *)
Lemma resize_flat_image_raises :
  let img := solid RGBA 200 1 (Pixel 10 20 30 255) in
  let ratio := Qmin (Float.fl64 (inject_Z 50 / inject_Z 200))
                    (Float.fl64 (inject_Z 50 / inject_Z 1)) in
  Py.int (Py.mul_int_float 200 ratio) = 50 /\
  Py.int (Py.mul_int_float 1 ratio) = 0 /\
  resize_proportional sample_lanczos 0%nat 50 [img] = (Raise ValueError, [img]).
Proof. cbv zeta. split; [| split]; vm_compute; reflexivity. Qed.

(** A pixel lost to rounding: 1/49 rounds down in binary64, 49 times
    the rounded quotient rounds to the float just below 1, and a 49 by
    49 image resized with target 1 is asked to become 0 by 0, where the
    product of the rationals is 1. *)
Lemma resize_square_49_to_1_raises :
  let img := solid RGBA 49 49 (Pixel 10 20 30 255) in
  let ratio := Qmin (Float.fl64 (inject_Z 1 / inject_Z 49))
                    (Float.fl64 (inject_Z 1 / inject_Z 49)) in
  Qfloor (inject_Z 49 * (inject_Z 1 / inject_Z 49)) = 1 /\
  Py.int (Py.mul_int_float 49 ratio) = 0 /\
  resize_proportional sample_lanczos 0%nat 1 [img] = (Raise ValueError, [img]).
Proof. cbv zeta. split; [| split]; vm_compute; reflexivity. Qed.

(** Likewise an 11 by 11 image resized with target 15 comes out 14 by
    14. *)
Lemma resize_square_11_to_15_gives_14 :
  let img := solid RGBA 11 11 (Pixel 10 20 30 255) in
  exists out,
    resize_proportional sample_lanczos 0%nat 15 [img] = (Ok 1%nat, [img; out]) /\
    width out = 14 /\ height out = 14.
Proof. cbv zeta. eexists. split; [vm_compute; reflexivity |]. split; reflexivity. Qed.

(** And the logo of 100 by 100 pixels on a photo whose shorter side is
    145 pixels: the watermark size is int(145 * 0.20) = 29, and the logo
    comes out 28 by 28. *)
Lemma resize_square_100_to_29_gives_28 :
  let img := solid RGBA 100 100 (Pixel 10 20 30 255) in
  Py.int (inject_Z 145 * WATERMARK_SCALE) = 29 /\
  exists out,
    resize_proportional sample_lanczos 0%nat 29 [img] = (Ok 1%nat, [img; out]) /\
    width out = 28 /\ height out = 28.
Proof.
  cbv zeta. split; [vm_compute; reflexivity |].
  eexists. split; [vm_compute; reflexivity |]. split; reflexivity.
Qed.

Lemma resize_proportional_dims_witness :
  let img := solid RGBA 200 100 (Pixel 10 20 30 255) in
  exists out,
    resize_proportional sample_lanczos 0%nat 50 [img] = (Ok 1%nat, [img; out]) /\
    mode out = RGBA /\ width out = 50 /\ height out = 25.
Proof.
  cbv zeta.
  apply (proj1 (proj2 (resize_proportional_dims sample_lanczos
                         [solid RGBA 200 100 (Pixel 10 20 30 255)] 0%nat
                         (solid RGBA 200 100 (Pixel 10 20 30 255)) 50
                         eq_refl ltac:(simpl; lia) ltac:(simpl; lia)))).
  - vm_compute. discriminate.
  - vm_compute. discriminate.
Defined.

Lemma create_tiled_pattern_alpha_ge_base_witness :
  let base := solid RGBA 6 6 (Pixel 200 150 100 128) in
  exists out,
    snd (create_tiled_pattern 0%nat 1%nat [base; sample_logo]) !! 3%nat = Some out /\
    size out = size base /\
    forall x y, in_bounds base x y ->
      pa (getpixel base x y) <= pa (getpixel out x y) /\
      (pa (getpixel base x y) = 255 -> pa (getpixel out x y) = 255).
Proof.
  cbv zeta.
  apply (create_tiled_pattern_alpha_ge_base
           [solid RGBA 6 6 (Pixel 200 150 100 128); sample_logo] _
           0%nat 1%nat 3%nat _ sample_logo).
  - reflexivity.
  - reflexivity.
  - apply solid_wf; [lia | lia | unfold u8_pixel, u8; simpl; lia].
  - apply solid_wf; [lia | lia | exact sample_pixel_u8].
  - apply pair_of_fst. vm_compute. reflexivity.
Defined.

Lemma create_tiled_pattern_total_iff_witness :
  let base := solid RGBA 6 6 (Pixel 200 150 100 128) in
  let tile := solid RGBA 1 4 (Pixel 10 20 30 255) in
  (width tile <= 1 \/ height tile <= 1 ->
   Py.int (inject_Z (width tile) * (8 # 10)) = 0 \/
   Py.int (inject_Z (height tile) * (8 # 10)) = 0) /\
  (width tile <= 1 \/ height tile <= 1 ->
   exists h', create_tiled_pattern 0%nat 1%nat [base; tile] = (Raise ValueError, h')) /\
  ((exists r h', create_tiled_pattern 0%nat 1%nat [base; tile] = (Ok r, h')) <->
   2 <= width tile /\ 2 <= height tile).
Proof.
  cbv zeta.
  apply (create_tiled_pattern_total_iff
           [solid RGBA 6 6 (Pixel 200 150 100 128); solid RGBA 1 4 (Pixel 10 20 30 255)]
           0%nat 1%nat
           (solid RGBA 6 6 (Pixel 200 150 100 128))
           (solid RGBA 1 4 (Pixel 10 20 30 255))).
  - reflexivity.
  - reflexivity.
  - apply solid_wf; [lia | lia | unfold u8_pixel, u8; simpl; lia].
  - apply solid_wf; [lia | lia | exact sample_pixel_u8].
  - reflexivity.
  - reflexivity.
Defined.

(** The claim C7 fails on this input: with the logo file absent and no
    url in the request, the status is 400, not the 500 claimed for an
    absent logo. *)
Lemma missing_url_hides_absent_logo :
  let resp := watermark_image sample_lanczos sample_rotate_size sample_bicubic
                Missing sample_server None in
  check_logo Missing = false /\ status resp = 400 /\ status resp <> 500.
Proof. cbv zeta. split; [reflexivity |]. split; [reflexivity | discriminate]. Qed.


(** The encoder's limit: a photo 66000 pixels wide is watermarked, and
    the answer to a url that asks for a JPEG is 500, while the same
    photo under a .png url is sent. *)
Lemma oversized_jpeg_answers_500 :
  let wide := solid RGB 66000 1000 (Pixel 200 150 100 255) in
  let server := fun _ : string => Response 200 (Decodes wide) in
  let handler := watermark_image sample_lanczos sample_rotate_size sample_bicubic
                   (Verified (Some sample_logo)) server in
  error_response (handler (Some "http://example.com/wide.jpg"%string)) 500 /\
  status (handler (Some "http://example.com/wide.png"%string)) = 200.
Proof.
  cbv zeta. split.
  - split; [vm_compute; reflexivity |].
    split; [vm_compute; reflexivity |]. eexists. vm_compute. reflexivity.
  - vm_compute. reflexivity.
Qed.

Lemma undecodable_logo_health_true_watermark_500_witness :
  body (health_check Invalid) = Json_health "healthy" true /\
  forall u, u <> EmptyString -> ~ download_fails (sample_server u) ->
    error_response
      (watermark_image sample_lanczos sample_rotate_size sample_bicubic
         Invalid sample_server (Some u)) 500.
Proof.
  apply (undecodable_logo_health_true_watermark_500 sample_lanczos
           sample_rotate_size sample_bicubic Invalid sample_server).
  left. reflexivity.
Defined.

(** * Further properties of the code *)

(** ** What the image functions leave untouched *)

Lemma frame_ret {A} (n : nat) (a : A) (post : A -> Prop) :
  post a -> frame n (mret a) post.
Proof.
  intros Hp h res h' Hn E. inversion E; subst.
  split; [exact Hn |]. split; [reflexivity |].
  intros a' Ea. inversion Ea; subst. exact Hp.
Qed.

Lemma frame_raise {A} (n : nat) (e : exn) (post : A -> Prop) :
  frame n (raise e) post.
Proof.
  intros h res h' Hn E. inversion E; subst.
  split; [exact Hn |]. split; [reflexivity |]. intros a Ea. discriminate Ea.
Qed.

Lemma frame_lift {A} (n : nat) (r : result A) (post : A -> Prop) :
  (forall a, r = Ok a -> post a) -> frame n (lift r) post.
Proof.
  intros Hp h res h' Hn E. inversion E; subst.
  split; [exact Hn |]. split; [reflexivity | exact Hp].
Qed.

Lemma frame_bind {A B} (n : nat) (m : St heap A) (k : A -> St heap B)
    (P : A -> Prop) (Q : B -> Prop) :
  frame n m P -> (forall a, P a -> frame n (k a) Q) -> frame n (m ≫= k) Q.
Proof.
  intros Hm Hk h res h' Hn. rewrite bind_run.
  destruct (m h) as [[a | e] h1] eqn:Em.
  - destruct (Hm _ _ _ Hn Em) as (Hn1 & Hold1 & Hpost).
    intros Ek.
    destruct (Hk a (Hpost a eq_refl) _ _ _ Hn1 Ek) as (Hn2 & Hold2 & Hq).
    split; [exact Hn2 |]. split; [| exact Hq].
    intros r Hr. rewrite Hold2, Hold1 by exact Hr. reflexivity.
  - intros E. inversion E; subst.
    destruct (Hm _ _ _ Hn Em) as (Hn1 & Hold1 & _).
    split; [exact Hn1 |]. split; [exact Hold1 |]. intros a Ea. discriminate Ea.
Qed.

Lemma frame_weaken {A} (n : nat) (m : St heap A) (P Q : A -> Prop) :
  frame n m P -> (forall a, P a -> Q a) -> frame n m Q.
Proof.
  intros Hm HPQ h res h' Hn E. destruct (Hm _ _ _ Hn E) as (H1 & H2 & H3).
  split; [exact H1 |]. split; [exact H2 |]. intros a Ea. apply HPQ, H3, Ea.
Qed.

Lemma frame_alloc (n : nat) (img : image) :
  frame n (alloc img) (fun r => (n <= r)%nat).
Proof.
  intros h res h' Hn E. inversion E; subst.
  split; [rewrite length_app; simpl; lia |].
  split.
  - intros r Hr. apply lookup_app_l. lia.
  - intros a Ea. inversion Ea; subst. exact Hn.
Qed.

Lemma frame_deref (n : nat) (r : ref) : frame n (deref r) (fun _ => True).
Proof.
  intros h res h' Hn. unfold deref.
  destruct (h !! r); intros E; inversion E; subst; auto.
Qed.

Lemma frame_update (n : nat) (r : ref) (img : image) :
  (n <= r)%nat -> frame n (update r img) (fun _ => True).
Proof.
  intros Hr h res h' Hn E. inversion E; subst.
  split; [rewrite length_insert; exact Hn |].
  split; [| auto].
  intros q Hq. apply list_lookup_insert_ne. lia.
Qed.

Lemma frame_for_each (n : nat) (xs : list Z) (body : Z -> St heap unit) :
  (forall x, frame n (body x) (fun _ => True)) ->
  frame n (for_each xs body) (fun _ => True).
Proof.
  intros Hb. induction xs as [| x xs IH]; simpl.
  - apply frame_ret. exact I.
  - eapply frame_bind; [apply Hb | intros _ _; exact IH].
Qed.

Lemma frame_paste (n : nat) (self im mask : ref) (box : Z * Z) :
  (n <= self)%nat -> frame n (PIL.paste self im box mask) (fun _ => True).
Proof.
  intros Hs. unfold PIL.paste.
  eapply frame_bind; [apply frame_deref | intros dst _].
  eapply frame_bind; [apply frame_deref | intros src _].
  eapply frame_bind; [apply frame_deref | intros msk _].
  cbv zeta. destruct (negb _); [apply frame_raise |].
  destruct (_ || _); [apply frame_ret; exact I |].
  destruct (mode msk); [apply frame_raise | apply frame_update; exact Hs].
Qed.

Lemma frame_tiling_loop (n : nat) (W H tw th : Z) (act : Z -> Z -> St heap unit) :
  (forall x y, frame n (act x y) (fun _ => True)) ->
  frame n (tiling_loop W H tw th act) (fun _ => True).
Proof.
  intros Hact. unfold tiling_loop.
  eapply frame_bind; [apply frame_lift; intros; exact I | intros ys _].
  apply frame_for_each. intros y.
  eapply frame_bind; [apply frame_lift; intros; exact I | intros xs _].
  apply frame_for_each. intros x. cbv zeta.
  destruct ((x <? W) && (y <? H)); [apply Hact | apply frame_ret; exact I].
Qed.

Lemma frame_new (n : nat) (m : mode_t) (sz : Z * Z) (color : pixel) :
  frame n (PIL.new m sz color) (fun r => (n <= r)%nat).
Proof.
  unfold PIL.new. destruct ((sz.1 <? 0) || (sz.2 <? 0));
    [apply frame_raise | apply frame_alloc].
Qed.

Lemma frame_alpha_composite (n : nat) (im1 im2 : ref) :
  frame n (PIL.alpha_composite im1 im2) (fun r => (n <= r)%nat).
Proof.
  unfold PIL.alpha_composite.
  eapply frame_bind; [apply frame_deref | intros dst _].
  eapply frame_bind; [apply frame_deref | intros src _].
  destruct (mode dst); [apply frame_raise |].
  destruct (mode src); [apply frame_raise |].
  destruct (negb _); [apply frame_raise | apply frame_alloc].
Qed.

Lemma frame_convert (n : nat) (r : ref) (m : mode_t) :
  frame n (PIL.convert r m) (fun r' => (n <= r')%nat).
Proof.
  unfold PIL.convert.
  eapply frame_bind; [apply frame_deref | intros img _]. apply frame_alloc.
Qed.

Lemma frame_create_tiled_pattern (n : nat) (b t : ref) :
  frame n (create_tiled_pattern b t) (fun r => (n <= r)%nat).
Proof.
  unfold create_tiled_pattern.
  eapply frame_bind; [apply frame_deref | intros base _].
  eapply frame_bind; [apply frame_new | intros layer Hl].
  eapply frame_bind; [apply frame_deref | intros tile _].
  eapply frame_bind.
  - apply frame_tiling_loop. intros x y. apply frame_paste. exact Hl.
  - intros _ _.
    eapply frame_bind; [apply frame_alpha_composite | intros r Hr].
    apply frame_ret. exact Hr.
Qed.

Lemma frame_adjust_opacity (n : nat) (r : ref) (opacity : Q) :
  (n <= r)%nat -> frame n (adjust_opacity r opacity) (fun r' => (n <= r')%nat).
Proof.
  intros Hr. unfold adjust_opacity.
  destruct (Qle_bool 1 opacity); [apply frame_ret; exact Hr |].
  eapply frame_bind with (P := fun _ => True).
  - unfold PIL.split_3.
    eapply frame_bind; [apply frame_deref | intros img _].
    destruct (mode img); [apply frame_raise | apply frame_ret; exact I].
  - intros alpha _. cbv zeta.
    eapply frame_bind with (P := fun _ => True).
    + unfold PIL.putalpha.
      eapply frame_bind; [apply frame_deref | intros img _].
      destruct (negb _); [apply frame_raise | apply frame_update; exact Hr].
    + intros _ _. apply frame_ret. exact Hr.
Qed.

(** X1: [create_tiled_pattern] never modifies a buffer that exists when
    it is called (the base image and the tile among them), whether it
    returns or raises; what it returns is a new object. *)
Theorem create_tiled_pattern_keeps_heap (h h' : heap) (b t : ref)
    (res : result ref) :
  create_tiled_pattern b t h = (res, h') ->
  (length h <= length h')%nat /\
  (forall r, (r < length h)%nat -> h' !! r = h !! r) /\
  (forall r, res = Ok r -> (length h <= r)%nat).
Proof.
  intros E.
  exact (frame_create_tiled_pattern (length h) b t h res h' (le_n _) E).
Qed.

Section PipelineFrame.

Variable lanczos : image -> Z * Z -> Z -> Z -> pixel.
Variable rotate_size : Z -> Z * Z -> Z * Z.
Variable bicubic : Z -> image -> Z -> Z -> pixel.
Variable logo_file : logo_state.

Lemma frame_resize_proportional (n : nat) (r : ref) (target_size : Z) :
  frame n (resize_proportional lanczos r target_size) (fun r' => (n <= r')%nat).
Proof.
  unfold resize_proportional.
  eapply frame_bind; [apply frame_deref | intros img _].
  eapply frame_bind; [apply frame_lift; intros; exact I | intros rw _].
  eapply frame_bind; [apply frame_lift; intros; exact I | intros rh _].
  cbv zeta. unfold Image_resize.
  eapply frame_bind; [apply frame_deref | intros img' _].
  destruct (_ && _); [apply frame_alloc |].
  destruct (_ || _); [apply frame_raise | apply frame_alloc].
Qed.

Lemma frame_apply_diagonal_watermark (n : nat) (r : ref) :
  frame n (apply_diagonal_watermark lanczos rotate_size bicubic logo_file r)
    (fun r' => (n <= r')%nat).
Proof.
  unfold apply_diagonal_watermark.
  eapply frame_bind; [apply frame_convert | intros main_image _].
  eapply frame_bind with (P := fun r' => (n <= r')%nat).
  { unfold Image_open_logo. destruct logo_file as [| | [img |]];
      try apply frame_raise. apply frame_alloc. }
  intros logo _.
  eapply frame_bind; [apply frame_convert | intros watermark Hw].
  eapply frame_bind; [apply frame_adjust_opacity; exact Hw | intros watermark' _].
  eapply frame_bind; [apply frame_deref | intros main _].
  cbv zeta.
  eapply frame_bind; [apply frame_resize_proportional | intros resized _].
  eapply frame_bind with (P := fun r' => (n <= r')%nat).
  { unfold Image_rotate.
    eapply frame_bind; [apply frame_deref | intros img _]. apply frame_alloc. }
  intros rotated _.
  eapply frame_bind; [apply frame_create_tiled_pattern | intros out Ho].
  apply frame_ret. exact Ho.
Qed.

(** X2: [apply_diagonal_watermark] never modifies a buffer that exists
    when it is called, the source image among them, whether it returns
    or raises: the alpha channel it overwrites belongs to the copy of the
    logo it has loaded itself, and the result is a new object. *)
Theorem apply_diagonal_watermark_keeps_heap (h h' : heap) (r : ref)
    (res : result ref) :
  apply_diagonal_watermark lanczos rotate_size bicubic logo_file r h = (res, h') ->
  (length h <= length h')%nat /\
  (forall q, (q < length h)%nat -> h' !! q = h !! q) /\
  (forall r', res = Ok r' -> (length h <= r')%nat).
Proof.
  intros E.
  exact (frame_apply_diagonal_watermark (length h) r h res h' (le_n _) E).
Qed.

End PipelineFrame.

(** X3: below full opacity [adjust_opacity] works in place for every
    RGBA buffer: it returns the reference it was given, allocates
    nothing, keeps the size, and changes no other object; on a buffer
    without alpha channel it raises [IndexError] and changes nothing. *)
Theorem adjust_opacity_in_place (h : heap) (r : ref) (img : image) (opacity : Q) :
  h !! r = Some img -> ~ (1 <= opacity)%Q ->
  (mode img = RGBA ->
   exists out,
     adjust_opacity r opacity h = (Ok r, <[r := out]> h) /\
     mode out = RGBA /\ size out = size img /\
     length (<[r := out]> h) = length h /\
     forall q, q <> r -> <[r := out]> h !! q = h !! q) /\
  (mode img = RGB ->
   adjust_opacity r opacity h = (Raise IndexError, h)).
Proof.
  intros Hr Hlt.
  assert (Eb : Qle_bool 1 opacity = false).
  { destruct (Qle_bool 1 opacity) eqn:E; [| reflexivity].
    apply Qle_bool_iff in E. contradiction. }
  split.
  - intros Hm. eexists.
    split; [apply adjust_opacity_run; eassumption |].
    split; [reflexivity |]. split; [reflexivity |].
    split; [apply length_insert |].
    intros q Hq. apply list_lookup_insert_ne. congruence.
  - intros Hm. unfold adjust_opacity, PIL.split_3. rewrite Eb.
    rewrite !bind_run, (deref_some _ _ _ Hr), Hm. reflexivity.
Qed.

(** X4: two calls of [adjust_opacity] on the same buffer compound: each
    call scales, in single precision, the alpha values that the previous
    call has left, and no call raises an alpha value. *)
Theorem adjust_opacity_twice (h : heap) (r : ref) (img : image) (f g : Q) :
  h !! r = Some img -> mode img = RGBA -> wf_image img ->
  (0 <= f)%Q -> ~ (1 <= f)%Q -> (0 <= g)%Q -> ~ (1 <= g)%Q ->
  exists h1 h2 out,
    adjust_opacity r f h = (Ok r, h1) /\
    adjust_opacity r g h1 = (Ok r, h2) /\
    h2 !! r = Some out /\
    forall x y, in_bounds img x y ->
      let a := pa (getpixel img x y) in
      let a1 := Py.int (Float.fl32 (Float.fl32 f * inject_Z a)) in
      pa (getpixel out x y) = Py.int (Float.fl32 (Float.fl32 g * inject_Z a1)) /\
      0 <= pa (getpixel out x y) <= a1 /\ a1 <= a.
Proof.
  intros Hr Hm (_ & _ & Hpx) Hf0 Hf1 Hg0 Hg1.
  assert (Ef : Qle_bool 1 f = false).
  { destruct (Qle_bool 1 f) eqn:E; [| reflexivity].
    apply Qle_bool_iff in E. contradiction. }
  assert (Eg : Qle_bool 1 g = false).
  { destruct (Qle_bool 1 g) eqn:E; [| reflexivity].
    apply Qle_bool_iff in E. contradiction. }
  assert (Hf : (f <= 1)%Q) by (apply Qlt_le_weak, Qnot_le_lt; exact Hf1).
  assert (Hg : (g <= 1)%Q) by (apply Qlt_le_weak, Qnot_le_lt; exact Hg1).
  pose proof (lookup_lt_Some _ _ _ Hr) as Hlt.
  eexists. eexists. eexists.
  split; [apply (adjust_opacity_run _ _ _ _ Hr Hm Ef) |].
  split.
  { apply adjust_opacity_run;
      [apply list_lookup_insert_eq; exact Hlt | reflexivity | exact Eg]. }
  split.
  { apply list_lookup_insert_eq. rewrite length_insert. exact Hlt. }
  intros x y Hb. simpl.
  destruct (Hpx x y Hb) as (_ & _ & _ & Ha).
  pose proof (scaled_alpha_le _ f Ha Hf0 Hf) as Hfa.
  rewrite (blend_black _ f Ha Hf0 Hf).
  assert (Ha1 : 0 <= Py.int (Float.fl32 (Float.fl32 f * inject_Z (pa (getpixel img x y))))
                <= 255) by (unfold u8 in Ha; lia).
  rewrite (blend_black _ g Ha1 Hg0 Hg).
  pose proof (scaled_alpha_le _ g Ha1 Hg0 Hg) as Hga.
  split; [reflexivity |]. split; [apply Hga | apply Hfa].
Qed.

Lemma forall_u8 (P : Z -> bool) :
  forallb (fun n : nat => P (Z.of_nat n)) (seq 0 256) = true ->
  forall a, 0 <= a <= 255 -> P a = true.
Proof.
  intros H a Ha. rewrite forallb_forall in H.
  specialize (H (Z.to_nat a)). rewrite Z2Nat.id in H by lia.
  apply H. apply in_seq. lia.
Qed.

(** X17: at the configured opacity every 8-bit alpha value [a] becomes
    [a * 8 / 10] rounded down: on this factor the single-precision
    arithmetic of the blend gives what the product of the rationals
    gives, whether the factor is read as 8/10 or as the binary64 number
    that the literal [0.8] denotes. *)
Theorem configured_opacity_alpha (a : Z) :
  0 <= a <= 255 ->
  PIL.blend_value 0 a WATERMARK_OPACITY = a * 8 / 10 /\
  PIL.blend_value 0 a (Float.fl64 WATERMARK_OPACITY) = a * 8 / 10.
Proof.
  intros Ha. split.
  - apply Z.eqb_eq.
    apply (forall_u8 (fun a => PIL.blend_value 0 a WATERMARK_OPACITY =? a * 8 / 10));
      [vm_compute; reflexivity | exact Ha].
  - apply Z.eqb_eq.
    apply (forall_u8 (fun a => PIL.blend_value 0 a (Float.fl64 WATERMARK_OPACITY)
                               =? a * 8 / 10));
      [vm_compute; reflexivity | exact Ha].
Qed.

(** X18: for every size below 2^31 the products [int(tile_width * 0.8)]
    of [create_tiled_pattern] and [int(base_size * 0.20)] of
    [apply_diagonal_watermark], computed in binary64 with the literals
    rounded, are the truncated products of the rationals that this
    development uses for them. *)
Theorem literal_products_binary64 (n : Z) :
  0 <= n < 2 ^ 31 ->
  Py.int (Py.mul_int_float n (Float.fl64 (8 # 10))) = Py.int (inject_Z n * (8 # 10)) /\
  Py.int (Py.mul_int_float n (Float.fl64 WATERMARK_SCALE)) =
    Py.int (inject_Z n * WATERMARK_SCALE).
Proof.
  intros Hn. split.
  - apply spacing_binary64. exact Hn.
  - apply watermark_size_binary64. exact Hn.
Qed.

Section PipelineRuns.

Variable lanczos : image -> Z * Z -> Z -> Z -> pixel.
Variable rotate_size : Z -> Z * Z -> Z * Z.
Variable bicubic : Z -> image -> Z -> Z -> pixel.

(** X5: [resize_proportional] on an image of width or height 0 raises
    [ZeroDivisionError] for every target size, and allocates nothing. *)
Theorem resize_proportional_zero_dimension
    (h : heap) (r : ref) (img : image) (target_size : Z) :
  h !! r = Some img -> width img = 0 \/ height img = 0 ->
  resize_proportional lanczos r target_size h = (Raise ZeroDivisionError, h).
Proof.
  intros Hr Hz. unfold resize_proportional, Py.truediv.
  rewrite bind_run, (deref_some _ _ _ Hr).
  destruct (width img =? 0) eqn:Ew; [reflexivity |].
  destruct Hz as [Hz | Hz]; [apply Z.eqb_neq in Ew; contradiction |].
  rewrite Hz. reflexivity.
Qed.

(** The logo as [adjust_opacity] leaves it in the pipeline. *)
Lemma pipeline_stages (h : heap) (r : ref) (src logo : image) :
  h !! r = Some src ->
  exists adjusted,
    mode adjusted = RGBA /\ size adjusted = size logo /\
    apply_diagonal_watermark lanczos rotate_size bicubic
      (Verified (Some logo)) r h =
      (resize_proportional lanczos
         (length ((h ++ [PIL.convert_image src RGBA]) ++ [logo]))
         (Py.int (inject_Z (Z.min (width src) (height src)) * WATERMARK_SCALE))
       ≫= fun watermark =>
       Image_rotate rotate_size bicubic watermark ROTATION_ANGLE
       ≫= fun rotated_watermark =>
       create_tiled_pattern (length h) rotated_watermark
       ≫= fun watermarked => mret watermarked)
        (((h ++ [PIL.convert_image src RGBA]) ++ [logo]) ++ [adjusted]).
Proof.
  intros Hr. eexists. split; [| split]; cycle 2.
  - unfold apply_diagonal_watermark, PIL.convert, Image_open_logo.
    rewrite bind_run, bind_run, (deref_some _ _ _ Hr). simpl.
    rewrite bind_run. unfold alloc at 1.
    rewrite bind_run, bind_run.
    rewrite (deref_some _ _ _ (alloc_lookup _ logo)). simpl.
    rewrite bind_run.
    rewrite (adjust_opacity_run _ _ (PIL.convert_image logo RGBA)
               WATERMARK_OPACITY (alloc_lookup _ _) eq_refl eq_refl).
    rewrite insert_last.
    rewrite bind_run.
    rewrite (deref_some _ (length h) (PIL.convert_image src RGBA))
      by (apply alloc_keeps_lookup, alloc_keeps_lookup, alloc_lookup).
    reflexivity.
  - reflexivity.
  - reflexivity.
Qed.

(** X6: a source image whose shorter side is below 5 pixels is rejected:
    the watermark size int(side * 0.20) is 0, the resized logo would be
    0 by 0, and the pipeline raises [ValueError]. *)
Theorem pipeline_rejects_small_images (h : heap) (r : ref) (src logo : image) :
  h !! r = Some src ->
  0 <= Z.min (width src) (height src) < 5 ->
  0 < width logo -> 0 < height logo ->
  exists h',
    apply_diagonal_watermark lanczos rotate_size bicubic
      (Verified (Some logo)) r h = (Raise ValueError, h').
Proof.
  intros Hr Hsmall Hlw Hlh.
  destruct (pipeline_stages h r src logo Hr) as (adj & Hm & Hsz & ->).
  unfold size in Hsz. inversion Hsz as [[Hw Hh]].
  assert (Hws : Py.int (inject_Z (Z.min (width src) (height src)) * WATERMARK_SCALE)
                = 0).
  { unfold WATERMARK_SCALE. rewrite int_scaled by lia.
    Z.div_mod_to_equations. lia. }
  rewrite Hws.
  eexists. apply bind_raise.
  rewrite (resize_proportional_run _ _ _ adj 0 (alloc_lookup _ _)) by lia.
  cbv zeta.
  apply (Image_resize_raises _ _ _ adj); [apply alloc_lookup | lia | lia |].
  left. rewrite scaled_dim_zero; [lia | apply min_ratio_zero].
Qed.

(** X7: the pipeline returns whenever the logo decodes, the dimensions
    that [resize_proportional] computes for the logo in binary64 are at
    least 1 pixel each way, the rotated logo is at least 2 pixels each
    way, and the rotation filter computes 8-bit channels. *)
Theorem pipeline_returns (h : heap) (r : ref) (src logo : image) :
  h !! r = Some src ->
  0 <= width src -> 0 <= height src ->
  0 < width logo -> 0 < height logo ->
  let watermark_size :=
    Py.int (inject_Z (Z.min (width src) (height src)) * WATERMARK_SCALE) in
  let ratio := Qmin (Float.fl64 (inject_Z watermark_size / inject_Z (width logo)))
                    (Float.fl64 (inject_Z watermark_size / inject_Z (height logo))) in
  let new_width := Py.int (Py.mul_int_float (width logo) ratio) in
  let new_height := Py.int (Py.mul_int_float (height logo) ratio) in
  1 <= new_width -> 1 <= new_height ->
  2 <= fst (rotate_size ROTATION_ANGLE (new_width, new_height)) ->
  2 <= snd (rotate_size ROTATION_ANGLE (new_width, new_height)) ->
  (forall img x y, u8_pixel (bicubic ROTATION_ANGLE img x y)) ->
  exists res h',
    apply_diagonal_watermark lanczos rotate_size bicubic
      (Verified (Some logo)) r h = (Ok res, h').
Proof.
  intros Hr Hsw Hsh Hlw Hlh ws ratio nw nh Hnw Hnh Hrw Hrh Hbic.
  destruct (pipeline_stages h r src logo Hr) as (adj & Hm & Hsz & ->).
  unfold size in Hsz. inversion Hsz as [[Hw Hh]].
  set (h3 := (h ++ [PIL.convert_image src RGBA]) ++ [logo]).
  fold ws.
  assert (Hadj : (h3 ++ [adj]) !! length h3 = Some adj) by apply alloc_lookup.
  rewrite bind_run.
  rewrite (resize_proportional_run _ _ _ adj ws Hadj) by lia.
  cbv zeta. rewrite Hw, Hh. fold ratio. fold nw. fold nh.
  destruct (Image_resize_returns lanczos _ _ adj nw nh Hadj Hnw Hnh)
    as (out & -> & Hmo & Hwo & Hho).
  rewrite bind_run. unfold Image_rotate.
  rewrite bind_run, (deref_some _ _ _ (alloc_lookup _ out)). simpl.
  rewrite bind_run.
  set (tile := {| mode := mode out;
                  width := (rotate_size ROTATION_ANGLE (size out)).1;
                  height := (rotate_size ROTATION_ANGLE (size out)).2;
                  getpixel := bicubic ROTATION_ANGLE out |}).
  assert (Hso : size out = (nw, nh)) by (unfold size; congruence).
  assert (Hbase : (((h3 ++ [adj]) ++ [out]) ++ [tile]) !! length h
                  = Some (PIL.convert_image src RGBA)).
  { unfold h3. do 4 apply alloc_keeps_lookup. apply alloc_lookup. }
  assert (Htile : (((h3 ++ [adj]) ++ [out]) ++ [tile])
                    !! length ((h3 ++ [adj]) ++ [out]) = Some tile)
    by apply alloc_lookup.
  destruct (create_tiled_pattern_returns _ _ _ _ _ Hbase Htile) as (res & h' & E).
  - exact Hsw.
  - exact Hsh.
  - split; [simpl; rewrite Hso; lia |]. split; [simpl; rewrite Hso; lia |].
    intros x y _. apply Hbic.
  - reflexivity.
  - simpl. congruence.
  - simpl. rewrite Hso. exact Hrw.
  - simpl. rewrite Hso. exact Hrh.
  - rewrite E. exists res, h'. reflexivity.
Qed.

End PipelineRuns.

(** ** What the Tile Compositor draws *)

Lemma paste_origins_value (W H tw th : Z) :
  2 <= tw -> 2 <= th ->
  paste_origins W H tw th = Ok (tile_origins W H tw th).
Proof.
  intros Htw Hth. unfold paste_origins.
  rewrite tiling_loop_pairs
    by (pose proof (spacing_pos _ Htw); pose proof (spacing_pos _ Hth); lia).
  rewrite record_pairs. reflexivity.
Qed.

Lemma grid_position_below (off s X : Z) :
  0 < s -> off <= X ->
  exists i, 0 <= i /\ off + i * s <= X < off + i * s + s.
Proof.
  intros Hs Hoff. exists ((X - off) / s).
  pose proof (Z.div_mod (X - off) s ltac:(lia)) as Hdm.
  pose proof (Z.mod_pos_bound (X - off) s Hs) as Hm.
  split; [apply Z.div_pos; lia | nia].
Qed.

(** X8: the tiles that are pasted cover the canvas: every pixel of the
    canvas lies in the bounding box of a tile that the loop pastes (the
    spacing is at most the tile size and the grid starts left of and
    above the canvas). *)
Theorem pasted_tiles_cover_canvas (W H tw th X Y : Z) :
  2 <= tw -> 2 <= th -> 0 <= X < W -> 0 <= Y < H ->
  exists l x y,
    paste_origins W H tw th = Ok l /\ In (x, y) l /\
    x <= X < x + tw /\ y <= Y < y + th.
Proof.
  intros Htw Hth HX HY.
  pose proof (spacing_pos _ Htw) as Hsx. pose proof (spacing_pos _ Hth) as Hsy.
  assert (Hlx : Py.int (inject_Z tw * (8 # 10)) <= tw).
  { rewrite spacing_value by lia. Z.div_mod_to_equations. lia. }
  assert (Hly : Py.int (inject_Z th * (8 # 10)) <= th).
  { rewrite spacing_value by lia. Z.div_mod_to_equations. lia. }
  assert (Hox : (- tw) / 2 <= X) by (Z.div_mod_to_equations; lia).
  assert (Hoy : (- th) / 2 <= Y) by (Z.div_mod_to_equations; lia).
  destruct (grid_position_below _ _ X Hsx Hox) as (i & Hi & Hxi).
  destruct (grid_position_below _ _ Y Hsy Hoy) as (j & Hj & Hyj).
  exists (tile_origins W H tw th).
  exists ((- tw) / 2 + i * Py.int (inject_Z tw * (8 # 10))).
  exists ((- th) / 2 + j * Py.int (inject_Z th * (8 # 10))).
  split; [apply paste_origins_value; assumption |].
  split.
  - apply tile_origins_spec; [assumption | assumption |].
    split; [exists i; auto |]. split; [exists j; auto |]. lia.
  - lia.
Qed.

Section TileLayer.

Variables (h : heap) (b t : ref) (base tile : image).
Hypothesis Hb : h !! b = Some base.
Hypothesis Ht : h !! t = Some tile.
Hypothesis Hw : 0 <= width base.
Hypothesis Hh : 0 <= height base.

Variable Q : pixel -> Prop.
Hypothesis Q0 : Q (Pixel 0 0 0 0).
Hypothesis Qstep :
  forall out sx sy, Q out -> in_bounds tile sx sy ->
    Q (PIL.blend_pixel (pa (getpixel tile sx sy)) out (getpixel tile sx sy)).

Lemma paste_pixels_holds (layer : image) (x0 y0 : Z) :
  (forall x y, Q (getpixel layer x y)) ->
  forall x y, Q (PIL.paste_pixels layer tile tile x0 y0 x y).
Proof.
  intros Hl x y. unfold PIL.paste_pixels. cbv zeta.
  destruct ((0 <=? x - x0) && (x - x0 <? width tile) &&
            (0 <=? y - y0) && (y - y0 <? height tile)) eqn:E; [| apply Hl].
  apply Qstep; [apply Hl | unfold in_bounds; lia].
Qed.

Lemma paste_keeps_layer (x y : Z) (s s' : heap) (res : result unit) :
  layer_holds Q b t (length h) base tile s ->
  PIL.paste (length h) t (x, y) t s = (res, s') ->
  layer_holds Q b t (length h) base tile s'.
Proof.
  intros (Hsb & Hst & layer & Hl & Hm & Hsz & Hq) E.
  split; [rewrite (paste_other _ _ _ _ _ _ _ _ (fresh_ne_base _ _ _ Hb) E);
          exact Hsb |].
  split; [rewrite (paste_other _ _ _ _ _ _ _ _ (fresh_ne_tile _ _ _ Ht) E);
          exact Hst |].
  destruct (mode tile) eqn:Mt.
  - rewrite (paste_rgb_tile_run _ _ _ _ _ _ _ Hl Hst Mt) in E.
    inversion E; subst. exists layer. auto.
  - rewrite (paste_tile_run _ _ _ _ _ _ _ Hl Hst Hm Mt) in E.
    destruct (_ || _); inversion E; subst; [exists layer; auto |].
    eexists.
    split; [apply list_lookup_insert_eq; eapply lookup_lt_Some; exact Hl |].
    simpl. split; [reflexivity |]. split; [exact Hsz |].
    apply paste_pixels_holds. exact Hq.
Qed.

(** A successful run composites over the base image a layer all of whose
    pixels satisfy [Q]. *)
Lemma create_tiled_pattern_layer (r : ref) (h' : heap) :
  create_tiled_pattern b t h = (Ok r, h') ->
  exists layer,
    (forall x y, Q (getpixel layer x y)) /\
    h' !! r = Some {| mode := RGBA; width := width base; height := height base;
                      getpixel := fun x y =>
                        PIL.composite_pixel (getpixel base x y)
                                            (getpixel layer x y) |}.
Proof.
  rewrite (create_tiled_pattern_stages _ _ _ _ _ Hb Ht Hw Hh). intros E.
  inv_bind E. inv_bind E. inversion E; subst; clear E.
  assert (Hinv : layer_holds Q b t (length h) base tile h0).
  { eapply (tiling_loop_inv (layer_holds Q b t (length h) base tile));
      [| | exact E0].
    - intros x y s res s'. apply paste_keeps_layer.
    - split; [apply alloc_keeps_lookup; exact Hb |].
      split; [apply alloc_keeps_lookup; exact Ht |].
      eexists. split; [apply alloc_lookup |].
      simpl. split; [reflexivity |]. split; [reflexivity |].
      intros x y. exact Q0. }
  destruct Hinv as (Hsb & _ & layer & Hl & _ & _ & Hq).
  apply alpha_composite_inv in E1 as (dst & src & Hd & Hs & _ & _ & -> & ->).
  rewrite Hsb in Hd. inversion Hd; subst dst.
  rewrite Hl in Hs. inversion Hs; subst src.
  exists layer. split; [exact Hq | apply alloc_lookup].
Qed.

End TileLayer.

Lemma composite_channel_u8 (sa da sc dc : Z) :
  1 <= sa <= 255 -> u8 da -> u8 sc -> u8 dc ->
  let outa255 := sa * 255 + da * (255 - sa) in
  let coef1 := sa * 255 * 255 * 128 / outa255 in
  let coef2 := 255 * 128 - coef1 in
  u8 (Z.shiftr (PIL.shift_div255 (sc * coef1 + dc * coef2 + Z.shiftl 128 7)) 7).
Proof.
  intros Hsa Hda Hsc Hdc outa255 coef1 coef2. unfold u8 in *.
  assert (Hout : sa * 255 <= outa255) by (unfold outa255; nia).
  assert (Hc1 : 0 <= coef1 <= 255 * 128).
  { unfold coef1. split.
    - apply Z.div_pos; nia.
    - apply Z.div_le_upper_bound; nia. }
  assert (Hsum : 0 <= sc * coef1 + dc * coef2 <= 255 * (255 * 128))
    by (unfold coef2; nia).
  generalize dependent (sc * coef1 + dc * coef2). intros tmp Hsum.
  rewrite shift_div255_eq, Z.shiftr_div_pow2 by lia.
  change (Z.shiftl 128 7) with 16384. change (2 ^ 7) with 128.
  Z.div_mod_to_equations. lia.
Qed.

Lemma composite_pixel_u8 (dst src : pixel) :
  u8_pixel dst -> u8_pixel src -> u8_pixel (PIL.composite_pixel dst src).
Proof.
  intros Hd Hs. unfold PIL.composite_pixel.
  destruct (pa src =? 0) eqn:E; [exact Hd |].
  apply Z.eqb_neq in E.
  destruct Hd as (Dr & Dg & Db & Da). destruct Hs as (Sr & Sg & Sb & Sa).
  assert (Hsa : 1 <= pa src <= 255) by (unfold u8 in Sa; lia).
  cbv zeta. unfold u8_pixel. simpl.
  split; [apply composite_channel_u8; assumption |].
  split; [apply composite_channel_u8; assumption |].
  split; [apply composite_channel_u8; assumption |].
  apply shift_div255_bounds. unfold u8 in *. nia.
Qed.

Lemma blend_pixel_u8 (m : Z) (out inp : pixel) :
  u8 m -> u8_pixel out -> u8_pixel inp -> u8_pixel (PIL.blend_pixel m out inp).
Proof.
  intros Hm (Or & Og & Ob & Oa) (Ir & Ig & Ib & Ia).
  unfold PIL.blend_pixel, u8_pixel. simpl.
  repeat split; apply BLEND_u8; assumption.
Qed.

(** X9: a fully transparent tile leaves the image as it is: when every
    alpha value of the tile is 0, the result of [create_tiled_pattern]
    equals the base image pixel for pixel, in all four channels. *)
Theorem transparent_tile_changes_nothing
    (h h' : heap) (b t r : ref) (base tile : image) :
  h !! b = Some base -> h !! t = Some tile ->
  0 <= width base -> 0 <= height base ->
  (forall x y, in_bounds tile x y -> pa (getpixel tile x y) = 0) ->
  create_tiled_pattern b t h = (Ok r, h') ->
  exists out,
    h' !! r = Some out /\ size out = size base /\
    forall x y, getpixel out x y = getpixel base x y.
Proof.
  intros Hb Ht Hw Hh Hclear E.
  destruct (create_tiled_pattern_layer h b t base tile Hb Ht Hw Hh
              (fun p => p = Pixel 0 0 0 0)) with (r := r) (h' := h')
    as (layer & Hl & Hout).
  - reflexivity.
  - intros out sx sy -> Hin. rewrite (Hclear _ _ Hin).
    unfold PIL.blend_pixel, PIL.BLEND. simpl. rewrite !Z.mul_0_r. reflexivity.
  - exact E.
  - eexists. split; [exact Hout |]. split; [reflexivity |].
    intros x y. simpl. rewrite (Hl x y). reflexivity.
Qed.

(** X10: [create_tiled_pattern] keeps the channels 8-bit: from a base
    image and a tile with 8-bit channels, every channel of every pixel of
    the result is within 0..255. *)
Theorem create_tiled_pattern_result_wf
    (h h' : heap) (b t r : ref) (base tile : image) :
  h !! b = Some base -> h !! t = Some tile ->
  wf_image base -> wf_image tile ->
  create_tiled_pattern b t h = (Ok r, h') ->
  exists out, h' !! r = Some out /\ mode out = RGBA /\ wf_image out.
Proof.
  intros Hb Ht (Hw & Hh & Hpx) (_ & _ & Htx) E.
  destruct (create_tiled_pattern_layer h b t base tile Hb Ht Hw Hh u8_pixel)
    with (r := r) (h' := h') as (layer & Hl & Hout).
  - unfold u8_pixel, u8. simpl. lia.
  - intros out sx sy Ho Hin.
    apply blend_pixel_u8; [| exact Ho | apply Htx; exact Hin].
    apply (Htx _ _ Hin).
  - exact E.
  - eexists. split; [exact Hout |]. split; [reflexivity |].
    split; [exact Hw |]. split; [exact Hh |].
    intros x y Hin. simpl.
    apply composite_pixel_u8; [apply Hpx; exact Hin | apply Hl].
Qed.

(** Of the first tile, pasted at the negative offset, a part lies on
    every canvas that is not empty; on an empty canvas no box has a
    part. *)
Lemma first_tile_on_canvas (w W : Z) :
  2 <= w -> 1 <= W -> (PIL.clipped_size ((- w) / 2) w W <=? 0) = false.
Proof.
  intros Hw HW. apply Z.leb_gt. unfold PIL.clipped_size.
  destruct ((- w) / 2 <? 0) eqn:E0.
  - destruct (W <? 0 + (w + (- w) / 2)) eqn:E1; [lia |].
    Z.div_mod_to_equations. lia.
  - apply Z.ltb_ge in E0. Z.div_mod_to_equations. lia.
Qed.

Lemma empty_canvas_clips (d0 size : Z) : (PIL.clipped_size d0 size 0 <=? 0) = true.
Proof.
  apply Z.leb_le. unfold PIL.clipped_size.
  destruct (d0 <? 0) eqn:E0.
  - destruct (0 <? 0 + (size + d0)) eqn:E1; [lia |]. apply Z.ltb_ge in E1. lia.
  - apply Z.ltb_ge in E0.
    destruct (0 <? d0 + size) eqn:E1; [lia |]. apply Z.ltb_ge in E1. lia.
Qed.

(** The loop starts with the tile at the negative offset, and ends there
    when that call raises. *)
Lemma tiling_loop_first_raises {S} (W H tw th : Z) (act : Z -> Z -> St S unit)
    (s : S) (e : exn) :
  0 <= W -> 0 <= H -> 2 <= tw -> 2 <= th ->
  act ((- tw) / 2) ((- th) / 2) s = (Raise e, s) ->
  tiling_loop W H tw th act s = (Raise e, s).
Proof.
  intros HW HH Htw Hth Hact. unfold tiling_loop.
  destruct (range_first ((- th) / 2) (H + th) _ (spacing_pos th Hth)) as [ys Eys].
  { Z.div_mod_to_equations. lia. }
  destruct (range_first ((- tw) / 2) (W + tw) _ (spacing_pos tw Htw)) as [xs Exs].
  { Z.div_mod_to_equations. lia. }
  rewrite bind_run, lift_run, Eys. cbn [for_each].
  rewrite bind_run, bind_run, lift_run, Exs. cbn [for_each].
  rewrite bind_run.
  assert (G : ((- tw) / 2 <? W) && ((- th) / 2 <? H) = true).
  { apply andb_true_iff. split; apply Z.ltb_lt; Z.div_mod_to_equations; lia. }
  rewrite G, Hact. reflexivity.
Qed.

Lemma create_tiled_pattern_rgb_tile (h : heap) (b t : ref) (base tile : image) :
  h !! b = Some base -> h !! t = Some tile ->
  1 <= width base -> 1 <= height base ->
  2 <= width tile -> 2 <= height tile -> mode tile = RGB ->
  exists h', create_tiled_pattern b t h = (Raise ValueError, h').
Proof.
  intros Hb Ht Hw Hh Htw Hth Mt.
  rewrite (create_tiled_pattern_stages _ _ _ _ _ Hb Ht) by lia.
  eexists. apply bind_raise.
  apply tiling_loop_first_raises; [lia | lia | exact Htw | exact Hth |].
  rewrite (paste_rgb_tile_run _ _ _ _ _ _ _ (alloc_lookup _ _)
             (alloc_keeps_lookup _ _ _ _ Ht) Mt).
  cbn [width height].
  rewrite (first_tile_on_canvas _ _ Htw Hw), (first_tile_on_canvas _ _ Hth Hh).
  reflexivity.
Qed.

(** On an empty canvas no [paste] looks at its mask, and an RGB tile
    passes. *)
Lemma create_tiled_pattern_empty_base (h : heap) (b t : ref) (base tile : image) :
  h !! b = Some base -> h !! t = Some tile ->
  0 <= width base -> 0 <= height base ->
  width base = 0 \/ height base = 0 ->
  2 <= width tile -> 2 <= height tile -> mode tile = RGB -> mode base = RGBA ->
  exists r h', create_tiled_pattern b t h = (Ok r, h').
Proof.
  intros Hb Ht Hw Hh Hempty Htw Hth Mt Mb.
  rewrite (create_tiled_pattern_stages _ _ _ _ _ Hb Ht Hw Hh).
  destruct (tiling_loop_total (layer_inv b t (length h) base tile)
              (width base) (height base) (width tile) (height tile)
              (fun x y => PIL.paste (length h) t (x, y) t))
    with (s := h ++ [{| mode := RGBA; width := width base; height := height base;
                        getpixel := fun _ _ => Pixel 0 0 0 0 |}])
    as (s' & Eloop & Hinv).
  - pose proof (spacing_pos _ Htw). lia.
  - pose proof (spacing_pos _ Hth). lia.
  - intros x y s Hinv. exists s. split; [| exact Hinv].
    destruct Hinv as (_ & Hst & layer & Hl & _ & Hsz & _).
    rewrite (paste_rgb_tile_run _ _ _ _ _ _ _ Hl Hst Mt).
    unfold size in Hsz. inversion Hsz as [[Ew Eh]]. rewrite Ew, Eh.
    destruct Hempty as [E | E]; rewrite E.
    + rewrite empty_canvas_clips. reflexivity.
    + rewrite empty_canvas_clips, orb_true_r. reflexivity.
  - apply layer_inv_init; assumption.
  - destruct Hinv as (Hsb & _ & layer & Hl & Hm & Hsz & _).
    rewrite (bind_ok _ _ _ _ _ Eloop).
    rewrite (bind_ok _ _ _ _ _
               (alpha_composite_run _ _ _ _ _ Hsb Hl Mb Hm Hsz)).
    eexists. eexists. reflexivity.
Qed.

Lemma create_tiled_pattern_rgb_base (h : heap) (b t : ref) (base tile : image) :
  h !! b = Some base -> h !! t = Some tile ->
  0 <= width base -> 0 <= height base -> wf_image tile ->
  2 <= width tile -> 2 <= height tile -> mode tile = RGBA -> mode base = RGB ->
  exists h', create_tiled_pattern b t h = (Raise ValueError, h').
Proof.
  intros Hb Ht Hw Hh Hwf Htw Hth Mt Mb.
  rewrite (create_tiled_pattern_stages _ _ _ _ _ Hb Ht Hw Hh).
  destruct (tiling_loop_total (layer_inv b t (length h) base tile)
              (width base) (height base) (width tile) (height tile)
              (fun x y => PIL.paste (length h) t (x, y) t))
    with (s := h ++ [{| mode := RGBA; width := width base; height := height base;
                        getpixel := fun _ _ => Pixel 0 0 0 0 |}])
    as (s' & Eloop & Hinv).
  - pose proof (spacing_pos _ Htw). lia.
  - pose proof (spacing_pos _ Hth). lia.
  - intros x y s. apply (paste_total_inv _ _ _ _ _ Hb Ht); assumption.
  - apply layer_inv_init; assumption.
  - destruct Hinv as (Hsb & _ & layer & Hl & _).
    rewrite (bind_ok _ _ _ _ _ Eloop).
    eexists. apply bind_raise. unfold PIL.alpha_composite.
    rewrite bind_run, (deref_some _ _ _ Hsb).
    rewrite bind_run, (deref_some _ _ _ Hl).
    rewrite Mb. reflexivity.
Qed.

(** X11: for a base image and a tile that are each in mode RGB or RGBA,
    the two modes of this development, [create_tiled_pattern] returns
    exactly when the base is RGBA, the tile is at least 2 by 2 pixels,
    and the tile is RGBA or the canvas is empty; in every other case it
    raises [ValueError]: an RGB tile is no transparency mask for a
    [paste] that reaches the canvas, and [alpha_composite] takes RGBA
    only.  (A tile in a mode with a mask reading, such as L, is outside
    the statement.) *)
Theorem create_tiled_pattern_returns_iff (h : heap) (b t : ref) (base tile : image) :
  h !! b = Some base -> h !! t = Some tile ->
  wf_image base -> wf_image tile ->
  ((exists r h', create_tiled_pattern b t h = (Ok r, h')) <->
   mode base = RGBA /\ 2 <= width tile /\ 2 <= height tile /\
   (mode tile = RGBA \/ width base = 0 \/ height base = 0)) /\
  (forall e h', create_tiled_pattern b t h = (Raise e, h') -> e = ValueError).
Proof.
  intros Hb Ht (Hw & Hh & _) Hwt. pose proof Hwt as (Htw & Hth & _).
  set (ok := mode base = RGBA /\ 2 <= width tile /\ 2 <= height tile /\
             (mode tile = RGBA \/ width base = 0 \/ height base = 0)).
  assert (Hfail :
    ~ ok -> exists h', create_tiled_pattern b t h = (Raise ValueError, h')).
  { intros Hn.
    destruct (Z_le_gt_dec (width tile) 1) as [Hs | Hs].
    { apply (create_tiled_pattern_raises _ _ _ _ _ Hb Ht Hw Hh Htw Hth). auto. }
    destruct (Z_le_gt_dec (height tile) 1) as [Hs' | Hs'].
    { apply (create_tiled_pattern_raises _ _ _ _ _ Hb Ht Hw Hh Htw Hth). auto. }
    destruct (mode tile) eqn:Mt.
    - destruct (Z.eq_dec (width base) 0) as [E0 | N0];
        [| destruct (Z.eq_dec (height base) 0) as [E1 | N1]].
      + destruct (mode base) eqn:Mb; [| exfalso; apply Hn; unfold ok; auto 10 with zarith].
        (* an RGB base fails in [alpha_composite], after a loop without effect *)
        rewrite (create_tiled_pattern_stages _ _ _ _ _ Hb Ht Hw Hh).
        destruct (tiling_loop_total (layer_inv b t (length h) base tile)
                    (width base) (height base) (width tile) (height tile)
                    (fun x y => PIL.paste (length h) t (x, y) t))
          with (s := h ++ [{| mode := RGBA; width := width base;
                              height := height base;
                              getpixel := fun _ _ => Pixel 0 0 0 0 |}])
          as (s' & Eloop & Hinv).
        * pose proof (spacing_pos (width tile)). lia.
        * pose proof (spacing_pos (height tile)). lia.
        * intros x y s Hinv. exists s. split; [| exact Hinv].
          destruct Hinv as (_ & Hst & layer & Hl & _ & Hsz & _).
          rewrite (paste_rgb_tile_run _ _ _ _ _ _ _ Hl Hst Mt).
          unfold size in Hsz. inversion Hsz as [[Ew Eh]].
          rewrite Ew, E0, empty_canvas_clips. reflexivity.
        * apply layer_inv_init; assumption.
        * destruct Hinv as (Hsb & _ & layer & Hl & _).
          rewrite (bind_ok _ _ _ _ _ Eloop).
          eexists. apply bind_raise. unfold PIL.alpha_composite.
          rewrite bind_run, (deref_some _ _ _ Hsb).
          rewrite bind_run, (deref_some _ _ _ Hl).
          rewrite Mb. reflexivity.
      + destruct (mode base) eqn:Mb; [| exfalso; apply Hn; unfold ok; auto 10 with zarith].
        rewrite (create_tiled_pattern_stages _ _ _ _ _ Hb Ht Hw Hh).
        destruct (tiling_loop_total (layer_inv b t (length h) base tile)
                    (width base) (height base) (width tile) (height tile)
                    (fun x y => PIL.paste (length h) t (x, y) t))
          with (s := h ++ [{| mode := RGBA; width := width base;
                              height := height base;
                              getpixel := fun _ _ => Pixel 0 0 0 0 |}])
          as (s' & Eloop & Hinv).
        * pose proof (spacing_pos (width tile)). lia.
        * pose proof (spacing_pos (height tile)). lia.
        * intros x y s Hinv. exists s. split; [| exact Hinv].
          destruct Hinv as (_ & Hst & layer & Hl & _ & Hsz & _).
          rewrite (paste_rgb_tile_run _ _ _ _ _ _ _ Hl Hst Mt).
          unfold size in Hsz. inversion Hsz as [[Ew Eh]].
          rewrite Eh, E1, empty_canvas_clips, orb_true_r. reflexivity.
        * apply layer_inv_init; assumption.
        * destruct Hinv as (Hsb & _ & layer & Hl & _).
          rewrite (bind_ok _ _ _ _ _ Eloop).
          eexists. apply bind_raise. unfold PIL.alpha_composite.
          rewrite bind_run, (deref_some _ _ _ Hsb).
          rewrite bind_run, (deref_some _ _ _ Hl).
          rewrite Mb. reflexivity.
      + apply (create_tiled_pattern_rgb_tile _ _ _ _ _ Hb Ht); lia || assumption.
    - destruct (mode base) eqn:Mb.
      { apply (create_tiled_pattern_rgb_base _ _ _ _ _ Hb Ht Hw Hh Hwt);
          lia || assumption. }
      exfalso. apply Hn. unfold ok. repeat split; auto; lia. }
  assert (Hyes : ok -> exists r h', create_tiled_pattern b t h = (Ok r, h')).
  { intros (Mb & H2w & H2h & Hcase).
    destruct (mode tile) eqn:Mt.
    - destruct Hcase as [C | Hempty]; [discriminate C |].
      apply (create_tiled_pattern_empty_base _ _ _ _ _ Hb Ht Hw Hh Hempty H2w H2h Mt Mb).
    - apply (create_tiled_pattern_returns _ _ _ _ _ Hb Ht Hw Hh Hwt Mb Mt H2w H2h). }
  assert (Hdec : ok \/ ~ ok).
  { unfold ok.
    destruct (mode base); [right; intros (C & _); discriminate C |].
    destruct (Z_le_gt_dec 2 (width tile)); [| right; lia].
    destruct (Z_le_gt_dec 2 (height tile)); [| right; lia].
    destruct (mode tile); [| left; repeat split; auto; lia].
    destruct (Z.eq_dec (width base) 0); [left; repeat split; auto; lia |].
    destruct (Z.eq_dec (height base) 0); [left; repeat split; auto; lia |].
    right. intros (_ & _ & _ & [C | [C | C]]); [discriminate C | lia | lia]. }
  split; [split |].
  - intros (r & h' & E). destruct Hdec as [Hy | Hn]; [exact Hy |].
    destruct (Hfail Hn) as (h'' & E'). rewrite E in E'. discriminate E'.
  - exact Hyes.
  - intros e h' E. destruct Hdec as [Hy | Hn].
    + destruct (Hyes Hy) as (r & h'' & E'). rewrite E in E'. discriminate E'.
    + destruct (Hfail Hn) as (h'' & E'). rewrite E in E'. congruence.
Qed.

(** ** What the handler answers *)

Section Answers.

Variable lanczos : image -> Z * Z -> Z -> Z -> pixel.
Variable rotate_size : Z -> Z * Z -> Z * Z.
Variable bicubic : Z -> image -> Z -> Z -> pixel.
Variable logo_file : logo_state.
Variable requests_get : string -> http_result.

Local Abbreviation pipeline :=
  (apply_diagonal_watermark lanczos rotate_size bicubic logo_file).
Local Abbreviation handler :=
  (watermark_image lanczos rotate_size bicubic logo_file requests_get).

(** X12: the pipeline never raises a requests exception, whatever the
    heap and the image it is given, so a failure inside the pipeline is
    never taken for a failed download. *)
Theorem pipeline_raises_no_request_exception
    (h h' : heap) (r : ref) (e : exn) :
  apply_diagonal_watermark lanczos rotate_size bicubic logo_file r h
    = (Raise e, h') ->
  e <> RequestException.
Proof. apply nre_apply_diagonal_watermark. Qed.

(** A 200 answer, traced back to the download and the pipeline run that
    produced it. *)
Lemma handler_ok_inv (u : string) :
  status (handler (Some u)) = 200 ->
  exists code src r h' out,
    u <> EmptyString /\ check_logo logo_file = true /\
    requests_get u = Response code (Decodes src) /\ ~ 400 <= code < 600 /\
    pipeline 0%nat [src] = (Ok r, h') /\ h' !! r = Some out /\
    ~ encoding_fails pipeline u (requests_get u) /\
    handler (Some u) =
      if Py.endswith_any (Py.lower u) [".png"; ".gif"; ".bmp"; ".tiff"]%string
      then {| status := 200; mimetype := "image/png";
              body := File PNG out "watermarked_image.png" |}
      else {| status := 200; mimetype := "image/jpeg";
              body := File (JPEG 95) (PIL.convert_image out RGB)
                        "watermarked_image.jpg" |}.
Proof.
  destruct u as [| c u']; [discriminate |].
  generalize (handler_cases lanczos rotate_size bicubic logo_file requests_get c u').
  cbv zeta.
  set (resp := handler (Some (String c u'))). clearbody resp.
  assert (Herr : forall code, error_response resp code -> code <> 200 ->
                 status resp = 200 -> False).
  { intros code (Hs & _) Hc E. congruence. }
  unfold check_logo.
  destruct logo_file as [| | data];
    try (intros H E; exfalso; apply (Herr _ H); [discriminate | exact E]).
  destruct (requests_get (String c u')) as [| | code content];
    try (intros H E; exfalso; apply (Herr _ H); [discriminate | exact E]).
  destruct ((400 <=? code) && (code <? 600)) eqn:Ec;
    try (intros H E; exfalso; apply (Herr _ H); [discriminate | exact E]).
  destruct content as [| src];
    try (intros H E; exfalso; apply (Herr _ H); [discriminate | exact E]).
  destruct (apply_diagonal_watermark lanczos rotate_size bicubic
              (Verified data) 0%nat [src]) as [[r | e] h'] eqn:Ep;
    try (intros H E; exfalso; apply (Herr _ H); [discriminate | exact E]).
  intros (out & Hout & _ & Hresp) Hs.
  exists code, src, r, h', out.
  split; [discriminate |]. split; [reflexivity |]. split; [reflexivity |].
  split.
  { intros [H1 H2]. apply Z.leb_le in H1. apply Z.ltb_lt in H2.
    rewrite H1, H2 in Ec. discriminate Ec. }
  split; [exact Ep |]. split; [exact Hout |].
  unfold encoding_fails. rewrite Ep.
  destruct (Py.endswith_any _ _).
  - split; [| exact Hresp].
    intros (r0 & h0 & out0 & _ & _ & Hf & _). discriminate Hf.
  - destruct ((PIL.JPEG_MAX_DIMENSION <? width out) ||
              (PIL.JPEG_MAX_DIMENSION <? height out)) eqn:Ebig;
      [exfalso; apply (Herr _ Hresp); [discriminate | exact Hs] |].
    split; [| exact Hresp].
    intros (r0 & h0 & out0 & E0 & H0 & _ & Hf).
    inversion E0; subst r0 h0. rewrite Hout in H0. inversion H0; subst out0.
    apply orb_false_iff in Ebig as [B1 B2].
    apply Z.ltb_ge in B1. apply Z.ltb_ge in B2. lia.
Qed.

(** X13: every request gets one of three answers: 200 with an image
    file, or 400 or 500 with a JSON error payload; and the answer is 200
    exactly when the url is not empty, the logo passes its check, the
    download completes with a decodable image, the pipeline returns on
    that image and the encoder accepts the result. *)
Theorem watermark_image_answers (url : option string) :
  (status (handler url) = 200 /\
   (exists fmt img name, body (handler url) = File fmt img name) \/
   error_response (handler url) 400 \/
   error_response (handler url) 500) /\
  (status (handler url) = 200 <->
   exists u code src r h',
     url = Some u /\ u <> EmptyString /\ check_logo logo_file = true /\
     requests_get u = Response code (Decodes src) /\ ~ 400 <= code < 600 /\
     pipeline 0%nat [src] = (Ok r, h') /\
     ~ encoding_fails pipeline u (requests_get u)).
Proof.
  split.
  - destruct url as [[| c u'] |];
      try (right; left; split; [reflexivity |];
           split; [reflexivity | eexists; reflexivity]).
    generalize (handler_cases lanczos rotate_size bicubic logo_file requests_get
                  c u').
    cbv zeta.
    set (resp := handler (Some (String c u'))). clearbody resp.
    destruct logo_file as [| | data]; auto.
    destruct (requests_get (String c u')) as [| | code content]; auto.
    destruct ((400 <=? code) && (code <? 600)); auto.
    destruct content as [| src]; auto.
    destruct (apply_diagonal_watermark lanczos rotate_size bicubic
                (Verified data) 0%nat [src]) as [[r | e] h']; auto.
    intros (out & _ & _ & Hresp).
    destruct (Py.endswith_any _ _).
    + subst resp. left.
      split; [reflexivity | eexists; eexists; eexists; reflexivity].
    + destruct ((PIL.JPEG_MAX_DIMENSION <? width out) ||
                (PIL.JPEG_MAX_DIMENSION <? height out)); [auto |].
      subst resp. left.
      split; [reflexivity | eexists; eexists; eexists; reflexivity].
  - split.
    + destruct url as [u |]; [| discriminate].
      intros E.
      destruct (handler_ok_inv u E)
        as (code & src & r & h' & out & Hne & Hl & Hg & Hc & Hp & _ & Henc & _).
      exists u, code, src, r, h'. auto 10.
    + intros (u & code & src & r & h' & -> & Hne & Hl & Hg & Hc & Hp & Henc).
      destruct u as [| c u']; [contradiction |].
      generalize (handler_cases lanczos rotate_size bicubic logo_file requests_get
                    c u').
      cbv zeta.
      set (resp := handler (Some (String c u'))). clearbody resp.
      revert Hl Hp Henc. unfold check_logo.
      destruct logo_file as [| | data]; try discriminate.
      intros _ Hp Henc. rewrite Hg in Henc |- *.
      destruct ((400 <=? code) && (code <? 600)) eqn:Ec.
      { apply andb_true_iff in Ec as [E1 E2].
        apply Z.leb_le in E1. apply Z.ltb_lt in E2. lia. }
      rewrite Hp. intros (out & Hout & _ & Hresp).
      destruct (Py.endswith_any _ _) eqn:Epng; [subst resp; reflexivity |].
      destruct ((PIL.JPEG_MAX_DIMENSION <? width out) ||
                (PIL.JPEG_MAX_DIMENSION <? height out)) eqn:Ebig;
        [| subst resp; reflexivity].
      exfalso. apply Henc. exists r, h', out.
      split; [exact Hp |]. split; [exact Hout |]. split; [exact Epng |].
      apply orb_true_iff in Ebig as [B | B]; apply Z.ltb_lt in B; auto.
Qed.

(** X14: the image of a 200 answer has exactly the width and the height
    of the image that was downloaded, as PNG and as JPEG. *)
Theorem served_image_has_source_size (u : string) :
  status (watermark_image lanczos rotate_size bicubic logo_file requests_get
            (Some u)) = 200 ->
  exists code src fmt out name,
    requests_get u = Response code (Decodes src) /\
    body (watermark_image lanczos rotate_size bicubic logo_file requests_get
            (Some u)) = File fmt out name /\
    width out = width src /\ height out = height src.
Proof.
  intros E.
  destruct (handler_ok_inv u E)
    as (code & src & r & h' & out & _ & _ & Hg & _ & Hp & Hout & _ & ->).
  destruct (pipeline_result _ _ _ _ [src] _ 0%nat _ src eq_refl Hp)
    as (out' & Hout' & Hw & Hh).
  rewrite Hout in Hout'. inversion Hout'; subst out'.
  exists code, src.
  destruct (Py.endswith_any _ _); simpl.
  - exists PNG, out, "watermarked_image.png"%string. auto.
  - exists (JPEG 95), (PIL.convert_image out RGB), "watermarked_image.jpg"%string.
    auto.
Qed.


(** X15: when [/health] reports [logo_exists] as false, the logo file is
    absent and [/watermark] answers 500 with an error payload to every
    non-empty url, without downloading anything. *)
Theorem health_false_watermark_500 :
  body (health_check logo_file) = Json_health "healthy" false ->
  logo_file = Missing /\
  forall u, u <> EmptyString -> error_response (handler (Some u)) 500.
Proof.
  unfold health_check. simpl. intros E.
  assert (Hl : logo_file = Missing).
  { destruct logo_file; [reflexivity | discriminate E | discriminate E]. }
  split; [exact Hl |].
  intros [| c u'] Hne; [contradiction |].
  generalize (handler_cases lanczos rotate_size bicubic logo_file requests_get
                c u').
  cbv zeta. rewrite Hl. auto.
Qed.

End Answers.

(** ** The further properties on concrete inputs *)

Lemma create_tiled_pattern_keeps_heap_witness :
  let h := [solid RGBA 6 6 (Pixel 200 150 100 128); sample_logo] in
  (length h <= length (snd (create_tiled_pattern 0%nat 1%nat h)))%nat /\
  (forall r, (r < length h)%nat ->
     snd (create_tiled_pattern 0%nat 1%nat h) !! r = h !! r) /\
  (forall r, Ok 3%nat = Ok r -> (length h <= r)%nat).
Proof.
  cbv zeta.
  apply (create_tiled_pattern_keeps_heap
           [solid RGBA 6 6 (Pixel 200 150 100 128); sample_logo] _
           0%nat 1%nat (Ok 3%nat)).
  apply pair_of_fst. vm_compute. reflexivity.
Defined.

Lemma apply_diagonal_watermark_keeps_heap_witness :
  let run := apply_diagonal_watermark sample_lanczos sample_rotate_size
               sample_bicubic (Verified (Some sample_logo)) 0%nat [sample_photo] in
  (length [sample_photo] <= length (snd run))%nat /\
  (forall q, (q < length [sample_photo])%nat -> snd run !! q = [sample_photo] !! q) /\
  (forall r', Ok 7%nat = Ok r' -> (length [sample_photo] <= r')%nat).
Proof.
  cbv zeta.
  apply (apply_diagonal_watermark_keeps_heap sample_lanczos sample_rotate_size
           sample_bicubic (Verified (Some sample_logo)) [sample_photo] _ 0%nat
           (Ok 7%nat)).
  apply pair_of_fst. vm_compute. reflexivity.
Defined.

Lemma adjust_opacity_in_place_witness :
  (mode sample_logo = RGBA ->
   exists out,
     adjust_opacity 0%nat (8 # 10) [sample_logo]
       = (Ok 0%nat, <[0%nat := out]> [sample_logo]) /\
     mode out = RGBA /\ size out = size sample_logo /\
     length (<[0%nat := out]> [sample_logo]) = length [sample_logo] /\
     forall q, q <> 0%nat -> <[0%nat := out]> [sample_logo] !! q = [sample_logo] !! q) /\
  (mode sample_logo = RGB ->
   adjust_opacity 0%nat (8 # 10) [sample_logo] = (Raise IndexError, [sample_logo])).
Proof.
  apply (adjust_opacity_in_place [sample_logo] 0%nat sample_logo (8 # 10)).
  - reflexivity.
  - unfold Qle. simpl. lia.
Defined.

Lemma adjust_opacity_twice_witness :
  exists h1 h2 out,
    adjust_opacity 0%nat (8 # 10) [sample_logo] = (Ok 0%nat, h1) /\
    adjust_opacity 0%nat (8 # 10) h1 = (Ok 0%nat, h2) /\
    h2 !! 0%nat = Some out /\
    forall x y, in_bounds sample_logo x y ->
      let a := pa (getpixel sample_logo x y) in
      let a1 := Py.int (Float.fl32 (Float.fl32 (8 # 10) * inject_Z a)) in
      pa (getpixel out x y) =
        Py.int (Float.fl32 (Float.fl32 (8 # 10) * inject_Z a1)) /\
      0 <= pa (getpixel out x y) <= a1 /\ a1 <= a.
Proof.
  apply (adjust_opacity_twice [sample_logo] 0%nat sample_logo (8 # 10) (8 # 10)).
  - reflexivity.
  - reflexivity.
  - apply solid_wf; [lia | lia | exact sample_pixel_u8].
  - unfold Qle. simpl. lia.
  - unfold Qle. simpl. lia.
  - unfold Qle. simpl. lia.
  - unfold Qle. simpl. lia.
Defined.

Lemma resize_proportional_zero_dimension_witness :
  let img := solid RGBA 0 5 (Pixel 10 20 30 255) in
  resize_proportional sample_lanczos 0%nat 50 [img] = (Raise ZeroDivisionError, [img]).
Proof.
  cbv zeta.
  apply (resize_proportional_zero_dimension sample_lanczos
           [solid RGBA 0 5 (Pixel 10 20 30 255)] 0%nat
           (solid RGBA 0 5 (Pixel 10 20 30 255)) 50).
  - reflexivity.
  - left. reflexivity.
Defined.

Lemma pipeline_rejects_small_images_witness :
  let src := solid RGB 4 30 (Pixel 200 150 100 255) in
  exists h',
    apply_diagonal_watermark sample_lanczos sample_rotate_size sample_bicubic
      (Verified (Some sample_logo)) 0%nat [src] = (Raise ValueError, h').
Proof.
  cbv zeta.
  apply (pipeline_rejects_small_images sample_lanczos sample_rotate_size
           sample_bicubic [solid RGB 4 30 (Pixel 200 150 100 255)] 0%nat
           (solid RGB 4 30 (Pixel 200 150 100 255)) sample_logo).
  - reflexivity.
  - simpl. lia.
  - simpl. lia.
  - simpl. lia.
Defined.

Lemma pipeline_returns_witness :
  exists res h',
    apply_diagonal_watermark sample_lanczos sample_rotate_size
      (fun _ _ _ _ => Pixel 10 20 30 128)
      (Verified (Some sample_logo)) 0%nat [sample_photo] = (Ok res, h').
Proof.
  apply (pipeline_returns sample_lanczos sample_rotate_size
           (fun _ _ _ _ => Pixel 10 20 30 128)
           [sample_photo] 0%nat sample_photo sample_logo).
  - reflexivity.
  - simpl. lia.
  - simpl. lia.
  - simpl. lia.
  - simpl. lia.
  - vm_compute. discriminate.
  - vm_compute. discriminate.
  - vm_compute. discriminate.
  - vm_compute. discriminate.
  - intros img x y. unfold u8_pixel, u8. simpl. lia.
Defined.

Lemma pasted_tiles_cover_canvas_witness :
  exists l x y,
    paste_origins 10 10 4 4 = Ok l /\ In (x, y) l /\
    x <= 9 < x + 4 /\ y <= 9 < y + 4.
Proof. apply (pasted_tiles_cover_canvas 10 10 4 4 9 9); lia. Defined.

Lemma transparent_tile_changes_nothing_witness :
  let base := solid RGBA 6 6 (Pixel 200 150 100 128) in
  let tile := solid RGBA 4 4 (Pixel 10 20 30 0) in
  exists out,
    snd (create_tiled_pattern 0%nat 1%nat [base; tile]) !! 3%nat = Some out /\
    size out = size base /\
    forall x y, getpixel out x y = getpixel base x y.
Proof.
  cbv zeta.
  apply (transparent_tile_changes_nothing
           [solid RGBA 6 6 (Pixel 200 150 100 128); solid RGBA 4 4 (Pixel 10 20 30 0)]
           _ 0%nat 1%nat 3%nat _ (solid RGBA 4 4 (Pixel 10 20 30 0))).
  - reflexivity.
  - reflexivity.
  - simpl. lia.
  - simpl. lia.
  - intros x y _. reflexivity.
  - apply pair_of_fst. vm_compute. reflexivity.
Defined.

Lemma create_tiled_pattern_result_wf_witness :
  let base := solid RGBA 6 6 (Pixel 200 150 100 128) in
  exists out,
    snd (create_tiled_pattern 0%nat 1%nat [base; sample_logo]) !! 3%nat = Some out /\
    mode out = RGBA /\ wf_image out.
Proof.
  cbv zeta.
  apply (create_tiled_pattern_result_wf
           [solid RGBA 6 6 (Pixel 200 150 100 128); sample_logo] _
           0%nat 1%nat 3%nat (solid RGBA 6 6 (Pixel 200 150 100 128)) sample_logo).
  - reflexivity.
  - reflexivity.
  - apply solid_wf; [lia | lia | unfold u8_pixel, u8; simpl; lia].
  - apply solid_wf; [lia | lia | exact sample_pixel_u8].
  - apply pair_of_fst. vm_compute. reflexivity.
Defined.

Lemma create_tiled_pattern_returns_iff_witness :
  let base := solid RGB 6 6 (Pixel 200 150 100 255) in
  ((exists r h', create_tiled_pattern 0%nat 1%nat [base; sample_logo] = (Ok r, h')) <->
   mode base = RGBA /\ 2 <= width sample_logo /\ 2 <= height sample_logo /\
   (mode sample_logo = RGBA \/ width base = 0 \/ height base = 0)) /\
  (forall e h',
     create_tiled_pattern 0%nat 1%nat [base; sample_logo] = (Raise e, h') ->
     e = ValueError).
Proof.
  cbv zeta.
  apply (create_tiled_pattern_returns_iff
           [solid RGB 6 6 (Pixel 200 150 100 255); sample_logo] 0%nat 1%nat
           (solid RGB 6 6 (Pixel 200 150 100 255)) sample_logo).
  - reflexivity.
  - reflexivity.
  - apply solid_wf; [lia | lia | unfold u8_pixel, u8; simpl; lia].
  - apply solid_wf; [lia | lia | exact sample_pixel_u8].
Defined.

(** An RGB tile on a canvas without pixels: no [paste] reaches the
    canvas, and the function returns; on a canvas of 6 by 6 pixels the
    first [paste] rejects the tile as a mask. *)
Lemma rgb_tile_on_empty_canvas :
  let tile := solid RGB 4 4 (Pixel 10 20 30 255) in
  fst (create_tiled_pattern 0%nat 1%nat
         [solid RGBA 0 6 (Pixel 200 150 100 255); tile]) = Ok 3%nat /\
  fst (create_tiled_pattern 0%nat 1%nat
         [solid RGBA 6 6 (Pixel 200 150 100 255); tile]) = Raise ValueError.
Proof. cbv zeta. split; vm_compute; reflexivity. Qed.

Lemma pipeline_raises_no_request_exception_witness :
  OSError <> RequestException.
Proof.
  apply (pipeline_raises_no_request_exception sample_lanczos sample_rotate_size
           sample_bicubic Invalid [sample_photo]
           (snd (apply_diagonal_watermark sample_lanczos sample_rotate_size
                   sample_bicubic Invalid 0%nat [sample_photo]))
           0%nat OSError).
  apply pair_of_fst. vm_compute. reflexivity.
Defined.

Lemma served_image_has_source_size_witness :
  exists code src fmt out name,
    sample_server "http://example.com/photo.png" = Response code (Decodes src) /\
    body (watermark_image sample_lanczos sample_rotate_size sample_bicubic
            (Verified (Some sample_logo)) sample_server
            (Some "http://example.com/photo.png"%string)) = File fmt out name /\
    width out = width src /\ height out = height src.
Proof.
  apply (served_image_has_source_size sample_lanczos sample_rotate_size
           sample_bicubic (Verified (Some sample_logo)) sample_server
           "http://example.com/photo.png").
  vm_compute. reflexivity.
Defined.

Lemma health_false_watermark_500_witness :
  Missing = Missing /\
  forall u, u <> EmptyString ->
    error_response
      (watermark_image sample_lanczos sample_rotate_size sample_bicubic
         Missing sample_server (Some u)) 500.
Proof.
  apply (health_false_watermark_500 sample_lanczos sample_rotate_size
           sample_bicubic Missing sample_server).
  reflexivity.
Defined.

Lemma configured_opacity_alpha_witness :
  PIL.blend_value 0 255 WATERMARK_OPACITY = 255 * 8 / 10 /\
  PIL.blend_value 0 255 (Float.fl64 WATERMARK_OPACITY) = 255 * 8 / 10.
Proof. apply (configured_opacity_alpha 255). lia. Defined.

Lemma literal_products_binary64_witness :
  Py.int (Py.mul_int_float 1920 (Float.fl64 (8 # 10))) =
    Py.int (inject_Z 1920 * (8 # 10)) /\
  Py.int (Py.mul_int_float 1920 (Float.fl64 WATERMARK_SCALE)) =
    Py.int (inject_Z 1920 * WATERMARK_SCALE).
Proof. apply (literal_products_binary64 1920). lia. Defined.


(** ** The extension test of the handler *)

Lemma lower_app (s1 s2 : string) :
  Py.lower (s1 ++ s2) = (Py.lower s1 ++ Py.lower s2)%string.
Proof.
  induction s1 as [| c s1 IH]; [reflexivity |].
  simpl. rewrite IH. reflexivity.
Qed.

Section Extension.

Variable lanczos : image -> Z * Z -> Z -> Z -> pixel.
Variable rotate_size : Z -> Z * Z -> Z * Z.
Variable bicubic : Z -> image -> Z -> Z -> pixel.
Variable logo_file : logo_state.
Variable requests_get : string -> http_result.

(** X16: the extension is matched without regard to letter case: a url
    that ends with .png, .gif, .bmp or .tiff written in any mix of upper
    and lower case is answered, on success, as image/png. *)
Theorem extension_case_insensitive (prefix ext : string) :
  In (Py.lower ext) [".png"; ".gif"; ".bmp"; ".tiff"]%string ->
  status (watermark_image lanczos rotate_size bicubic logo_file requests_get
            (Some (prefix ++ ext)%string)) = 200 ->
  png_url (prefix ++ ext) /\
  mimetype (watermark_image lanczos rotate_size bicubic logo_file requests_get
              (Some (prefix ++ ext)%string)) = "image/png"%string.
Proof.
  intros Hext E.
  assert (Hpng : png_url (prefix ++ ext)).
  { exists (Py.lower ext), (Py.lower prefix). split; [exact Hext | apply lower_app]. }
  split; [exact Hpng |].
  destruct (handler_ok_inv _ _ _ _ _ _ E)
    as (code & src & r & h' & out & _ & _ & _ & _ & _ & _ & _ & ->).
  rewrite (proj2 (endswith_any_spec _) Hpng). reflexivity.
Qed.

End Extension.

Lemma extension_case_insensitive_witness :
  png_url ("http://example.com/photo" ++ ".PnG") /\
  mimetype (watermark_image sample_lanczos sample_rotate_size sample_bicubic
              (Verified (Some sample_logo)) sample_server
              (Some ("http://example.com/photo" ++ ".PnG")%string))
    = "image/png"%string.
Proof.
  apply (extension_case_insensitive sample_lanczos sample_rotate_size
           sample_bicubic (Verified (Some sample_logo)) sample_server
           "http://example.com/photo" ".PnG").
  - vm_compute. left. reflexivity.
  - vm_compute. reflexivity.
Defined.
